(** * EchoMeet: room registry, signalling relay and client negotiation engine

    A shallow embedding of the server's socket handlers (the room registry,
    the signal router and the chat relay) and of the parts of the client's
    [WebRTCService] that own the peer table, the pending ICE queues and the
    remote streams, together with the properties stated about them. *)

From Stdlib Require Import ZArith Ascii String.
From stdpp Require Import base decidable option list strings gmap fin_maps.

Set Default Proof Using "Type".
Local Open Scope string_scope.
Local Open Scope list_scope.

(** ** JavaScript [Map] as an insertion-ordered association list

    A JS [Map] iterates in insertion order, [set] on a present key overwrites
    the value where the key already sits and on an absent key appends, and
    [delete] removes the entry.  The server relies on that order when it
    lists the participants of a room, so the rooms are kept as lists. *)

Module JMap.
Section jmap.
Context {K V : Type} `{EqDecision K}.

Fixpoint get (k : K) (m : list (K * V)) : option V :=
  match m with
  | [] => None
  | (k', v) :: m' => if decide (k' = k) then Some v else get k m'
  end.

Definition has (k : K) (m : list (K * V)) : bool :=
  match get k m with Some _ => true | None => false end.

Fixpoint set (k : K) (v : V) (m : list (K * V)) : list (K * V) :=
  match m with
  | [] => [(k, v)]
  | (k', v') :: m' =>
      if decide (k' = k) then (k, v) :: m' else (k', v') :: set k v m'
  end.

Definition delete (k : K) (m : list (K * V)) : list (K * V) :=
  filter (λ p, p.1 ≠ k) m.

Definition size (m : list (K * V)) : nat := length m.
End jmap.
End JMap.

(** ** JavaScript values read as conditions *)

Module JS.

(** Truthiness of a string: only the empty string is falsy. *)
Definition truthy (x : string) : bool := negb (String.eqb x EmptyString).

(** What an object made by [{}] answers for a key it has no property of its
    own for: the properties of [Object.prototype].  Each is a function,
    given here by its [length], but for [__proto__], whose value is
    [Object.prototype] itself and has no [length].  All of these values are
    truthy, none has a [push], and none can be iterated over. *)
Definition Object_prototype (key : string) : option (option nat) :=
  JMap.get key
    [ ("constructor", Some 1); ("hasOwnProperty", Some 1); ("isPrototypeOf", Some 1);
      ("propertyIsEnumerable", Some 1); ("toLocaleString", Some 0); ("toString", Some 0);
      ("valueOf", Some 0); ("__defineGetter__", Some 2); ("__defineSetter__", Some 2);
      ("__lookupGetter__", Some 1); ("__lookupSetter__", Some 1); ("__proto__", None) ].

End JS.

(** ** Signalling payloads exchanged by the clients through the server *)

Module Wire.

Inductive SdpType := Offer | Answer | Pranswer | Rollback.

Global Instance SdpType_eq_dec : EqDecision SdpType.
Proof. solve_decision. Defined.

(** [RTCSessionDescriptionInit]: [{ type, sdp }]. *)
Record SessionDescription := mkDescription {
  sd_type : SdpType;
  sd_sdp : string;
}.

Global Instance SessionDescription_eq_dec : EqDecision SessionDescription.
Proof. solve_decision. Defined.

(** [RTCIceCandidateInit]: [{ candidate, sdpMid, sdpMLineIndex }]. *)
Record IceCandidate := mkCandidate {
  candidate : string;
  sdpMid : option string;
  sdpMLineIndex : option nat;
}.

Global Instance IceCandidate_eq_dec : EqDecision IceCandidate.
Proof. solve_decision. Defined.

(** A signal carries either a session description (it has a [type] field)
    or an ICE candidate (it has a [candidate] field). *)
Inductive Signal :=
| Description (d : SessionDescription)
| Candidate (c : IceCandidate).

Global Instance Signal_eq_dec : EqDecision Signal.
Proof. solve_decision. Defined.

End Wire.

(** ** The server (socket handlers of the signalling service) *)

Module Server.
Import JS.

Abbreviation RoomId := string (only parsing).
Abbreviation UserId := string (only parsing).
Abbreviation SocketId := string (only parsing).

(** The value stored per user in a room: [{ socketId, nickname }]. *)
Record Participant := mkParticipant {
  socketId : SocketId;
  nickname : string;
}.

Global Instance Participant_eq_dec : EqDecision Participant.
Proof. solve_decision. Defined.

(** One member of a room as the handlers list it: [{ userId, socketId, nickname }]. *)
Record Member := mkMember {
  m_userId : UserId;
  m_socketId : SocketId;
  m_nickname : string;
}.

(** What the server sends. *)
Inductive Payload :=
| ExistingParticipants (ps : list Member)
| UserJoined (u : UserId) (s : SocketId) (nick : string)
| UserRejoined (u : UserId) (s : SocketId) (nick : string)
| UserLeft (u : UserId)
| ParticipantCount (n : nat)
| SignalMsg (from : UserId) (signal : Wire.Signal)
| ReceiveMessage (id senderId senderNickname content : string) (timestamp : Z).

(** How an event is addressed: [socket.emit], [socket.to(room).emit] (the
    room without the emitting socket) and [io.to(name).emit]. *)
Inductive Target :=
| SocketEmit (s : SocketId)
| SocketTo (s : SocketId) (room : string)
| IoTo (name : string).

Definition Emission : Type := Target * Payload.

(** [rooms] and [userSocketMap] are the two module-level maps; [groups] is
    the delivery group socket.io keeps per room name, which the handlers
    change through [socket.join] and [socket.leave]. *)
Record Registry := mkRegistry {
  rooms : list (RoomId * list (UserId * Participant));
  userSocketMap : gmap UserId SocketId;
  groups : gmap string (gset SocketId);
}.

Definition initial : Registry := mkRegistry [] ∅ ∅.

Definition group_of (g : gmap string (gset SocketId)) (room : string) : gset SocketId :=
  default ∅ (g !! room).

Definition socket_join (s : SocketId) (room : string)
    (g : gmap string (gset SocketId)) : gmap string (gset SocketId) :=
  <[room := {[s]} ∪ group_of g room]> g.

Definition socket_leave (s : SocketId) (room : string)
    (g : gmap string (gset SocketId)) : gmap string (gset SocketId) :=
  <[room := group_of g room ∖ {[s]}]> g.

(** The sockets an emission reaches (socket.io's broadcast rules). *)
Definition recipients (g : gmap string (gset SocketId)) (t : Target) : gset SocketId :=
  match t with
  | SocketEmit s => {[s]}
  | SocketTo s room => group_of g room ∖ {[s]}
  | IoTo name => group_of g name
  end.

Definition members_of (ps : list (UserId * Participant)) : list Member :=
  map (λ p, mkMember p.1 (socketId p.2) (nickname p.2)) ps.

Definition room_or_empty (roomId : RoomId)
    (rs : list (RoomId * list (UserId * Participant))) : list (UserId * Participant) :=
  default [] (JMap.get roomId rs).

(** [socket.on('join-room', ...)] on socket [s]. *)
Definition join_room (s : SocketId) (roomId : RoomId) (userId : UserId)
    (nick : string) (st : Registry) : Registry * list Emission :=
  let '(isRejoin, rooms1) :=
    match JMap.get roomId (rooms st) with
    | Some existingParticipants =>
        match JMap.get userId existingParticipants with
        | Some _ =>
            (true, JMap.set roomId (JMap.delete userId existingParticipants) (rooms st))
        | None => (false, rooms st)
        end
    | None => (false, rooms st)
    end in
  let groups1 := socket_join s roomId (groups st) in
  let usm1 := <[userId := s]> (userSocketMap st) in
  let rooms2 := if JMap.has roomId rooms1 then rooms1 else JMap.set roomId [] rooms1 in
  let rooms3 :=
    JMap.set roomId
      (JMap.set userId (mkParticipant s nick) (room_or_empty roomId rooms2)) rooms2 in
  let participants := members_of (room_or_empty roomId rooms3) in
  (mkRegistry rooms3 usm1 groups1,
   [ (SocketEmit s, ExistingParticipants participants);
     (SocketTo s roomId,
      if isRejoin : bool then UserRejoined userId s nick else UserJoined userId s nick);
     (IoTo roomId, ParticipantCount (JMap.size (room_or_empty roomId rooms3))) ]).

(** The room part of [leave-room]: delete the user, then drop the room when
    it has become empty, else announce the new count. *)
Definition leave_rooms (roomId : RoomId) (userId : UserId)
    (rs : list (RoomId * list (UserId * Participant)))
    : list (RoomId * list (UserId * Participant)) * list Emission :=
  match JMap.get roomId rs with
  | Some participants =>
      let participants' := JMap.delete userId participants in
      let rs' := JMap.set roomId participants' rs in
      if decide (JMap.size participants' = 0) then (JMap.delete roomId rs', [])
      else (rs', [(IoTo roomId, ParticipantCount (JMap.size participants'))])
  | None => (rs, [])
  end.

(** [[...userSocketMap.entries()].filter(([, sid]) => sid === socket.id)
      .forEach(([uid]) => userSocketMap.delete(uid))] *)
Definition forget_socket (s : SocketId) (usm : gmap UserId SocketId) : gmap UserId SocketId :=
  filter (λ e, e.2 ≠ s) usm.

(** [socket.on('leave-room', ...)] on socket [s]. *)
Definition leave_room (s : SocketId) (roomId : RoomId) (userId : UserId)
    (st : Registry) : Registry * list Emission :=
  let '(rooms1, ev) := leave_rooms roomId userId (rooms st) in
  (mkRegistry rooms1 (forget_socket s (userSocketMap st)) (socket_leave s roomId (groups st)),
   ev ++ [(SocketTo s roomId, UserLeft userId)]).

(** [socket.on('chat-message', ...)] on socket [s]. *)
Definition chat_message (s : SocketId) (roomId : RoomId)
    (id senderId senderNickname content : string) (timestamp : Z)
    (st : Registry) : Registry * list Emission :=
  (st, [(SocketTo s roomId, ReceiveMessage id senderId senderNickname content timestamp)]).

(** The two [console.warn] lines of the signal handler. *)
Inductive Warning :=
| UnknownOrigin (from : UserId)
| TargetNotFound (to : UserId).

(** The scan [for (const [roomId, participants] of rooms.entries())] that
    looks for [fromUserId] in some room. *)
Definition isValidUser (fromUserId : UserId)
    (rs : list (RoomId * list (UserId * Participant))) : bool :=
  existsb (λ r, JMap.has fromUserId r.2) rs.

(** [socket.on('signal', ...)]: the state is only read; the result is the
    emissions and the warnings written to the console. *)
Definition signal (to from : UserId) (sig : Wire.Signal) (st : Registry)
    : Registry * list Emission * list Warning :=
  match userSocketMap st !! to with
  | Some targetSocketId =>
      if truthy targetSocketId
      then (st, [(IoTo targetSocketId, SignalMsg from sig)],
            if isValidUser from (rooms st) then [] else [UnknownOrigin from])
      else (st, [], [TargetNotFound to])
  | None => (st, [], [TargetNotFound to])
  end.

(** One visit of the inner [participants.forEach] of the disconnect
    handler, at the entry [(userId, data)] of room [roomId].  The entry is
    deleted from the room's own map, which [rooms] still holds: a room
    leaves [rooms] only with its last entry, so with unique keys the case
    in which the room is no longer there is never met. *)
Definition disconnect_visit (s : SocketId) (roomId : RoomId)
    (acc : list (RoomId * list (UserId * Participant)) * list Emission)
    (entry : UserId * Participant)
    : list (RoomId * list (UserId * Participant)) * list Emission :=
  if decide (socketId entry.2 = s) then
    match JMap.get roomId acc.1 with
    | Some participants =>
        let participants' := JMap.delete entry.1 participants in
        let rs' := JMap.set roomId participants' acc.1 in
        let left := (SocketTo s roomId, UserLeft entry.1) in
        if decide (JMap.size participants' = 0)
        then (JMap.delete roomId rs', acc.2 ++ [left])
        else (rs', acc.2 ++ [left; (IoTo roomId, ParticipantCount (JMap.size participants'))])
    | None => (acc.1, acc.2 ++ [(SocketTo s roomId, UserLeft entry.1)])
    end
  else acc.

(** The sweep [rooms.forEach(... participants.forEach(...))].  Only the
    entry being visited is ever deleted, so the live iteration visits the
    entries the maps held when the sweep began, in order. *)
Definition disconnect_sweep (s : SocketId)
    (rs : list (RoomId * list (UserId * Participant)))
    : list (RoomId * list (UserId * Participant)) * list Emission :=
  fold_left
    (λ acc room, fold_left (disconnect_visit s room.1) room.2 acc)
    rs (rs, []).

(** socket.io takes a closing socket out of every delivery group before
    the handler runs. *)
Definition drop_socket (s : SocketId)
    (g : gmap string (gset SocketId)) : gmap string (gset SocketId) :=
  (λ grp, grp ∖ {[s]}) <$> g.

(** [socket.on('disconnect', ...)] on socket [s]. *)
Definition disconnect (s : SocketId) (st : Registry) : Registry * list Emission :=
  let '(rooms1, ev) := disconnect_sweep s (rooms st) in
  (mkRegistry rooms1 (forget_socket s (userSocketMap st)) (drop_socket s (groups st)), ev).

(** [socket.on('request-participants', ...)] on socket [s]. *)
Definition request_participants (s : SocketId) (roomId : RoomId)
    (st : Registry) : Registry * list Emission :=
  match JMap.get roomId (rooms st) with
  | Some participants => (st, [(SocketEmit s, ExistingParticipants (members_of participants))])
  | None => (st, [(SocketEmit s, ExistingParticipants [])])
  end.

(** Registry operations and their runs. *)
Inductive Op :=
| Join (s : SocketId) (roomId : RoomId) (userId : UserId) (nick : string)
| Leave (s : SocketId) (roomId : RoomId) (userId : UserId)
| Disconnect (s : SocketId).

Definition step (st : Registry) (o : Op) : Registry :=
  match o with
  | Join s r u n => (join_room s r u n st).1
  | Leave s r u => (leave_room s r u st).1
  | Disconnect s => (disconnect s st).1
  end.

Definition run (ops : list Op) (st : Registry) : Registry := fold_left step ops st.

(** *** Notions used to state the registry properties *)

(** The entry of user [u] in room [r], if any. *)
Definition member (rs : list (RoomId * list (UserId * Participant)))
    (r : RoomId) (u : UserId) : option Participant :=
  JMap.get r rs ≫= JMap.get u.

Definition no_empty_room (st : Registry) : Prop :=
  Forall (λ room, room.2 ≠ []) (rooms st).

Definition unique_users (st : Registry) : Prop :=
  Forall (λ room, NoDup (room.2).*1) (rooms st).

(** The global index agrees with every member entry, and holds nothing for
    a user who is in no room. *)
Definition index_consistent (st : Registry) : Prop :=
  (∀ r ps u p, (r, ps) ∈ rooms st → (u, p) ∈ ps →
     userSocketMap st !! u = Some (socketId p)) ∧
  (∀ u, (∀ r ps, (r, ps) ∈ rooms st → u ∉ ps.*1) → userSocketMap st !! u = None).

Definition registry_invariant (st : Registry) : Prop :=
  no_empty_room st ∧ unique_users st ∧ index_consistent st.

(** The [(room, user)] pairs whose member entry is pinned to socket [s], in
    the order of the maps. *)
Definition pinned (s : SocketId)
    (rs : list (RoomId * list (UserId * Participant))) : list (RoomId * UserId) :=
  flat_map
    (λ room, map (λ e, (room.1, e.1)) (filter (λ e, socketId e.2 = s) room.2)) rs.

Definition leave_all (s : SocketId) (pairs : list (RoomId * UserId)) (st : Registry) : Registry :=
  fold_left (λ acc p, (leave_room s p.1 p.2 acc).1) pairs st.

(** A request the registry's single global index can follow: a join comes
    over the socket the user already has in every other room it is in; a
    leave comes over the socket of the entry it removes, and that socket
    serves no other entry. *)
Definition op_ok (st : Registry) (o : Op) : bool :=
  match o with
  | Join s r u _ =>
      forallb (λ room,
        bool_decide (room.1 = r) ||
        match JMap.get u room.2 with
        | Some p => bool_decide (socketId p = s)
        | None => true
        end) (rooms st)
  | Leave s r u =>
      forallb (λ room,
        forallb (λ e,
          bool_decide (socketId e.2 ≠ s) ||
          (bool_decide (room.1 = r) && bool_decide (e.1 = u))) room.2) (rooms st)
      && match member (rooms st) r u with
         | Some p => bool_decide (socketId p = s)
         | None => true
         end
  | Disconnect _ => true
  end.

Fixpoint disciplined (ops : list Op) (st : Registry) : bool :=
  match ops with
  | [] => true
  | o :: ops' => op_ok st o && disciplined ops' (step st o)
  end.

(** The same index property read through lookups. *)
Definition index_ok (st : Registry) : Prop :=
  (∀ r u p, member (rooms st) r u = Some p →
     userSocketMap st !! u = Some (socketId p)) ∧
  (∀ u s, userSocketMap st !! u = Some s → ∃ r p, member (rooms st) r u = Some p).

Definition rooms_ok (rs : list (RoomId * list (UserId * Participant))) : Prop :=
  NoDup rs.*1 ∧ Forall (λ room, NoDup (room.2).*1) rs ∧ Forall (λ room, room.2 ≠ []) rs.

Definition leave_fold (pairs : list (RoomId * UserId))
    (rs : list (RoomId * list (UserId * Participant)))
    : list (RoomId * list (UserId * Participant)) :=
  fold_left (λ acc p, (leave_rooms p.1 p.2 acc).1) pairs rs.

(** *** The properties as they are stated, for comparison with the code *)

(** Disconnecting [s] compared with leaving every pair pinned to [s]. *)
Definition disconnect_is_leaves (s : SocketId) (st : Registry) : Prop :=
  rooms (disconnect s st).1 = rooms (leave_all s (pinned s (rooms st)) st) ∧
  userSocketMap (disconnect s st).1 =
    userSocketMap (leave_all s (pinned s (rooms st)) st).

Definition is_rejoined (e : Emission) : bool :=
  match e.2 with UserRejoined _ _ _ => true | _ => false end.

Definition is_joined (e : Emission) : bool :=
  match e.2 with UserJoined _ _ _ => true | _ => false end.

(** An entry overwritten where it sits in the ordered map. *)
Definition replace_in_place (u : UserId) (p : Participant)
    (ps : list (UserId * Participant)) : list (UserId * Participant) :=
  map (λ e, if decide (e.1 = u) then (u, p) else e) ps.

Definition rejoin_in_place (s2 : SocketId) (r : RoomId) (u : UserId) (n : string)
    (st : Registry) : Prop :=
  ∀ ps old, JMap.get r (rooms st) = Some ps → JMap.get u ps = Some old →
    socketId old ≠ s2 →
    filter is_rejoined (join_room s2 r u n st).2 = [(SocketTo s2 r, UserRejoined u s2 n)] ∧
    filter is_joined (join_room s2 r u n st).2 = [] ∧
    JMap.get r (rooms (join_room s2 r u n st).1) =
      Some (replace_in_place u (mkParticipant s2 n) ps).

Definition leave_absent_is_noop (s : SocketId) (r : RoomId) (u : UserId)
    (st : Registry) : Prop :=
  member (rooms st) r u = None →
  rooms (leave_room s r u st).1 = rooms st ∧
  userSocketMap (leave_room s r u st).1 = userSocketMap st ∧
  (leave_room s r u st).2 = [].

End Server.

(** ** Media tracks and streams (what the client keeps of them) *)

Module Media.

Inductive TrackKind := Audio | Video.

Global Instance TrackKind_eq_dec : EqDecision TrackKind.
Proof. solve_decision. Defined.

(** The part of [MediaTrackSettings] the client reads. *)
Record TrackSettings := mkSettings {
  displaySurface : option string;
  width : option N;
  height : option N;
}.

Global Instance TrackSettings_eq_dec : EqDecision TrackSettings.
Proof. solve_decision. Defined.

Record Track := mkTrack {
  track_id : string;
  kind : TrackKind;
  label : string;
  enabled : bool;
  settings : TrackSettings;
}.

Global Instance Track_eq_dec : EqDecision Track.
Proof. solve_decision. Defined.

(** A [MediaStream] is the ordered set of its tracks. *)
Abbreviation MediaStream := (list Track) (only parsing).

End Media.

(** ** The client: [WebRTCService] *)

Module Client.
Import Wire Media.

Abbreviation UserId := string (only parsing).

Inductive SignalingState :=
| Stable | HaveLocalOffer | HaveRemoteOffer | HaveLocalPranswer | HaveRemotePranswer | Closed.

Global Instance SignalingState_eq_dec : EqDecision SignalingState.
Proof. solve_decision. Defined.

(** What the client reads of an [RTCPeerConnection]; [pc_id] stands for the
    identity of the object. *)
Record RTCPeerConnection := mkPC {
  pc_id : nat;
  signalingState : SignalingState;
  pendingLocalDescription : option SessionDescription;
  currentLocalDescription : option SessionDescription;
  pendingRemoteDescription : option SessionDescription;
  currentRemoteDescription : option SessionDescription;
  remoteCandidates : list IceCandidate;
  senders : list Track;
}.

(** The [remoteDescription] and [localDescription] getters. *)
Definition remoteDescription (pc : RTCPeerConnection) : option SessionDescription :=
  match pendingRemoteDescription pc with
  | Some d => Some d
  | None => currentRemoteDescription pc
  end.

Definition localDescription (pc : RTCPeerConnection) : option SessionDescription :=
  match pendingLocalDescription pc with
  | Some d => Some d
  | None => currentLocalDescription pc
  end.

(** [new RTCPeerConnection(configuration)] *)
Definition new_connection (id : nat) : RTCPeerConnection :=
  mkPC id Stable None None None None [] [].

Definition with_senders (ts : list Track) (pc : RTCPeerConnection) : RTCPeerConnection :=
  mkPC (pc_id pc) (signalingState pc) (pendingLocalDescription pc)
       (currentLocalDescription pc) (pendingRemoteDescription pc)
       (currentRemoteDescription pc) (remoteCandidates pc) ts.

(** The browser's side of a connection.  Each operation either resolves,
    giving the connection as it is when the promise settles, or rejects
    ([None]).  [createOffer] and [createAnswer] also give the produced
    description.  A handler is run to its end before the next one starts;
    what happens to a connection while one of its operations is awaited is
    part of the connection that operation settles with. *)
Record Engine := mkEngine {
  createOffer : RTCPeerConnection → bool → option (SessionDescription * RTCPeerConnection);
  createAnswer : RTCPeerConnection → option (SessionDescription * RTCPeerConnection);
  setLocalDescription : RTCPeerConnection → SessionDescription → option RTCPeerConnection;
  setRemoteDescription : RTCPeerConnection → SessionDescription → option RTCPeerConnection;
  addIceCandidate : RTCPeerConnection → IceCandidate → option RTCPeerConnection;
}.

(** [interface PeerConnection { connection; stream }] *)
Record PeerConnection := mkPeer {
  connection : RTCPeerConnection;
  stream : MediaStream;
}.

(** Calls made on a peer's connection and on the socket, in order.  A
    [CallSetLocalDescription] notes the signalling state the connection was
    in when the call was made. *)
Inductive Call :=
| CallCreateOffer (u : UserId) (iceRestart : bool)
| CallCreateAnswer (u : UserId)
| CallSetLocalDescription (u : UserId) (ty : SdpType) (at_state : SignalingState)
| CallSetRemoteDescription (u : UserId) (d : SessionDescription)
| CallAddIceCandidate (u : UserId) (c : IceCandidate)
| CallClose (u : UserId) (id : nat)
| EmitSignal (to from : UserId) (sig : Signal).

Global Instance Call_eq_dec : EqDecision Call.
Proof. solve_decision. Defined.

(** The fields of [WebRTCService]; [nextId] numbers the connection objects
    and [calls] is the trace of calls made so far. *)
Record State := mkState {
  peerConnections : gmap UserId PeerConnection;
  localStream : option MediaStream;
  nicknameMap : gmap UserId string;
  pendingConnections : gset UserId;
  hasSocket : bool;
  makingOffer : gmap UserId bool;
  ignoreOffer : gmap UserId bool;
  connectionCreationTime : list (UserId * Z);
  pendingIce : gmap UserId (list IceCandidate);
  lastTrackAddTime : gmap UserId Z;
  nextId : nat;
  calls : list Call;
}.

Definition MAX_PEER_CONNECTIONS : nat := 10.

Definition set_peerConnections (f : gmap UserId PeerConnection → gmap UserId PeerConnection)
    (st : State) : State :=
  mkState (f (peerConnections st)) (localStream st) (nicknameMap st) (pendingConnections st)
    (hasSocket st) (makingOffer st) (ignoreOffer st) (connectionCreationTime st)
    (pendingIce st) (lastTrackAddTime st) (nextId st) (calls st).

Definition set_pendingConnections (f : gset UserId → gset UserId) (st : State) : State :=
  mkState (peerConnections st) (localStream st) (nicknameMap st) (f (pendingConnections st))
    (hasSocket st) (makingOffer st) (ignoreOffer st) (connectionCreationTime st)
    (pendingIce st) (lastTrackAddTime st) (nextId st) (calls st).

Definition set_makingOffer (f : gmap UserId bool → gmap UserId bool) (st : State) : State :=
  mkState (peerConnections st) (localStream st) (nicknameMap st) (pendingConnections st)
    (hasSocket st) (f (makingOffer st)) (ignoreOffer st) (connectionCreationTime st)
    (pendingIce st) (lastTrackAddTime st) (nextId st) (calls st).

Definition set_ignoreOffer (f : gmap UserId bool → gmap UserId bool) (st : State) : State :=
  mkState (peerConnections st) (localStream st) (nicknameMap st) (pendingConnections st)
    (hasSocket st) (makingOffer st) (f (ignoreOffer st)) (connectionCreationTime st)
    (pendingIce st) (lastTrackAddTime st) (nextId st) (calls st).

Definition set_connectionCreationTime (f : list (UserId * Z) → list (UserId * Z))
    (st : State) : State :=
  mkState (peerConnections st) (localStream st) (nicknameMap st) (pendingConnections st)
    (hasSocket st) (makingOffer st) (ignoreOffer st) (f (connectionCreationTime st))
    (pendingIce st) (lastTrackAddTime st) (nextId st) (calls st).

Definition set_pendingIce
    (f : gmap UserId (list IceCandidate) → gmap UserId (list IceCandidate))
    (st : State) : State :=
  mkState (peerConnections st) (localStream st) (nicknameMap st) (pendingConnections st)
    (hasSocket st) (makingOffer st) (ignoreOffer st) (connectionCreationTime st)
    (f (pendingIce st)) (lastTrackAddTime st) (nextId st) (calls st).

Definition set_lastTrackAddTime (f : gmap UserId Z → gmap UserId Z) (st : State) : State :=
  mkState (peerConnections st) (localStream st) (nicknameMap st) (pendingConnections st)
    (hasSocket st) (makingOffer st) (ignoreOffer st) (connectionCreationTime st)
    (pendingIce st) (f (lastTrackAddTime st)) (nextId st) (calls st).

Definition set_nextId (f : nat → nat) (st : State) : State :=
  mkState (peerConnections st) (localStream st) (nicknameMap st) (pendingConnections st)
    (hasSocket st) (makingOffer st) (ignoreOffer st) (connectionCreationTime st)
    (pendingIce st) (lastTrackAddTime st) (f (nextId st)) (calls st).

Definition set_calls (f : list Call → list Call) (st : State) : State :=
  mkState (peerConnections st) (localStream st) (nicknameMap st) (pendingConnections st)
    (hasSocket st) (makingOffer st) (ignoreOffer st) (connectionCreationTime st)
    (pendingIce st) (lastTrackAddTime st) (nextId st) (f (calls st)).

(** *** Running a method: state, and an exception or a value

    A method throws its own error for a missing local stream, the rejection
    of a browser operation, or the [TypeError] of the language for a call
    of something that is no function and for a loop over something that
    cannot be iterated. *)

Inductive Exn :=
| LocalStreamNotInitialized (u : UserId)
| EngineError
| TypeError.

Definition Run (A : Type) : Type := State → (Exn + A) * State.

Global Instance Run_ret : MRet Run := λ A a st, (inr a, st).

Global Instance Run_bind : MBind Run := λ A B k m st,
  match m st with
  | (inl e, st') => (inl e, st')
  | (inr a, st') => k a st'
  end.

Definition throw {A} (e : Exn) : Run A := λ st, (inl e, st).

(** [try { m } catch (e) { h e }] *)
Definition try_catch {A} (m : Run A) (h : Exn → Run A) : Run A := λ st,
  match m st with
  | (inl e, st') => h e st'
  | (inr a, st') => (inr a, st')
  end.

(** [try { m } finally { f }] *)
Definition try_finally {A} (m : Run A) (f : Run unit) : Run A := λ st,
  match m st with
  | (r, st') =>
      match f st' with
      | (inl e, st'') => (inl e, st'')
      | (inr _, st'') => (r, st'')
      end
  end.

Definition gets {A} (f : State → A) : Run A := λ st, (inr (f st), st).

Definition modify (f : State → State) : Run unit := λ st, (inr tt, f st).

Definition record (c : Call) : Run unit := modify (set_calls (λ cs, cs ++ [c])).

(** [await] of an engine operation on the connection of peer [u]: the
    connection in the table is replaced by the one the promise settles
    with; a rejection is thrown. *)
Definition put_connection (u : UserId) (pc : RTCPeerConnection) : Run unit :=
  modify (set_peerConnections (λ m,
    match m !! u with
    | Some peer => <[u := mkPeer pc (stream peer)]> m
    | None => m
    end)).

Definition settle (u : UserId) (r : option RTCPeerConnection) : Run unit :=
  match r with
  | Some pc => put_connection u pc
  | None => throw EngineError
  end.

Definition settle_with {A} (u : UserId) (r : option (A * RTCPeerConnection)) : Run A :=
  match r with
  | Some (a, pc) => put_connection u pc;; mret a
  | None => throw EngineError
  end.

(** [this.makingOffer.get(u)] read as a condition. *)
Definition isMakingOffer (u : UserId) (st : State) : bool :=
  default false (makingOffer st !! u).

(** [pendingIce] is a plain object ([= {}]), so [this.pendingIce[u]] is the
    queue stored under [u] when there is one and else what the object
    inherits: this is the inherited value, if [u] has no queue of its own
    and names a property of [Object.prototype]. *)
Definition inheritedSlot (u : UserId) (st : State) : option (option nat) :=
  match pendingIce st !! u with
  | Some _ => None
  | None => JS.Object_prototype u
  end.

Section methods.
Context (E : Engine).
(** [socketService.getUserId()] *)
Context (myUserId : UserId).
(** [Date.now()] *)
Context (now : Z).

(** [sendSignal(to, signal)] *)
Definition sendSignal (to : UserId) (sig : Signal) : Run unit :=
  has ← gets hasSocket;
  if has : bool then record (EmitSignal to myUserId sig) else mret tt.

(** [removePeerConnection(userId)] *)
Definition removePeerConnection (userId : UserId) : Run unit :=
  peer ← gets (λ st, peerConnections st !! userId);
  match peer with
  | Some p =>
      record (CallClose userId (pc_id (connection p)));;
      modify (set_peerConnections (delete userId));;
      modify (set_connectionCreationTime (JMap.delete userId));;
      modify (set_makingOffer (delete userId));;
      modify (set_ignoreOffer (delete userId));;
      modify (set_pendingIce (delete userId))
  | None => mret tt
  end.

(** First entry with the least creation time: what a stable ascending sort
    puts first. *)
Fixpoint oldest (best : UserId * Z) (l : list (UserId * Z)) : UserId :=
  match l with
  | [] => best.1
  | e :: l' => if (e.2 <? best.2)%Z then oldest e l' else oldest best l'
  end.

(** [cleanupOldestConnection()] *)
Definition cleanupOldestConnection : Run unit :=
  n ← gets (λ st, size (peerConnections st));
  if decide (n = 0) then mret tt
  else
    times ← gets connectionCreationTime;
    match times with
    | [] => mret tt
    | e :: l =>
        let oldestUserId := oldest e l in
        removePeerConnection oldestUserId;;
        modify (set_pendingConnections (λ p, p ∪ {[oldestUserId]}))
    end.

(** [createPeerConnection(remoteUserId)], with the table entry that
    [setupTrackListeners] stores. *)
Definition createPeerConnection (remoteUserId : UserId) : Run PeerConnection :=
  existing ← gets (λ st, peerConnections st !! remoteUserId);
  match existing with
  | Some p => mret p
  | None =>
      ls ← gets localStream;
      match ls with
      | None => throw (LocalStreamNotInitialized remoteUserId)
      | Some tracks =>
          n ← gets (λ st, size (peerConnections st));
          (if decide (MAX_PEER_CONNECTIONS ≤ n)%nat then cleanupOldestConnection else mret tt);;
          id ← gets nextId;
          modify (set_nextId S);;
          modify (set_connectionCreationTime (JMap.set remoteUserId now));;
          modify (set_peerConnections (<[remoteUserId := mkPeer (new_connection id) []]>));;
          (match tracks with
           | [] => mret tt
           | _ :: _ => modify (set_lastTrackAddTime (<[remoteUserId := now]>))
           end);;
          let obj := mkPeer (with_senders tracks (new_connection id)) [] in
          modify (set_peerConnections (<[remoteUserId := obj]>));;
          mret obj
      end
  end.

(** The connection of peer [u] as the table has it. *)
Definition the_connection (u : UserId) : Run RTCPeerConnection :=
  peer ← gets (λ st, peerConnections st !! u);
  match peer with
  | Some p => mret (connection p)
  | None => throw EngineError
  end.

Definition doCreateOffer (u : UserId) (iceRestart : bool) : Run SessionDescription :=
  pc ← the_connection u;
  record (CallCreateOffer u iceRestart);;
  settle_with u (createOffer E pc iceRestart).

Definition doCreateAnswer (u : UserId) : Run SessionDescription :=
  pc ← the_connection u;
  record (CallCreateAnswer u);;
  settle_with u (createAnswer E pc).

Definition doSetLocalDescription (u : UserId) (d : SessionDescription) : Run unit :=
  pc ← the_connection u;
  record (CallSetLocalDescription u (sd_type d) (signalingState pc));;
  settle u (setLocalDescription E pc d).

Definition doSetRemoteDescription (u : UserId) (d : SessionDescription) : Run unit :=
  pc ← the_connection u;
  record (CallSetRemoteDescription u d);;
  settle u (setRemoteDescription E pc d).

Definition doAddIceCandidate (u : UserId) (c : IceCandidate) : Run unit :=
  pc ← the_connection u;
  record (CallAddIceCandidate u c);;
  settle u (addIceCandidate E pc c).

(** [for (const candidate of this.pendingIce[userId]) await
    pc.addIceCandidate(...)], then [delete this.pendingIce[userId]], when
    [this.pendingIce[userId]?.length] is truthy: a queue that is not empty,
    or an inherited function with parameters ([constructor],
    [hasOwnProperty], ...), and the loop over that throws.  An inherited
    function without parameters ([toString], [valueOf]) and [__proto__]
    have a falsy [length], as an empty or missing queue has. *)
Fixpoint addAll (u : UserId) (cs : list IceCandidate) : Run unit :=
  match cs with
  | [] => mret tt
  | c :: cs' => doAddIceCandidate u c;; addAll u cs'
  end.

Definition drainPendingIce (u : UserId) : Run unit :=
  q ← gets (λ st, pendingIce st !! u);
  match q with
  | Some (c :: cs) => addAll u (c :: cs);; modify (set_pendingIce (delete u))
  | Some [] => mret tt
  | None =>
      match JS.Object_prototype u with
      | Some (Some (S _)) => throw TypeError
      | _ => mret tt
      end
  end.

Definition rollback : SessionDescription := mkDescription Rollback EmptyString.

(** What the offer branch does once it has a connection for the offer. *)
Definition applyOffer (userId : UserId) (d : SessionDescription) : Run unit :=
  doSetRemoteDescription userId d;;
  drainPendingIce userId;;
  answer ← doCreateAnswer userId;
  doSetLocalDescription userId answer;;
  sendSignal userId (Description answer).

(** The branch of the signal handler for an offer. *)
Definition onOffer (userId : UserId) (d : SessionDescription)
    (existingPeer : option PeerConnection) (isPolite : bool) : Run unit :=
  making ← gets (isMakingOffer userId);
  let offerCollision :=
    match existingPeer with
    | Some p => making || bool_decide (signalingState (connection p) ≠ Stable)
    | None => false
    end in
  if offerCollision && negb isPolite then
    if making then mret tt
    else
      try_finally
        (try_catch
           (modify (set_makingOffer (<[userId := true]>));;
            myOffer ← doCreateOffer userId false;
            doSetLocalDescription userId myOffer;;
            sendSignal userId (Description myOffer))
           (λ _, mret tt))
        (modify (set_makingOffer (<[userId := false]>)))
  else
    match existingPeer with
    | None =>
        created ← try_catch (createPeerConnection userId;; mret true) (λ _, mret false);
        if created : bool then applyOffer userId d else mret tt
    | Some p =>
        (if bool_decide (signalingState (connection p) ≠ Stable)
         then (if isPolite then doSetLocalDescription userId rollback else mret tt)
         else mret tt);;
        applyOffer userId d
    end.

(** The branch of the signal handler for an answer. *)
Definition onAnswer (userId : UserId) (d : SessionDescription)
    (existingPeer : option PeerConnection) : Run unit :=
  match existingPeer with
  | None => mret tt
  | Some p =>
      if decide (signalingState (connection p) = HaveLocalOffer) then
        doSetRemoteDescription userId d;;
        drainPendingIce userId;;
        modify (set_makingOffer (<[userId := false]>))
      else mret tt
  end.

(** The branch of the signal handler for an ICE candidate.  In
    [(this.pendingIce[userId] ||= []).push(signal)] an inherited value is
    truthy, so nothing is assigned, and the call of its [push] throws. *)
Definition onCandidate (userId : UserId) (c : IceCandidate)
    (existingPeer : option PeerConnection) : Run unit :=
  match existingPeer ≫= (λ p, remoteDescription (connection p)) with
  | None =>
      inherited ← gets (inheritedSlot userId);
      match inherited with
      | Some _ => throw TypeError
      | None =>
          modify (set_pendingIce (λ m, <[userId := default [] (m !! userId) ++ [c]]> m))
      end
  | Some _ =>
      try_catch (doAddIceCandidate userId c) (λ _, mret tt)
  end.

(** The [try] block of [secureSocket.on('signal', ...)].  The comparison
    [myUserId < userId] of the two ids is the lexicographic one. *)
Definition signalBody (from : UserId) (sig : Signal) : Run unit :=
  let userId := from in
  ls ← gets localStream;
  match ls with
  | None => modify (set_pendingConnections (λ p, p ∪ {[userId]}))
  | Some _ =>
      existingPeer ← gets (λ st, peerConnections st !! userId);
      let isPolite := String.ltb myUserId userId in
      match sig with
      | Candidate c => onCandidate userId c existingPeer
      | Description d =>
          match sd_type d with
          | Offer => onOffer userId d existingPeer isPolite
          | Answer => onAnswer userId d existingPeer
          | _ => mret tt
          end
      end
  end.

(** [secureSocket.on('signal', ...)]: the block and its [catch]. *)
Definition onSignal (from : UserId) (sig : Signal) : Run unit :=
  try_catch (signalBody from sig)
    (λ e,
       match e with
       | LocalStreamNotInitialized _ =>
           modify (set_pendingConnections (λ p, p ∪ {[from]}))
       | EngineError | TypeError => mret tt
       end).

(** The offer part shared by [initiateCall] and the negotiation timer:
    the flag is set, the state is looked at before and after
    [createOffer], and the flag is cleared on every way out.  The result
    says whether the block ran on ([true]) or returned from the method
    ([false]). *)
Definition guardedOffer (u : UserId) (viaLocalDescription : bool) : Run bool :=
  try_finally
    (try_catch
       (modify (set_makingOffer (<[u := true]>));;
        pc ← the_connection u;
        if decide (signalingState pc = Stable) then
          offer ← doCreateOffer u false;
          pc' ← the_connection u;
          if decide (signalingState pc' = Stable) then
            doSetLocalDescription u offer;;
            (if viaLocalDescription
             then pc'' ← the_connection u;
                  match localDescription pc'' with
                  | Some d => sendSignal u (Description d)
                  | None => throw EngineError
                  end
             else sendSignal u (Description offer));;
            mret true
          else modify (set_makingOffer (<[u := false]>));; mret false
        else modify (set_makingOffer (<[u := false]>));; mret false)
       (λ _, mret true))
    (modify (set_makingOffer (<[u := false]>))).

(** [initiateCall(userId)]; [None] stands for the bare [return]. *)
Definition initiateCall (userId : UserId) : Run (option PeerConnection) :=
  peerConnection ← createPeerConnection userId;
  let isPolite := String.ltb myUserId userId in
  ran ← (if isPolite then
           making ← gets (isMakingOffer userId);
           if making : bool
           then modify (set_makingOffer (<[userId := false]>));; mret false
           else guardedOffer userId false
         else mret true);
  if ran : bool then
    p ← gets (λ st, peerConnections st !! userId);
    mret (Some (default peerConnection p))
  else mret None.

(** The body the [onnegotiationneeded] handler of peer [remoteUserId] runs
    when its 300 ms timer fires. *)
Definition onNegotiationTimer (remoteUserId : UserId) : Run unit :=
  making ← gets (isMakingOffer remoteUserId);
  if making : bool then mret tt else guardedOffer remoteUserId true;; mret tt.

End methods.

(** The state in which a call [c] on peer [u] has settled with connection
    [pc]. *)
Abbreviation settled u p pc c st :=
  (set_peerConnections (<[u := mkPeer pc (stream p)]>) (set_calls (λ cs, cs ++ [c]) st)).

(** [wp m st Q]: running [m] from [st] ends in a result and a state that
    satisfy [Q]. *)
Definition wp {A} (m : Run A) (st : State) (Q : Exn + A → State → Prop) : Prop :=
  Q (m st).1 (m st).2.

(** *** The properties as they are stated, for comparison with the code *)

(** No offer is given to [setLocalDescription] outside the stable state. *)
Definition offers_only_when_stable (cs : list Call) : Prop :=
  ∀ u st, CallSetLocalDescription u Offer st ∈ cs → st = Stable.





(** *** A reference engine

    The signalling state machine of an [RTCPeerConnection] as JSEP has it;
    it is what the examples run on. *)

Definition jsep_install (s : SignalingState)
    (pl cl pr cr : option SessionDescription) (pc : RTCPeerConnection) : RTCPeerConnection :=
  mkPC (pc_id pc) s pl cl pr cr (remoteCandidates pc) (senders pc).

Definition jsep_setLocal (pc : RTCPeerConnection) (d : SessionDescription)
    : option RTCPeerConnection :=
  match sd_type d, signalingState pc with
  | Offer, Stable | Offer, HaveLocalOffer =>
      Some (jsep_install HaveLocalOffer (Some d) (currentLocalDescription pc)
              (pendingRemoteDescription pc) (currentRemoteDescription pc) pc)
  | Answer, HaveRemoteOffer =>
      Some (jsep_install Stable None (Some d) None (pendingRemoteDescription pc) pc)
  | Rollback, HaveLocalOffer | Rollback, HaveRemoteOffer =>
      Some (jsep_install Stable None (currentLocalDescription pc) None
              (currentRemoteDescription pc) pc)
  | _, _ => None
  end.

Definition jsep_setRemote (pc : RTCPeerConnection) (d : SessionDescription)
    : option RTCPeerConnection :=
  match sd_type d, signalingState pc with
  | Offer, Stable | Offer, HaveRemoteOffer =>
      Some (jsep_install HaveRemoteOffer (pendingLocalDescription pc)
              (currentLocalDescription pc) (Some d) (currentRemoteDescription pc) pc)
  | Offer, HaveLocalOffer =>
      Some (jsep_install HaveRemoteOffer None (currentLocalDescription pc)
              (Some d) (currentRemoteDescription pc) pc)
  | Answer, HaveLocalOffer =>
      Some (jsep_install Stable None (pendingLocalDescription pc) None (Some d) pc)
  | _, _ => None
  end.

Definition jsep_addIce (pc : RTCPeerConnection) (c : IceCandidate)
    : option RTCPeerConnection :=
  match remoteDescription pc with
  | Some _ =>
      Some (mkPC (pc_id pc) (signalingState pc) (pendingLocalDescription pc)
              (currentLocalDescription pc) (pendingRemoteDescription pc)
              (currentRemoteDescription pc) (remoteCandidates pc ++ [c]) (senders pc))
  | None => None
  end.

Definition jsep_createOffer (pc : RTCPeerConnection) (iceRestart : bool)
    : option (SessionDescription * RTCPeerConnection) :=
  if decide (signalingState pc = Closed) then None
  else Some (mkDescription Offer "v=0 offer", pc).

Definition jsep_createAnswer (pc : RTCPeerConnection)
    : option (SessionDescription * RTCPeerConnection) :=
  if decide (signalingState pc = HaveRemoteOffer) then
    Some (mkDescription Answer "v=0 answer", pc)
  else None.

Definition jsep : Engine :=
  mkEngine jsep_createOffer jsep_createAnswer jsep_setLocal jsep_setRemote jsep_addIce.

(** A client that has its socket and an (empty) local stream and nothing
    else. *)
Definition fresh : State :=
  mkState ∅ (Some []) ∅ ∅ true ∅ ∅ [] ∅ ∅ 0 [].

(** The same client before any local stream is set. *)
Definition fresh_no_stream : State :=
  mkState ∅ None ∅ ∅ true ∅ ∅ [] ∅ ∅ 0 [].

End Client.

(** ** The track router: the [ontrack] handler of a peer connection *)

Module TrackRouter.
Import JS Media.

(** [String.prototype.toLowerCase], on the ASCII letters. *)
Definition lower_ascii (a : ascii) : ascii :=
  let n := nat_of_ascii a in
  if (65 <=? n)%nat && (n <=? 90)%nat then ascii_of_nat (n + 32) else a.

Fixpoint toLowerCase (s : string) : string :=
  match s with
  | EmptyString => EmptyString
  | String a s' => String (lower_ascii a) (toLowerCase s')
  end.

(** [s.includes(pat)] *)
Fixpoint includes (pat s : string) : bool :=
  if String.prefix pat s then true
  else match s with
       | EmptyString => false
       | String _ s' => includes pat s'
       end.

(** [label && (label.toLowerCase().includes('screen') || ... )] *)
Definition labelSaysScreen (l : string) : bool :=
  truthy l &&
  (includes "screen" (toLowerCase l) || includes "window" (toLowerCase l) ||
   includes "tab" (toLowerCase l) || includes "display" (toLowerCase l)).

(** The [isScreen] value computed for an incoming track, as a condition. *)
Definition isScreen (t : Track) : bool :=
  labelSaysScreen (label t)
  || match displaySurface (settings t) with Some ds => truthy ds | None => false end
  || (bool_decide (kind t = Video)
      && (1000 <? default 0 (width (settings t)))%N
      && (700 <? default 0 (height (settings t)))%N).

(** [track.enabled = true] *)
Definition enable (t : Track) : Track :=
  mkTrack (track_id t) (kind t) (label t) true (settings t).

(** [stream.removeTrack(t)] and [stream.addTrack(t)]; adding a track the
    stream already has changes nothing. *)
Definition removeTrack (t : Track) (s : list Track) : list Track :=
  filter (λ x, track_id x ≠ track_id t) s.

Definition addTrack (t : Track) (s : list Track) : list Track :=
  if decide (Exists (λ x, track_id x = track_id t) s) then s else s ++ [t].

Definition getVideoTracks (s : list Track) : list Track :=
  filter (λ x, kind x = Video) s.

(** The assignment to [enabled] is seen through the stream when the stream
    already holds the track. *)
Definition enable_in (t : Track) (s : list Track) : list Track :=
  map (λ x, if decide (track_id x = track_id t) then enable x else x) s.

(** [peerConnection.ontrack]: what it does to the remote stream; the branch
    for an event with streams and the branch for a bare track do the same
    to it. *)
Definition ontrack (track : Track) (remoteStream : list Track) : list Track :=
  let remoteStream := enable_in track remoteStream in
  let track := enable track in
  if isScreen track && bool_decide (kind track = Video) then
    let existingScreenTracks :=
      filter (λ t, labelSaysScreen (label t) = true) (getVideoTracks remoteStream) in
    addTrack track (fold_left (λ s t, removeTrack t s) existingScreenTracks remoteStream)
  else
    let existingTrack :=
      find (λ t, bool_decide (kind t = kind track) && negb (labelSaysScreen (label t)))
        remoteStream in
    addTrack track
      match existingTrack with
      | Some t => removeTrack t remoteStream
      | None => remoteStream
      end.

(** *** The property as it is stated, for comparison with the code *)

(** A screen-share video track takes the place of the screen-share tracks the
    stream has, and the audio and camera tracks stay. *)
Definition screen_share_replaces (track : Track) (remoteStream : list Track) : Prop :=
  kind track = Video → isScreen track = true →
  (∀ t, t ∈ remoteStream → kind t = Video → isScreen t = true →
        track_id t ≠ track_id track → t ∉ ontrack track remoteStream) ∧
  enable track ∈ ontrack track remoteStream ∧
  (∀ t, t ∈ remoteStream → kind t = Audio ∨ isScreen t = false →
        track_id t ≠ track_id track → t ∈ ontrack track remoteStream).

(** A screen-share track that arrived with a display surface and no telling
    label, and a second screen-share track. *)
Definition monitor_share : Track :=
  mkTrack "v1" Video "remote video" true (mkSettings (Some "monitor") (Some 1920%N) (Some 1080%N)).

Definition window_share : Track :=
  mkTrack "v2" Video "window:42" false (mkSettings None None None).

End TrackRouter.

(** ** Reading the server's emissions *)

Module Emissions.
Import Server.

(** The [userLeft] events among the emissions. *)
Definition is_left (e : Emission) : bool :=
  match e.2 with UserLeft _ => true | _ => false end.

End Emissions.

(** ** The HTTP surface of the server: the two room listings *)

Module Api.
Import Server.

(** One listed participant: [{ userId, nickname }]. *)
Record ParticipantInfo := mkInfo {
  pi_userId : UserId;
  pi_nickname : string;
}.

(** One listed room: [{ roomId, participants, participantCount }]. *)
Record RoomInfo := mkRoomInfo {
  ri_roomId : RoomId;
  ri_participants : list ParticipantInfo;
  ri_participantCount : nat;
}.

(** [Array.from(participants).map(([userId, data]) => ({ userId, nickname:
    data.nickname }))] *)
Definition listed (ps : list (UserId * Participant)) : list ParticipantInfo :=
  map (λ e, mkInfo e.1 (nickname e.2)) ps.

(** [GET /api/rooms/:roomId]; [None] is the 404 answer. *)
Definition get_room (roomId : RoomId) (st : Registry) : option RoomInfo :=
  match JMap.get roomId (rooms st) with
  | None => None
  | Some ps =>
      let roomParticipants := listed ps in
      Some (mkRoomInfo roomId roomParticipants (length roomParticipants))
  end.

(** [GET /api/rooms]: the rooms and their number. *)
Definition get_rooms (st : Registry) : list RoomInfo * nat :=
  let activeRooms :=
    map (λ room, mkRoomInfo room.1 (listed room.2) (JMap.size room.2)) (rooms st) in
  (activeRooms, length activeRooms).

End Api.

(** ** The client's handlers for the room events, and the ICE restart *)

Module Events.
Import Wire Media Client.

Definition set_localStream (f : option MediaStream → option MediaStream)
    (st : State) : State :=
  mkState (peerConnections st) (f (localStream st)) (nicknameMap st) (pendingConnections st)
    (hasSocket st) (makingOffer st) (ignoreOffer st) (connectionCreationTime st)
    (pendingIce st) (lastTrackAddTime st) (nextId st) (calls st).

Definition set_nicknameMap (f : gmap UserId string → gmap UserId string)
    (st : State) : State :=
  mkState (peerConnections st) (localStream st) (f (nicknameMap st)) (pendingConnections st)
    (hasSocket st) (makingOffer st) (ignoreOffer st) (connectionCreationTime st)
    (pendingIce st) (lastTrackAddTime st) (nextId st) (calls st).

(** The creation times are kept for exactly the users in the peer table. *)
Definition times_track_peers (st : State) : Prop :=
  ∀ u, is_Some (peerConnections st !! u) ↔ u ∈ (connectionCreationTime st).*1.

(** A client that has made connections for ten users, one per tick of the
    clock: its peer table is full. *)
Definition at_capacity : State :=
  fold_left (λ st e, (createPeerConnection e.2 e.1 st).2)
    [ ("p0", 0%Z); ("p1", 1%Z); ("p2", 2%Z); ("p3", 3%Z); ("p4", 4%Z);
      ("p5", 5%Z); ("p6", 6%Z); ("p7", 7%Z); ("p8", 8%Z); ("p9", 9%Z) ] fresh.

Section handlers.
Context (E : Engine).
(** [socketService.getUserId()] and [secureSocket.id] *)
Context (myUserId : UserId) (mySocketId : string).
(** [Date.now()] *)
Context (now : Z).

(** [secureSocket.on('userJoined', ...)]; the dummy stream is
    [new MediaStream()]. *)
Definition onUserJoined (userId : UserId) (socketId nickname : string) : Run unit :=
  if decide (socketId ≠ mySocketId) then
    modify (set_nicknameMap (<[userId := nickname]>));;
    try_catch
      (ls ← gets localStream;
       match ls with
       | Some _ => initiateCall E myUserId now userId;; mret tt
       | None =>
           modify (set_localStream (λ _, Some []));;
           initiateCall E myUserId now userId;;
           modify (set_localStream (λ _, None))
       end)
      (λ _, modify (set_pendingConnections (λ p, p ∪ {[userId]})))
  else mret tt.

(** [secureSocket.on('userLeft', ...)] *)
Definition onUserLeft (userId : UserId) : Run unit :=
  removePeerConnection userId;;
  modify (set_pendingConnections (λ p, p ∖ {[userId]})).

(** [secureSocket.on('userRejoined', ...)] *)
Definition onUserRejoined (userId : UserId) (socketId nickname : string) : Run unit :=
  if decide (socketId ≠ mySocketId) then
    removePeerConnection userId;;
    modify (set_nicknameMap (<[userId := nickname]>));;
    ls ← gets localStream;
    match ls with
    | Some _ =>
        try_catch (initiateCall E myUserId now userId;; mret tt)
          (λ _, modify (set_pendingConnections (λ p, p ∪ {[userId]})))
    | None => modify (set_pendingConnections (λ p, p ∪ {[userId]}))
    end
  else mret tt.

(** [restartIce(userId, peerConnection)]; the connection object is given by
    its identity. *)
Definition restartIce (userId : UserId) (peerConnection : nat) : Run unit :=
  try_catch
    (peer ← gets (λ st, peerConnections st !! userId);
     match peer with
     | None => mret tt
     | Some p =>
         if decide (pc_id (connection p) ≠ peerConnection) then mret tt
         else
           offer ← doCreateOffer E userId true;
           doSetLocalDescription E userId offer;;
           sendSignal myUserId userId (Description offer)
     end)
    (λ _,
       removePeerConnection userId;;
       modify (set_pendingConnections (λ p, p ∪ {[userId]}))).

(** The body of the timer that [restartIce] sets after a failure. *)
Definition onRestartTimer (userId : UserId) : Run unit :=
  pending ← gets (λ st, bool_decide (userId ∈ pendingConnections st));
  if pending : bool then
    modify (set_pendingConnections (λ p, p ∖ {[userId]}));;
    try_catch (initiateCall E myUserId now userId;; mret tt)
      (λ _, modify (set_pendingConnections (λ p, p ∪ {[userId]})))
  else mret tt.

(** One turn of the loop of [secureSocket.on('existing-participants',
    ...)] over the list the server sent; the retry that a failed turn
    schedules is a timer of its own. *)
Definition onExistingParticipant (m : Server.Member) : Run unit :=
  let userId := Server.m_userId m in
  if decide (Server.m_socketId m ≠ mySocketId) then
    modify (set_nicknameMap (<[userId := Server.m_nickname m]>));;
    try_catch
      (ls ← gets localStream;
       match ls with
       | Some _ => initiateCall E myUserId now userId;; mret tt
       | None =>
           modify (set_localStream (λ _, Some []));;
           initiateCall E myUserId now userId;;
           modify (set_localStream (λ _, None))
       end)
      (λ _, modify (set_pendingConnections (λ p, p ∪ {[userId]})))
  else mret tt.

Fixpoint onExistingParticipants (participants : list Server.Member) : Run unit :=
  match participants with
  | [] => mret tt
  | m :: rest => onExistingParticipant m;; onExistingParticipants rest
  end.

End handlers.

End Events.

(** * Properties *)


(** ** Facts about the ordered maps *)

Module JMapFacts.
Import JMap.
Section facts.
Context {K V : Type} `{EqDecision K}.
Implicit Types (k : K) (v : V) (m : list (K * V)).

Lemma get_set k k' v m :
  get k (set k' v m) = if decide (k = k') then Some v else get k m.
Proof.
  induction m as [|[k0 v0] m IH]; simpl.
  - repeat case_decide; congruence.
  - destruct (decide (k0 = k')) as [->|Hne]; simpl.
    + repeat case_decide; congruence.
    + rewrite IH. repeat case_decide; congruence.
Qed.

Lemma get_delete k k' m :
  get k (delete k' m) = if decide (k = k') then None else get k m.
Proof.
  unfold delete. induction m as [|[k0 v0] m IH]; simpl.
  - by case_decide.
  - rewrite filter_cons. simpl. destruct (decide (k0 ≠ k')) as [Hne|Heq]; simpl.
    + rewrite IH. repeat case_decide; congruence.
    + apply dec_stable in Heq. subst k0. rewrite IH.
      repeat case_decide; congruence.
Qed.

Lemma get_Some_elem k v m : get k m = Some v → (k, v) ∈ m.
Proof.
  induction m as [|[k0 v0] m IH]; simpl; [done|].
  case_decide; intros Hg.
  - simplify_eq. apply list_elem_of_here.
  - apply list_elem_of_further. auto.
Qed.

Lemma get_None k m : get k m = None ↔ k ∉ m.*1.
Proof.
  induction m as [|[k0 v0] m IH]; simpl.
  - split; [intros _; apply not_elem_of_nil | done].
  - rewrite not_elem_of_cons. case_decide; simplify_eq.
    + split; [done | intros [? _]; done].
    + rewrite IH. naive_solver.
Qed.

Lemma elem_get k v m : NoDup m.*1 → (k, v) ∈ m → get k m = Some v.
Proof.
  induction m as [|[k0 v0] m IH]; simpl; intros Hnd Hin.
  - by apply elem_of_nil in Hin.
  - apply NoDup_cons in Hnd as [Hfresh Hnd].
    apply elem_of_cons in Hin as [Heq|Hin].
    + simplify_eq. by rewrite decide_True.
    + rewrite decide_False; [by apply IH|].
      intros ->. apply Hfresh. apply list_elem_of_fmap. by exists (k, v).
Qed.

Lemma keys_set k v m k' : k' ∈ (set k v m).*1 ↔ k' = k ∨ k' ∈ m.*1.
Proof.
  induction m as [|[k0 v0] m IH]; simpl.
  - rewrite elem_of_cons. naive_solver.
  - case_decide; simpl; rewrite !elem_of_cons; [naive_solver|].
    rewrite IH. naive_solver.
Qed.

Lemma NoDup_set k v m : NoDup m.*1 → NoDup (set k v m).*1.
Proof.
  induction m as [|[k0 v0] m IH]; simpl; intros Hnd.
  - apply NoDup_singleton.
  - apply NoDup_cons in Hnd as [Hfresh Hnd]. case_decide; simpl.
    + subst. by apply NoDup_cons.
    + apply NoDup_cons. split; [|by apply IH].
      rewrite keys_set. naive_solver.
Qed.

Lemma keys_delete k m k' : k' ∈ (delete k m).*1 ↔ k' ≠ k ∧ k' ∈ m.*1.
Proof.
  unfold delete. rewrite !list_elem_of_fmap. split.
  - intros [[k0 v0] [-> Hin]]. apply list_elem_of_filter in Hin as [Hne Hin].
    split; [done|]. by exists (k0, v0).
  - intros [Hne [[k0 v0] [-> Hin]]]. exists (k0, v0). split; [done|].
    by apply list_elem_of_filter.
Qed.

Lemma NoDup_delete k m : NoDup m.*1 → NoDup (delete k m).*1.
Proof.
  unfold delete. induction m as [|[k0 v0] m IH]; simpl; intros Hnd; [done|].
  apply NoDup_cons in Hnd as [Hfresh Hnd]. rewrite filter_cons.
  case_decide; simpl; [|by apply IH].
  apply NoDup_cons. split; [|by apply IH].
  intros Hin. apply (keys_delete k m k0) in Hin. naive_solver.
Qed.

Lemma Forall_set (P : K * V → Prop) k v m :
  P (k, v) → Forall P m → Forall P (set k v m).
Proof.
  intros Hkv. induction 1 as [|[k0 v0] m Hx Hm IH]; simpl.
  - by apply Forall_singleton.
  - case_decide; by apply Forall_cons.
Qed.

Lemma Forall_delete (P : K * V → Prop) k m :
  Forall P m → Forall P (delete k m).
Proof.
  unfold delete. rewrite !Forall_forall.
  intros HP x [_ Hx]%list_elem_of_filter. auto.
Qed.

Lemma Forall_get (P : K * V → Prop) k v m :
  Forall P m → get k m = Some v → P (k, v).
Proof.
  intros HP Hg. apply get_Some_elem in Hg.
  rewrite Forall_forall in HP. by apply HP.
Qed.

Lemma set_same k v m : get k m = Some v → set k v m = m.
Proof.
  induction m as [|[k0 v0] m IH]; simpl; [done|].
  case_decide; intros Hg; simplify_eq; [done|]. by rewrite IH.
Qed.

Lemma delete_absent k m : get k m = None → delete k m = m.
Proof.
  rewrite get_None. unfold delete. intros Hk.
  induction m as [|[k0 v0] m IH]; [done|].
  rewrite filter_cons. simpl in *. apply not_elem_of_cons in Hk as [Hne Hk].
  rewrite decide_True; [|done]. by rewrite IH.
Qed.

Lemma get_set_eq k v m : get k (set k v m) = Some v.
Proof. by rewrite get_set, decide_True. Qed.

Lemma get_set_ne k k' v m : k ≠ k' → get k (set k' v m) = get k m.
Proof. intros. by rewrite get_set, decide_False. Qed.

Lemma get_delete_eq k m : get k (delete k m) = None.
Proof. by rewrite get_delete, decide_True. Qed.

Lemma get_delete_ne k k' m : k ≠ k' → get k (delete k' m) = get k m.
Proof. intros. by rewrite get_delete, decide_False. Qed.

Lemma delete_set_same k v m : delete k (set k v m) = delete k m.
Proof.
  unfold delete. induction m as [|[k0 v0] m IH]; simpl.
  - rewrite filter_cons. simpl. by rewrite decide_False by (by intros []).
  - case_decide; subst; rewrite !filter_cons; simpl.
    + by rewrite !decide_False by (by intros []).
    + by rewrite IH.
Qed.

Lemma delete_delete k1 k2 m : delete k1 (delete k2 m) = delete k2 (delete k1 m).
Proof.
  unfold delete. rewrite !list_filter_filter. apply list_filter_iff. naive_solver.
Qed.

Lemma delete_set_ne k1 k2 v m :
  k1 ≠ k2 → delete k1 (set k2 v m) = set k2 v (delete k1 m).
Proof.
  intros Hne. unfold delete. induction m as [|[k0 v0] m IH]; simpl.
  - rewrite filter_cons. simpl. by rewrite decide_True by congruence.
  - destruct (decide (k0 = k2)) as [->|Hk2]; rewrite !filter_cons; simpl.
    + rewrite !decide_True by congruence. simpl. by rewrite decide_True.
    + case_decide; simpl; [|done]. rewrite decide_False by done. by rewrite IH.
Qed.

Lemma set_set_ne k1 k2 v1 v2 m :
  k1 ≠ k2 → is_Some (get k1 m) →
  set k1 v1 (set k2 v2 m) = set k2 v2 (set k1 v1 m).
Proof.
  intros Hne. induction m as [|[k0 v0] m IH]; simpl.
  - by intros [? ?].
  - intros Hk1. destruct (decide (k0 = k2)) as [->|Hk2]; simpl.
    + rewrite !decide_False by done. simpl. by rewrite decide_True.
    + destruct (decide (k0 = k1)) as [->|Hk1']; simpl.
      * by rewrite decide_False by done.
      * rewrite decide_False by done. by rewrite IH.
Qed.

End facts.
End JMapFacts.

(** ** Facts about the registry *)

Module ServerFacts.
Import JS Server JMapFacts.

Implicit Types (rs : list (RoomId * list (UserId * Participant))).
Implicit Types (ps : list (UserId * Participant)) (st : Registry).

Lemma set_set {K V} `{EqDecision K} (k : K) (v w : V) (m : list (K * V)) :
  JMap.set k v (JMap.set k w m) = JMap.set k v m.
Proof.
  induction m as [|[k0 v0] m IH]; simpl.
  - by rewrite decide_True.
  - case_decide; simpl; [by rewrite decide_True|].
    rewrite decide_False; [|done]. by rewrite IH.
Qed.

Lemma set_absent {K V} `{EqDecision K} (k : K) (v : V) (m : list (K * V)) :
  JMap.get k m = None → JMap.set k v m = m ++ [(k, v)].
Proof.
  induction m as [|[k0 v0] m IH]; simpl; [done|].
  case_decide; [done|]. intros Hg. by rewrite IH.
Qed.

Lemma elem_set_inv {K V} `{EqDecision K} (k : K) (v : V) (m : list (K * V)) e :
  e ∈ JMap.set k v m → e = (k, v) ∨ e ∈ m.
Proof.
  induction m as [|[k0 v0] m IH]; simpl.
  - intros Hin%list_elem_of_singleton. by left.
  - case_decide.
    + intros [->|Hin]%elem_of_cons; [by left|]. right. by apply list_elem_of_further.
    + intros [->|Hin]%elem_of_cons; [right; apply list_elem_of_here|].
      destruct (IH Hin) as [->|Hin']; [by left|].
      right. by apply list_elem_of_further.
Qed.

Lemma Forall_delete_set {K V} `{EqDecision K} (P : K * V → Prop) (k : K) (v : V)
    (m : list (K * V)) :
  Forall P m → Forall P (JMap.delete k (JMap.set k v m)).
Proof.
  rewrite !Forall_forall. intros HP e. unfold JMap.delete.
  intros [Hne Hin]%list_elem_of_filter.
  apply elem_set_inv in Hin as [->|Hin]; [done | by apply HP].
Qed.

Lemma size_zero_nil {K V} (m : list (K * V)) : JMap.size m = 0 → m = [].
Proof. destruct m; [done | discriminate]. Qed.

(** *** Joining *)

(** The room map after a join: the joiner's entry is taken out of the room
    it is in and put back at the end. *)
Lemma join_room_rooms s r u n st :
  rooms (join_room s r u n st).1 =
  JMap.set r (JMap.delete u (room_or_empty r (rooms st)) ++ [(u, mkParticipant s n)])
    (rooms st).
Proof.
  unfold join_room, room_or_empty.
  assert (Hfresh : ∀ ps, JMap.set u (mkParticipant s n) (JMap.delete u ps)
                         = JMap.delete u ps ++ [(u, mkParticipant s n)]).
  { intros ps. apply set_absent. rewrite get_delete. by rewrite decide_True. }
  destruct (JMap.get r (rooms st)) as [ex|] eqn:Hr; simpl.
  - destruct (JMap.get u ex) as [old|] eqn:Hu; simpl; unfold JMap.has.
    + repeat (rewrite get_set, decide_True by done; simpl).
      rewrite set_set. by rewrite Hfresh.
    + repeat (rewrite Hr; simpl).
      rewrite <- Hfresh. by rewrite (delete_absent u ex).
  - unfold JMap.has. repeat (rewrite Hr; simpl).
    repeat (rewrite get_set, decide_True by done; simpl). by rewrite set_set.
Qed.

Lemma member_room_or_empty rs r u :
  JMap.get u (room_or_empty r rs) = member rs r u.
Proof. unfold member, room_or_empty. by destruct (JMap.get r rs). Qed.

Lemma member_join s r u n st r' u' :
  member (rooms (join_room s r u n st).1) r' u' =
  if decide (r' = r ∧ u' = u) then Some (mkParticipant s n)
  else member (rooms st) r' u'.
Proof.
  rewrite join_room_rooms. unfold member at 1. rewrite get_set.
  destruct (decide (r' = r)) as [->|Hr]; simpl.
  - rewrite <- set_absent by (rewrite get_delete; by rewrite decide_True).
    rewrite get_set. destruct (decide (u' = u)) as [->|Hu].
    + by rewrite decide_True.
    + rewrite decide_False by naive_solver.
      rewrite get_delete, decide_False by done. apply member_room_or_empty.
  - by rewrite decide_False by naive_solver.
Qed.

(** *** Leaving *)

Lemma member_leave_rooms r u rs r' u' :
  member (leave_rooms r u rs).1 r' u' =
  if decide (r' = r ∧ u' = u) then None else member rs r' u'.
Proof.
  unfold leave_rooms.
  destruct (JMap.get r rs) as [ps|] eqn:Hr.
  - simpl. case_decide as Hsz; simpl; unfold member.
    + rewrite get_delete. destruct (decide (r' = r)) as [->|Hne]; simpl.
      * case_decide; [done|]. rewrite Hr. simpl.
        apply size_zero_nil in Hsz.
        assert (Hu : u' ≠ u) by naive_solver.
        pose proof (get_delete u' u ps) as Hd.
        rewrite decide_False in Hd by done. rewrite <- Hd, Hsz. done.
      * rewrite decide_False by naive_solver.
        by rewrite get_set, decide_False by done.
    + rewrite get_set. destruct (decide (r' = r)) as [->|Hne]; simpl.
      * rewrite get_delete, Hr. simpl.
        destruct (decide (u' = u)) as [->|Hu].
        -- by rewrite decide_True.
        -- by rewrite decide_False by naive_solver.
      * by rewrite decide_False by naive_solver.
  - simpl. case_decide as Heq; [|done].
    destruct Heq as [-> ->]. unfold member. by rewrite Hr.
Qed.

Lemma leave_rooms_ok r u rs : rooms_ok rs → rooms_ok (leave_rooms r u rs).1.
Proof.
  intros (Hr & Hu & He). unfold leave_rooms.
  destruct (JMap.get r rs) as [ps|] eqn:Hg; [|done]. simpl.
  assert (Hps : NoDup (JMap.delete u ps).*1).
  { apply NoDup_delete. apply (Forall_get _ r ps rs Hu Hg). }
  case_decide as Hsz; simpl; repeat split.
  - by apply NoDup_delete, NoDup_set.
  - by apply Forall_delete, Forall_set.
  - by apply Forall_delete_set.
  - by apply NoDup_set.
  - by apply Forall_set.
  - apply Forall_set; [|done]. simpl. intros Hnil. apply Hsz. by rewrite Hnil.
Qed.

Lemma leave_fold_ok pairs rs : rooms_ok rs → rooms_ok (leave_fold pairs rs).
Proof.
  revert rs. induction pairs as [|[r u] pairs IH]; intros rs Hok; [done|].
  simpl. apply IH. by apply leave_rooms_ok.
Qed.

Lemma member_leave_fold pairs rs r u :
  member (leave_fold pairs rs) r u =
  if decide ((r, u) ∈ pairs) then None else member rs r u.
Proof.
  revert rs. induction pairs as [|[r0 u0] pairs IH]; intros rs; simpl.
  - by rewrite ?decide_False by apply not_elem_of_nil.
  - rewrite IH, member_leave_rooms.
    destruct (decide ((r, u) ∈ pairs)) as [Hin|Hnin].
    + rewrite decide_True; [done | by apply list_elem_of_further].
    + destruct (decide (r = r0 ∧ u = u0)) as [[-> ->]|Hne].
      * rewrite decide_True; [done | apply list_elem_of_here].
      * rewrite decide_False; [done|].
        intros [Heq|Hin]%elem_of_cons; [|done]. simplify_eq. naive_solver.
Qed.

(** *** The disconnect sweep *)

Lemma disconnect_visit_rooms s r acc e :
  (disconnect_visit s r acc e).1 =
  if decide (socketId e.2 = s) then (leave_rooms r e.1 acc.1).1 else acc.1.
Proof.
  unfold disconnect_visit, leave_rooms. case_decide; [|done].
  destruct (JMap.get r acc.1); [|done]. simpl. by case_decide.
Qed.

Lemma disconnect_room_rooms s r es acc :
  (fold_left (disconnect_visit s r) es acc).1 =
  leave_fold (map (λ e, (r, e.1)) (filter (λ e, socketId e.2 = s) es)) acc.1.
Proof.
  revert acc. induction es as [|e es IH]; intros acc; simpl; [done|].
  rewrite IH, disconnect_visit_rooms, filter_cons.
  by case_decide.
Qed.

Lemma disconnect_rooms_fold s rs (acc : list (RoomId * list (UserId * Participant)) * list Emission) :
  (fold_left (λ acc room, fold_left (disconnect_visit s room.1) room.2 acc) rs acc).1 =
  leave_fold (pinned s rs) acc.1.
Proof.
  revert acc. induction rs as [|room rs' IH]; intros acc; simpl; [done|].
  rewrite IH, disconnect_room_rooms.
  unfold leave_fold. by rewrite fold_left_app.
Qed.

Lemma disconnect_sweep_rooms s rs :
  (disconnect_sweep s rs).1 = leave_fold (pinned s rs) rs.
Proof. unfold disconnect_sweep. by rewrite disconnect_rooms_fold. Qed.

Lemma elem_pinned s rs r u :
  (r, u) ∈ pinned s rs ↔ ∃ ps p, (r, ps) ∈ rs ∧ (u, p) ∈ ps ∧ socketId p = s.
Proof.
  unfold pinned. rewrite list_elem_of_In, in_flat_map. split.
  - intros ([r0 ps] & Hroom & Hin). simpl in Hin.
    apply list_elem_of_In, list_elem_of_fmap in Hin as ([u0 p] & Heq & Hin).
    simpl in Heq. simplify_eq.
    apply list_elem_of_filter in Hin as [Hs Hin].
    exists ps, p. by rewrite list_elem_of_In.
  - intros (ps & p & Hroom & Hin & Hs). exists (r, ps). split.
    + by apply list_elem_of_In.
    + simpl. apply list_elem_of_In, list_elem_of_fmap. exists (u, p).
      split; [done|]. by apply list_elem_of_filter.
Qed.

Lemma member_elem rs r u p :
  member rs r u = Some p → ∃ ps, (r, ps) ∈ rs ∧ (u, p) ∈ ps.
Proof.
  unfold member. destruct (JMap.get r rs) as [ps|] eqn:Hr; [|done]. simpl.
  intros Hu. exists ps. split; by apply get_Some_elem.
Qed.

Lemma elem_member rs r ps u p :
  rooms_ok rs → (r, ps) ∈ rs → (u, p) ∈ ps → member rs r u = Some p.
Proof.
  intros (Hr & Hu & _) Hroom Hin. unfold member.
  rewrite (elem_get r ps rs Hr Hroom). simpl.
  apply elem_get; [|done].
  rewrite Forall_forall in Hu. apply (Hu _ Hroom).
Qed.

(** *** What each handler leaves in the state *)

Lemma leave_room_state s r u st :
  rooms (leave_room s r u st).1 = (leave_rooms r u (rooms st)).1 ∧
  userSocketMap (leave_room s r u st).1 = forget_socket s (userSocketMap st).
Proof. unfold leave_room. by destruct (leave_rooms r u (rooms st)). Qed.

Lemma disconnect_state s st :
  rooms (disconnect s st).1 = leave_fold (pinned s (rooms st)) (rooms st) ∧
  userSocketMap (disconnect s st).1 = forget_socket s (userSocketMap st).
Proof.
  unfold disconnect. rewrite <- disconnect_sweep_rooms.
  by destruct (disconnect_sweep s (rooms st)).
Qed.

Lemma join_room_index s r u n st :
  userSocketMap (join_room s r u n st).1 = <[u := s]> (userSocketMap st).
Proof.
  unfold join_room.
  by destruct (JMap.get r (rooms st)) as [ex|]; [destruct (JMap.get u ex)|].
Qed.

Lemma forget_socket_lookup s (usm : gmap UserId SocketId) u t :
  forget_socket s usm !! u = Some t ↔ usm !! u = Some t ∧ t ≠ s.
Proof. unfold forget_socket. by rewrite map_lookup_filter_Some. Qed.

(** *** Shape of the rooms: unique keys and no empty room *)

Lemma join_room_ok s r u n st :
  rooms_ok (rooms st) → rooms_ok (rooms (join_room s r u n st).1).
Proof.
  intros (Hr & Hu & He). rewrite join_room_rooms. repeat split.
  - by apply NoDup_set.
  - apply Forall_set; [|done]. simpl.
    rewrite <- set_absent by (rewrite get_delete; by rewrite decide_True).
    apply NoDup_set, NoDup_delete. unfold room_or_empty.
    destruct (JMap.get r (rooms st)) as [ps|] eqn:Hg; simpl; [|apply NoDup_nil_2].
    apply (Forall_get _ r ps _ Hu Hg).
  - apply Forall_set; [|done]. simpl. by intros [? ?]%app_eq_nil.
Qed.

Lemma step_ok st o : rooms_ok (rooms st) → rooms_ok (rooms (step st o)).
Proof.
  intros Hok. destruct o as [s r u n|s r u|s]; simpl.
  - by apply join_room_ok.
  - destruct (leave_room_state s r u st) as [-> _]. by apply leave_rooms_ok.
  - destruct (disconnect_state s st) as [-> _]. by apply leave_fold_ok.
Qed.

Lemma run_ok ops st : rooms_ok (rooms st) → rooms_ok (rooms (run ops st)).
Proof.
  revert st. induction ops as [|o ops IH]; intros st Hok; [done|].
  simpl. apply IH. by apply step_ok.
Qed.

Lemma initial_ok : rooms_ok (rooms initial).
Proof. repeat split; simpl; [apply NoDup_nil_2 | apply Forall_nil_2 ..]. Qed.

(** *** The global index under disciplined requests *)

Lemma join_ok_spec s r u n st r' p :
  op_ok st (Join s r u n) = true → r' ≠ r →
  member (rooms st) r' u = Some p → socketId p = s.
Proof.
  simpl. rewrite forallb_forall. intros Hall Hne Hm.
  unfold member in Hm. destruct (JMap.get r' (rooms st)) as [ps|] eqn:Hg; [|done].
  simpl in Hm. apply get_Some_elem, list_elem_of_In in Hg.
  specialize (Hall _ Hg). simpl in Hall. rewrite Hm in Hall.
  apply orb_true_iff in Hall as [Heq|Heq]; apply bool_decide_eq_true in Heq; done.
Qed.

Lemma leave_ok_spec s r u st :
  op_ok st (Leave s r u) = true →
  (∀ r' u' p, member (rooms st) r' u' = Some p → socketId p = s → r' = r ∧ u' = u) ∧
  (∀ p, member (rooms st) r u = Some p → socketId p = s).
Proof.
  simpl. intros [Hall Hown]%andb_true_iff. split.
  - intros r' u' p Hm Hs. apply member_elem in Hm as (ps & Hroom & Hin).
    rewrite forallb_forall in Hall.
    apply list_elem_of_In in Hroom. specialize (Hall _ Hroom). simpl in Hall.
    rewrite forallb_forall in Hall.
    apply list_elem_of_In in Hin. specialize (Hall _ Hin). simpl in Hall.
    apply orb_true_iff in Hall as [Hne|Heq].
    + by apply bool_decide_eq_true in Hne.
    + apply andb_true_iff in Heq as [H1 H2].
      by apply bool_decide_eq_true in H1, H2.
  - intros p Hm. rewrite Hm in Hown. by apply bool_decide_eq_true in Hown.
Qed.

Lemma join_index_ok s r u n st :
  op_ok st (Join s r u n) = true → index_ok st → index_ok (join_room s r u n st).1.
Proof.
  intros Hop [Hmem Hidx]. split.
  - intros r' u' p. rewrite member_join, join_room_index.
    case_decide as Heq.
    + destruct Heq as [-> ->]. intros [= <-]. simpl. by rewrite lookup_insert_eq.
    + intros Hm. destruct (decide (u' = u)) as [->|Hu].
      * rewrite lookup_insert_eq. f_equal. symmetry.
        apply (join_ok_spec s r u n st r' p Hop); [naive_solver | done].
      * rewrite lookup_insert_ne by done. by apply (Hmem r').
  - intros u' t. rewrite join_room_index.
    destruct (decide (u' = u)) as [->|Hu].
    + intros _. exists r, (mkParticipant s n).
      rewrite member_join. by rewrite decide_True.
    + rewrite lookup_insert_ne by done. intros (r' & p & Hm)%Hidx.
      exists r', p. rewrite member_join. by rewrite decide_False by naive_solver.
Qed.

Lemma leave_index_ok s r u st :
  op_ok st (Leave s r u) = true → index_ok st → index_ok (leave_room s r u st).1.
Proof.
  intros [Honly Hown]%leave_ok_spec [Hmem Hidx].
  destruct (leave_room_state s r u st) as [Hrs Husm]. split.
  - intros r' u' p. rewrite Hrs, Husm, member_leave_rooms.
    case_decide as Heq; [done|]. intros Hm.
    apply forget_socket_lookup. split; [by apply (Hmem r')|].
    intros Hs. apply Heq. by apply (Honly r' u' p).
  - intros u' t. rewrite Hrs, Husm.
    intros [Hlk Hne]%forget_socket_lookup.
    destruct (Hidx _ _ Hlk) as (r' & p & Hm).
    exists r', p. rewrite member_leave_rooms.
    rewrite decide_False; [done|]. intros [-> ->].
    apply Hne. specialize (Hmem _ _ _ Hm). specialize (Hown _ Hm). congruence.
Qed.

Lemma disconnect_index_ok s st :
  rooms_ok (rooms st) → index_ok st → index_ok (disconnect s st).1.
Proof.
  intros Hok [Hmem Hidx].
  destruct (disconnect_state s st) as [Hrs Husm]. split.
  - intros r' u' p. rewrite Hrs, Husm, member_leave_fold.
    case_decide as Hpin; [done|]. intros Hm.
    apply forget_socket_lookup. split; [by apply (Hmem r')|].
    intros Hs. apply Hpin. apply elem_pinned.
    apply member_elem in Hm as (ps & Hroom & Hin). by exists ps, p.
  - intros u' t. rewrite Hrs, Husm.
    intros [Hlk Hne]%forget_socket_lookup.
    destruct (Hidx _ _ Hlk) as (r' & p & Hm).
    exists r', p. rewrite member_leave_fold.
    rewrite decide_False; [done|].
    intros (ps & p' & Hroom & Hin & Hs)%elem_pinned.
    rewrite (elem_member _ _ _ _ _ Hok Hroom Hin) in Hm. simplify_eq.
    apply Hne. specialize (Hmem _ _ _ (elem_member _ _ _ _ _ Hok Hroom Hin)).
    congruence.
Qed.

Lemma step_index_ok st o :
  op_ok st o = true → rooms_ok (rooms st) → index_ok st → index_ok (step st o).
Proof.
  destruct o as [s r u n|s r u|s]; intros Hop Hok Hidx; simpl.
  - by apply join_index_ok.
  - by apply leave_index_ok.
  - by apply disconnect_index_ok.
Qed.

Lemma run_index_ok ops st :
  disciplined ops st = true → rooms_ok (rooms st) → index_ok st →
  index_ok (run ops st).
Proof.
  revert st. induction ops as [|o ops IH]; intros st Hd Hok Hidx; [done|].
  simpl in *. apply andb_true_iff in Hd as [Hop Hd].
  apply IH; [done | by apply step_ok | by apply step_index_ok].
Qed.

Lemma disciplined_take ops n st :
  disciplined ops st = true → disciplined (take n ops) st = true.
Proof.
  revert n st. induction ops as [|o ops IH]; intros [|n] st Hd; try done.
  simpl in *. apply andb_true_iff in Hd as [Hop Hd].
  rewrite Hop. simpl. by apply IH.
Qed.

Lemma index_ok_consistent st :
  rooms_ok (rooms st) → index_ok st → index_consistent st.
Proof.
  intros Hok [Hmem Hidx]. split.
  - intros r ps u p Hroom Hin. apply (Hmem r). by apply (elem_member _ _ ps).
  - intros u Hnone. destruct (userSocketMap st !! u) as [t|] eqn:Hlk; [|done].
    destruct (Hidx _ _ Hlk) as (r & p & Hm).
    apply member_elem in Hm as (ps & Hroom & Hin).
    destruct (Hnone r ps Hroom). apply list_elem_of_fmap. by exists (u, p).
Qed.

Lemma initial_index_ok : index_ok initial.
Proof. split; [done|]. intros u t. simpl. by rewrite lookup_empty. Qed.

(** *** The scenarios of the service, run on the handlers *)

(** A first user joins: the member list goes to the joiner, the count to
    the room, and the [userJoined] broadcast reaches nobody. *)
Example scenario_single_join :
  rooms (join_room "s1" "R" "u1" "A" initial).1 = [("R", [("u1", mkParticipant "s1" "A")])] ∧
  (join_room "s1" "R" "u1" "A" initial).2 =
    [ (SocketEmit "s1", ExistingParticipants [mkMember "u1" "s1" "A"]);
      (SocketTo "s1" "R", UserJoined "u1" "s1" "A");
      (IoTo "R", ParticipantCount 1) ] ∧
  recipients (groups (join_room "s1" "R" "u1" "A" initial).1) (SocketTo "s1" "R") = ∅.
Proof. repeat split; by vm_compute. Qed.

(** A second user joins and signals the first. *)
Example scenario_two_users :
  (join_room "s2" "R" "u2" "B" (run [Join "s1" "R" "u1" "A"] initial)).2 =
    [ (SocketEmit "s2",
       ExistingParticipants [mkMember "u1" "s1" "A"; mkMember "u2" "s2" "B"]);
      (SocketTo "s2" "R", UserJoined "u2" "s2" "B");
      (IoTo "R", ParticipantCount 2) ] ∧
  (signal "u1" "u2" (Wire.Description (Wire.mkDescription Wire.Offer "X"))
     (run [Join "s1" "R" "u1" "A"; Join "s2" "R" "u2" "B"] initial)).1.2 =
    [ (IoTo "s1", SignalMsg "u2" (Wire.Description (Wire.mkDescription Wire.Offer "X"))) ].
Proof. split; by vm_compute. Qed.

(** The first user comes back on a new socket. *)
Example scenario_rejoin :
  rooms (join_room "s1'" "R" "u1" "A"
           (run [Join "s1" "R" "u1" "A"; Join "s2" "R" "u2" "B"] initial)).1 =
    [("R", [("u2", mkParticipant "s2" "B"); ("u1", mkParticipant "s1'" "A")])] ∧
  (join_room "s1'" "R" "u1" "A"
     (run [Join "s1" "R" "u1" "A"; Join "s2" "R" "u2" "B"] initial)).2 =
    [ (SocketEmit "s1'",
       ExistingParticipants [mkMember "u2" "s2" "B"; mkMember "u1" "s1'" "A"]);
      (SocketTo "s1'" "R", UserRejoined "u1" "s1'" "A");
      (IoTo "R", ParticipantCount 2) ].
Proof. split; by vm_compute. Qed.

(** The second user's socket closes. *)
Example scenario_disconnect :
  (disconnect "s2" (run [Join "s1" "R" "u1" "A"; Join "s2" "R" "u2" "B"] initial)).2 =
    [ (SocketTo "s2" "R", UserLeft "u2"); (IoTo "R", ParticipantCount 1) ] ∧
  userSocketMap
    (disconnect "s2" (run [Join "s1" "R" "u1" "A"; Join "s2" "R" "u2" "B"] initial)).1
    !! "u2" = None.
Proof. split; by vm_compute. Qed.

(** *** C1: the registry invariants along a run *)

(** C1, as stated, fails: the index holds one socket per user, so a user who
    joins two rooms over two sockets is indexed under the second socket
    while the entry in the first room still carries the first. *)
Lemma registry_invariant_two_rooms :
  ¬ registry_invariant
      (run [Join "s1" "R1" "u" "A"; Join "s2" "R2" "u" "A"] initial).
Proof.
  intros (_ & _ & Hmem & _).
  assert (Hin : ("R1", [("u", mkParticipant "s1" "A")]) ∈
                rooms (run [Join "s1" "R1" "u" "A"; Join "s2" "R2" "u" "A"] initial))
    by (vm_compute; apply list_elem_of_here).
  specialize (Hmem _ _ "u" (mkParticipant "s1" "A") Hin (list_elem_of_here _ _)).
  vm_compute in Hmem. discriminate.
Qed.

(** C1 (amended): after every step of every run from the empty registry no
    room is empty and no room lists a user twice; the global index agrees
    with the member entries, and is empty for users in no room, after every
    step of a run whose requests are disciplined ([op_ok]). *)
Theorem registry_invariant_disciplined (ops : list Op) (n : nat) :
  no_empty_room (run (take n ops) initial) ∧
  unique_users (run (take n ops) initial) ∧
  (disciplined ops initial = true → index_consistent (run (take n ops) initial)).
Proof.
  pose proof (run_ok (take n ops) initial initial_ok) as Hok.
  destruct Hok as (Hr & Hu & He) eqn:E. clear E.
  split; [done|]. split; [done|].
  intros Hd. apply index_ok_consistent; [done|].
  apply run_index_ok; [by apply disciplined_take | apply initial_ok | apply initial_index_ok].
Qed.

Lemma registry_invariant_disciplined_witness :
  index_consistent
    (run (take 5 [Join "s1" "R" "u1" "A"; Join "s2" "R" "u2" "B";
                  Join "s3" "R" "u1" "A"; Leave "s2" "R" "u2"; Disconnect "s3"])
       initial).
Proof.
  apply (registry_invariant_disciplined
           [Join "s1" "R" "u1" "A"; Join "s2" "R" "u2" "B";
            Join "s3" "R" "u1" "A"; Leave "s2" "R" "u2"; Disconnect "s3"] 5).
  vm_compute. reflexivity.
Defined.

(** *** C2: disconnecting against leaving every pinned pair *)

Lemma forget_socket_idem s (usm : gmap UserId SocketId) :
  forget_socket s (forget_socket s usm) = forget_socket s usm.
Proof.
  apply map_eq. intros u. apply option_eq. intros t.
  rewrite !forget_socket_lookup. naive_solver.
Qed.

Lemma leave_all_rooms s pairs st :
  rooms (leave_all s pairs st) = leave_fold pairs (rooms st).
Proof.
  revert st. induction pairs as [|[r u] pairs IH]; intros st; [done|].
  simpl. rewrite IH. by destruct (leave_room_state s r u st) as [-> _].
Qed.

Lemma leave_all_index s pairs st :
  userSocketMap (leave_all s pairs st) =
  match pairs with
  | [] => userSocketMap st
  | _ :: _ => forget_socket s (userSocketMap st)
  end.
Proof.
  revert st. induction pairs as [|[r u] pairs IH]; intros st; [done|].
  simpl. rewrite IH. destruct (leave_room_state s r u st) as [_ ->].
  destruct pairs; [done|]. apply forget_socket_idem.
Qed.

(** C2, as stated, fails: an index entry can point to [s] while no member
    entry is pinned to [s] (the user was removed by a leave sent over
    another socket); disconnecting [s] drops that entry, while no leave
    is performed at all. *)
Lemma disconnect_is_not_leaves :
  ¬ disconnect_is_leaves "s1"
      (run [Join "s1" "R" "u1" "A"; Join "s2" "R" "u2" "B"; Leave "s2" "R" "u1"]
         initial).
Proof.
  intros [_ Hidx].
  apply (f_equal (λ m : gmap UserId SocketId, m !! "u1")) in Hidx.
  vm_compute in Hidx. discriminate.
Qed.

(** The rooms after a leave, without the emissions. *)
Lemma leave_rooms_fst r u rs :
  (leave_rooms r u rs).1 =
  match JMap.get r rs with
  | Some ps =>
      if decide (JMap.delete u ps = []) then JMap.delete r rs
      else JMap.set r (JMap.delete u ps) rs
  | None => rs
  end.
Proof.
  unfold leave_rooms. destruct (JMap.get r rs) as [ps|]; [|done]. simpl.
  destruct (decide (JMap.size (JMap.delete u ps) = 0)) as [Hsz|Hsz]; simpl.
  - rewrite decide_True by (by apply size_zero_nil). apply delete_set_same.
  - rewrite decide_False; [done|]. intros Hnil. apply Hsz. by rewrite Hnil.
Qed.

(** Two leaves can be swapped. *)
Lemma leave_rooms_comm r1 u1 r2 u2 rs :
  (leave_rooms r2 u2 (leave_rooms r1 u1 rs).1).1 =
  (leave_rooms r1 u1 (leave_rooms r2 u2 rs).1).1.
Proof.
  rewrite !leave_rooms_fst. destruct (decide (r1 = r2)) as [->|Hne].
  - destruct (JMap.get r2 rs) as [ps|] eqn:Hr; [|by rewrite Hr].
    destruct (decide (JMap.delete u1 ps = [])) as [E1|E1];
      destruct (decide (JMap.delete u2 ps = [])) as [E2|E2];
      rewrite ?get_delete_eq, ?get_set_eq.
    + done.
    + rewrite (delete_delete u1 u2), E1. simpl. by rewrite delete_set_same.
    + rewrite (delete_delete u2 u1), E2. simpl. by rewrite delete_set_same.
    + rewrite (delete_delete u2 u1).
      case_decide; by rewrite ?delete_set_same, ?set_set.
  - assert (Hne' : r2 ≠ r1) by congruence.
    destruct (JMap.get r1 rs) as [ps1|] eqn:Hr1;
      destruct (JMap.get r2 rs) as [ps2|] eqn:Hr2;
      repeat (case_decide; rewrite ?get_set_ne, ?get_delete_ne, ?Hr1, ?Hr2 by done);
      try done; try congruence.
    all: first [ apply delete_delete
               | symmetry; by apply delete_set_ne
               | by apply delete_set_ne
               | apply set_set_ne; [done | by rewrite Hr2]
               | by rewrite ?Hr1, ?Hr2 ].
Qed.

Lemma leave_fold_perm pairs pairs' rs :
  pairs ≡ₚ pairs' → leave_fold pairs rs = leave_fold pairs' rs.
Proof.
  intros Hperm. revert rs.
  induction Hperm as [|p l l' _ IH|p q l|l l' l'' _ IH1 _ IH2]; intros rs; simpl.
  - done.
  - apply IH.
  - by rewrite leave_rooms_comm.
  - by rewrite IH1.
Qed.

(** C2 (amended): disconnecting [s] leaves the same rooms as leaving, over
    [s], every pair pinned to [s], in whatever order; its index is the
    index after those leaves without the entries that still point to [s],
    and the two indexes are equal as soon as one pair is pinned to [s]. *)
Theorem disconnect_leaves_pinned (s : SocketId) (st : Registry)
    (pairs : list (RoomId * UserId)) :
  pairs ≡ₚ pinned s (rooms st) →
  rooms (disconnect s st).1 = rooms (leave_all s pairs st) ∧
  userSocketMap (disconnect s st).1 =
    forget_socket s (userSocketMap (leave_all s pairs st)) ∧
  (pairs ≠ [] →
   userSocketMap (disconnect s st).1 = userSocketMap (leave_all s pairs st)).
Proof.
  intros Hperm. destruct (disconnect_state s st) as [-> ->].
  rewrite leave_all_rooms, leave_all_index, (leave_fold_perm _ _ _ Hperm).
  split; [done|]. destruct pairs; split; try done.
  by rewrite forget_socket_idem.
Qed.

Lemma disconnect_leaves_pinned_witness :
  userSocketMap
    (disconnect "s2"
       (run [Join "s2" "R1" "u2" "B"; Join "s1" "R1" "u1" "A"; Join "s2" "R2" "u2" "B"]
          initial)).1 =
  userSocketMap
    (leave_all "s2" [("R2", "u2"); ("R1", "u2")]
       (run [Join "s2" "R1" "u2" "B"; Join "s1" "R1" "u1" "A"; Join "s2" "R2" "u2" "B"]
          initial)).
Proof.
  apply (disconnect_leaves_pinned "s2"
           (run [Join "s2" "R1" "u2" "B"; Join "s1" "R1" "u1" "A"; Join "s2" "R2" "u2" "B"]
              initial)
           [("R2", "u2"); ("R1", "u2")]).
  - vm_compute. apply perm_swap.
  - discriminate.
Defined.

(** *** C3: joining again over another socket *)

Lemma join_room_events s r u n st :
  (join_room s r u n st).2 =
  [ (SocketEmit s,
     ExistingParticipants (members_of (room_or_empty r (rooms (join_room s r u n st).1))));
    (SocketTo s r,
     if JMap.has u (room_or_empty r (rooms st))
     then UserRejoined u s n else UserJoined u s n);
    (IoTo r,
     ParticipantCount (JMap.size (room_or_empty r (rooms (join_room s r u n st).1)))) ].
Proof.
  unfold join_room, room_or_empty, JMap.has.
  destruct (JMap.get r (rooms st)) as [ex|]; simpl; [|done].
  by destruct (JMap.get u ex).
Qed.

(** C3, as stated, fails: the old entry is deleted and a new one is set, so
    in the ordered map the user moves behind the members that joined
    later. *)
Lemma rejoin_not_in_place :
  ¬ rejoin_in_place "s3" "R" "u1" "A"
      (run [Join "s1" "R" "u1" "A"; Join "s2" "R" "u2" "B"] initial).
Proof.
  intros Hclaim.
  destruct (Hclaim [("u1", mkParticipant "s1" "A"); ("u2", mkParticipant "s2" "B")]
              (mkParticipant "s1" "A")) as (_ & _ & Hroom); [done | done | done |].
  vm_compute in Hroom. discriminate.
Qed.

(** C3 (amended): a join for a user already in the room, over another
    socket, broadcasts exactly one [userRejoined] to the room without the
    joining socket and no [userJoined]; the user's entry, now carrying the
    new socket and nickname, is moved to the end of the room's ordered map,
    and the entries of the other users are kept as they are, in order. *)
Theorem rejoin_moves_to_end (s2 : SocketId) (r : RoomId) (u : UserId) (n : string)
    (st : Registry) (ps : list (UserId * Participant)) (old : Participant) :
  JMap.get r (rooms st) = Some ps → JMap.get u ps = Some old → socketId old ≠ s2 →
  filter is_rejoined (join_room s2 r u n st).2 = [(SocketTo s2 r, UserRejoined u s2 n)] ∧
  filter is_joined (join_room s2 r u n st).2 = [] ∧
  JMap.get r (rooms (join_room s2 r u n st).1) =
    Some (filter (λ e, e.1 ≠ u) ps ++ [(u, mkParticipant s2 n)]) ∧
  (∀ r', r' ≠ r →
     JMap.get r' (rooms (join_room s2 r u n st).1) = JMap.get r' (rooms st)).
Proof.
  intros Hr Hu _. rewrite join_room_events, join_room_rooms.
  unfold room_or_empty, JMap.has. rewrite Hr. simpl. rewrite Hu.
  repeat split.
  - by rewrite get_set, decide_True.
  - intros r' Hne. by rewrite get_set, decide_False.
Qed.

Lemma rejoin_moves_to_end_witness :
  JMap.get "R"
    (rooms (join_room "s3" "R" "u1" "A"
              (run [Join "s1" "R" "u1" "A"; Join "s2" "R" "u2" "B"] initial)).1) =
  Some ([("u2", mkParticipant "s2" "B")] ++ [("u1", mkParticipant "s3" "A")]).
Proof.
  apply (rejoin_moves_to_end "s3" "R" "u1" "A"
           (run [Join "s1" "R" "u1" "A"; Join "s2" "R" "u2" "B"] initial)
           [("u1", mkParticipant "s1" "A"); ("u2", mkParticipant "s2" "B")]
           (mkParticipant "s1" "A")); [reflexivity | reflexivity | simpl; discriminate].
Defined.

(** *** C4: leaving a room one is not in *)

(** C4, as stated, fails: the handler forgets the socket and announces the
    leave without asking whether the user was in the room. *)
Lemma leave_absent_not_noop :
  ¬ leave_absent_is_noop "s1" "R2" "u1" (run [Join "s1" "R" "u1" "A"] initial).
Proof.
  intros Hclaim. destruct Hclaim as (_ & _ & Hev); [done|].
  vm_compute in Hev. discriminate.
Qed.

(** C4 (amended): when no room is empty and the user has no entry in the
    room (or the room does not exist), a leave keeps the rooms as they are,
    removes from the index exactly the entries that point to the requesting
    socket, and still broadcasts [userLeft], after a [participant-count] to
    the room when the room exists. *)
Theorem leave_absent_effects (s : SocketId) (r : RoomId) (u : UserId) (st : Registry) :
  no_empty_room st → member (rooms st) r u = None →
  rooms (leave_room s r u st).1 = rooms st ∧
  userSocketMap (leave_room s r u st).1 = forget_socket s (userSocketMap st) ∧
  (leave_room s r u st).2 =
    match JMap.get r (rooms st) with
    | Some ps => [(IoTo r, ParticipantCount (JMap.size ps))]
    | None => []
    end ++ [(SocketTo s r, UserLeft u)].
Proof.
  intros He Hm. unfold leave_room, leave_rooms, member in *.
  destruct (JMap.get r (rooms st)) as [ps|] eqn:Hr; simpl in *; [|done].
  rewrite (delete_absent u ps Hm).
  assert (Hne : ps ≠ []) by apply (Forall_get _ r ps _ He Hr).
  rewrite decide_False by (intros ?%size_zero_nil; done). simpl.
  by rewrite (set_same r ps _ Hr).
Qed.

Lemma leave_absent_effects_witness :
  userSocketMap (leave_room "s1" "R2" "u1" (run [Join "s1" "R" "u1" "A"] initial)).1 =
  forget_socket "s1" (userSocketMap (run [Join "s1" "R" "u1" "A"] initial)).
Proof.
  apply (leave_absent_effects "s1" "R2" "u1" (run [Join "s1" "R" "u1" "A"] initial)).
  - apply (run_ok [Join "s1" "R" "u1" "A"] initial initial_ok).
  - reflexivity.
Defined.

(** *** C5: routing a signal *)

(** C5: a signal whose target has an index entry (a socket id, which is
    never the empty string) is forwarded once to that socket with the
    payload as received, whether or not the sender is in a room; with no
    entry nothing is sent; the registry is unchanged either way. *)
Theorem signal_routed (to from : UserId) (sig : Wire.Signal) (st : Registry) :
  (∀ sid, userSocketMap st !! to = Some sid → sid ≠ EmptyString →
     (signal to from sig st).1 = (st, [(IoTo sid, SignalMsg from sig)])) ∧
  (userSocketMap st !! to = None → (signal to from sig st).1 = (st, [])).
Proof.
  unfold signal. split.
  - intros sid -> Hne. unfold truthy.
    destruct (String.eqb_spec sid EmptyString) as [->|_]; done.
  - intros Hlk. by rewrite Hlk.
Qed.

Lemma signal_routed_witness :
  (signal "u1" "stranger" (Wire.Candidate (Wire.mkCandidate "c" None None))
     (run [Join "s1" "R" "u1" "A"] initial)).1 =
  (run [Join "s1" "R" "u1" "A"] initial,
   [(IoTo "s1", SignalMsg "stranger" (Wire.Candidate (Wire.mkCandidate "c" None None)))]) ∧
  (signal "u9" "u1" (Wire.Candidate (Wire.mkCandidate "c" None None))
     (run [Join "s1" "R" "u1" "A"] initial)).1 =
  (run [Join "s1" "R" "u1" "A"] initial, []).
Proof.
  split.
  - apply (signal_routed "u1" "stranger" _ (run [Join "s1" "R" "u1" "A"] initial));
      [by vm_compute | discriminate].
  - apply (signal_routed "u9" "u1" _ (run [Join "s1" "R" "u1" "A"] initial)).
    by vm_compute.
Defined.

(** *** C8: relaying a chat message *)

(** C8: a chat message is passed on once, with the five fields as they
    came, to the room's delivery group without the sending socket; the
    sockets reached are exactly the members of that group other than the
    sender. *)
Theorem chat_relayed (s : SocketId) (room : RoomId)
    (id senderId senderNickname content : string) (timestamp : Z) (st : Registry) :
  chat_message s room id senderId senderNickname content timestamp st =
    (st, [(SocketTo s room, ReceiveMessage id senderId senderNickname content timestamp)]) ∧
  (∀ t, t ∈ recipients (groups st) (SocketTo s room) ↔
        t ∈ group_of (groups st) room ∧ t ≠ s) ∧
  s ∉ recipients (groups st) (SocketTo s room).
Proof. unfold chat_message, recipients. set_solver. Qed.

End ServerFacts.

(** ** Facts about the client *)

Module ClientFacts.
Import Wire Media Client.

Implicit Types (u : UserId) (st : State) (E : Engine).

(** Unfolding one step of a method. *)
Ltac run_unfold :=
  unfold mbind, Run_bind, mret, Run_ret, gets, modify, record, throw,
    try_catch, try_finally in *.

(** *** C10: removing a peer that is not there *)

Lemma removePeerConnection_absent u st :
  peerConnections st !! u = None → removePeerConnection u st = (inr tt, st).
Proof. intros Hu. unfold removePeerConnection. run_unfold. by rewrite Hu. Qed.

Lemma removePeerConnection_gone u st :
  peerConnections (removePeerConnection u st).2 !! u = None.
Proof.
  unfold removePeerConnection. run_unfold.
  destruct (peerConnections st !! u) as [p|] eqn:Hu; simpl; [|done].
  apply lookup_delete_eq.
Qed.

(** C10: removing a user who is not in the peer table changes nothing, so
    removing a user twice is the same as removing it once. *)
Theorem removePeerConnection_idempotent (u : UserId) (st : State) :
  (peerConnections st !! u = None → removePeerConnection u st = (inr tt, st)) ∧
  removePeerConnection u (removePeerConnection u st).2 =
    (inr tt, (removePeerConnection u st).2).
Proof.
  split; [apply removePeerConnection_absent|].
  apply removePeerConnection_absent, removePeerConnection_gone.
Qed.

Lemma removePeerConnection_idempotent_witness :
  removePeerConnection "u9" (set_pendingIce (<["u9" := [mkCandidate "c" None None]]>) fresh)
  = (inr tt, set_pendingIce (<["u9" := [mkCandidate "c" None None]]>) fresh).
Proof.
  apply (proj1 (removePeerConnection_idempotent "u9"
                  (set_pendingIce (<["u9" := [mkCandidate "c" None None]]>) fresh))).
  reflexivity.
Defined.

(** *** The engine operations, step by step *)

Lemma the_connection_eq u p st :
  peerConnections st !! u = Some p → the_connection u st = (inr (connection p), st).
Proof. intros Hu. unfold the_connection. run_unfold. by rewrite Hu. Qed.

Lemma the_connection_absent u st :
  peerConnections st !! u = None → the_connection u st = (inl EngineError, st).
Proof. intros Hu. unfold the_connection. run_unfold. by rewrite Hu. Qed.

(** The state after a call [c] on peer [u] has settled with connection [pc]. *)
Lemma settled_lookup u p pc c st :
  peerConnections st !! u = Some p →
  put_connection u pc (set_calls (λ cs, cs ++ [c]) st) =
  (inr tt, set_peerConnections (<[u := mkPeer pc (stream p)]>)
             (set_calls (λ cs, cs ++ [c]) st)).
Proof.
  intros Hu. unfold put_connection. run_unfold. simpl.
  unfold set_peerConnections. simpl. by rewrite Hu.
Qed.

Lemma doCreateOffer_eq E u r p o pc st :
  peerConnections st !! u = Some p → createOffer E (connection p) r = Some (o, pc) →
  doCreateOffer E u r st =
  (inr o, set_peerConnections (<[u := mkPeer pc (stream p)]>)
            (set_calls (λ cs, cs ++ [CallCreateOffer u r]) st)).
Proof.
  intros Hu Ho. unfold doCreateOffer. unfold mbind at 1, Run_bind.
  rewrite (the_connection_eq u p st Hu). unfold mbind at 1, Run_bind.
  unfold record at 1, modify at 1. rewrite Ho. simpl.
  unfold mbind, Run_bind. by rewrite (settled_lookup u p pc _ st Hu).
Qed.

Lemma doCreateOffer_fail E u r p st :
  peerConnections st !! u = Some p → createOffer E (connection p) r = None →
  doCreateOffer E u r st =
  (inl EngineError, set_calls (λ cs, cs ++ [CallCreateOffer u r]) st).
Proof.
  intros Hu Ho. unfold doCreateOffer. unfold mbind at 1, Run_bind.
  rewrite (the_connection_eq u p st Hu). unfold mbind at 1, Run_bind.
  unfold record at 1, modify at 1. by rewrite Ho.
Qed.

Lemma doCreateAnswer_eq E u p a pc st :
  peerConnections st !! u = Some p → createAnswer E (connection p) = Some (a, pc) →
  doCreateAnswer E u st =
  (inr a, set_peerConnections (<[u := mkPeer pc (stream p)]>)
            (set_calls (λ cs, cs ++ [CallCreateAnswer u]) st)).
Proof.
  intros Hu Ho. unfold doCreateAnswer. unfold mbind at 1, Run_bind.
  rewrite (the_connection_eq u p st Hu). unfold mbind at 1, Run_bind.
  unfold record at 1, modify at 1. rewrite Ho. simpl.
  unfold mbind, Run_bind. by rewrite (settled_lookup u p pc _ st Hu).
Qed.

Lemma doCreateAnswer_fail E u p st :
  peerConnections st !! u = Some p → createAnswer E (connection p) = None →
  doCreateAnswer E u st =
  (inl EngineError, set_calls (λ cs, cs ++ [CallCreateAnswer u]) st).
Proof.
  intros Hu Ho. unfold doCreateAnswer. unfold mbind at 1, Run_bind.
  rewrite (the_connection_eq u p st Hu). unfold mbind at 1, Run_bind.
  unfold record at 1, modify at 1. by rewrite Ho.
Qed.

Lemma doSetLocalDescription_eq E u d p pc st :
  peerConnections st !! u = Some p → setLocalDescription E (connection p) d = Some pc →
  doSetLocalDescription E u d st =
  (inr tt, set_peerConnections (<[u := mkPeer pc (stream p)]>)
             (set_calls (λ cs, cs ++
                [CallSetLocalDescription u (sd_type d) (signalingState (connection p))]) st)).
Proof.
  intros Hu Ho. unfold doSetLocalDescription. unfold mbind at 1, Run_bind.
  rewrite (the_connection_eq u p st Hu). unfold mbind at 1, Run_bind.
  unfold record at 1, modify at 1. rewrite Ho. simpl.
  by rewrite (settled_lookup u p pc _ st Hu).
Qed.

Lemma doSetLocalDescription_fail E u d p st :
  peerConnections st !! u = Some p → setLocalDescription E (connection p) d = None →
  doSetLocalDescription E u d st =
  (inl EngineError,
   set_calls (λ cs, cs ++
     [CallSetLocalDescription u (sd_type d) (signalingState (connection p))]) st).
Proof.
  intros Hu Ho. unfold doSetLocalDescription. unfold mbind at 1, Run_bind.
  rewrite (the_connection_eq u p st Hu). unfold mbind at 1, Run_bind.
  unfold record at 1, modify at 1. by rewrite Ho.
Qed.

Lemma doSetRemoteDescription_eq E u d p pc st :
  peerConnections st !! u = Some p → setRemoteDescription E (connection p) d = Some pc →
  doSetRemoteDescription E u d st =
  (inr tt, set_peerConnections (<[u := mkPeer pc (stream p)]>)
             (set_calls (λ cs, cs ++ [CallSetRemoteDescription u d]) st)).
Proof.
  intros Hu Ho. unfold doSetRemoteDescription. unfold mbind at 1, Run_bind.
  rewrite (the_connection_eq u p st Hu). unfold mbind at 1, Run_bind.
  unfold record at 1, modify at 1. rewrite Ho. simpl.
  by rewrite (settled_lookup u p pc _ st Hu).
Qed.

Lemma doSetRemoteDescription_fail E u d p st :
  peerConnections st !! u = Some p → setRemoteDescription E (connection p) d = None →
  doSetRemoteDescription E u d st =
  (inl EngineError, set_calls (λ cs, cs ++ [CallSetRemoteDescription u d]) st).
Proof.
  intros Hu Ho. unfold doSetRemoteDescription. unfold mbind at 1, Run_bind.
  rewrite (the_connection_eq u p st Hu). unfold mbind at 1, Run_bind.
  unfold record at 1, modify at 1. by rewrite Ho.
Qed.

Lemma doAddIceCandidate_eq E u c p pc st :
  peerConnections st !! u = Some p → addIceCandidate E (connection p) c = Some pc →
  doAddIceCandidate E u c st =
  (inr tt, set_peerConnections (<[u := mkPeer pc (stream p)]>)
             (set_calls (λ cs, cs ++ [CallAddIceCandidate u c]) st)).
Proof.
  intros Hu Ho. unfold doAddIceCandidate. unfold mbind at 1, Run_bind.
  rewrite (the_connection_eq u p st Hu). unfold mbind at 1, Run_bind.
  unfold record at 1, modify at 1. rewrite Ho. simpl.
  by rewrite (settled_lookup u p pc _ st Hu).
Qed.

Lemma doAddIceCandidate_fail E u c p st :
  peerConnections st !! u = Some p → addIceCandidate E (connection p) c = None →
  doAddIceCandidate E u c st =
  (inl EngineError, set_calls (λ cs, cs ++ [CallAddIceCandidate u c]) st).
Proof.
  intros Hu Ho. unfold doAddIceCandidate. unfold mbind at 1, Run_bind.
  rewrite (the_connection_eq u p st Hu). unfold mbind at 1, Run_bind.
  unfold record at 1, modify at 1. by rewrite Ho.
Qed.

(** *** Reasoning about a method by its outcome *)

Section wp.
Context {A B : Type}.

Lemma wp_bind (m : Run A) (k : A → Run B) st (Q : Exn + B → State → Prop) :
  wp m st (λ r st1, match r with
                    | inl e => Q (inl e) st1
                    | inr a => wp (k a) st1 Q
                    end) →
  wp (m ≫= k) st Q.
Proof.
  unfold wp, mbind, Run_bind. by destruct (m st) as [[e|a] st1].
Qed.

Lemma wp_ret (a : A) st (Q : Exn + A → State → Prop) :
  Q (inr a) st → wp (mret a) st Q.
Proof. done. Qed.

Lemma wp_throw (e : Exn) st (Q : Exn + A → State → Prop) :
  Q (inl e) st → wp (throw e) st Q.
Proof. done. Qed.

Lemma wp_gets (f : State → A) st (Q : Exn + A → State → Prop) :
  Q (inr (f st)) st → wp (gets f) st Q.
Proof. done. Qed.

Lemma wp_try_catch (m : Run A) (h : Exn → Run A) st (Q : Exn + A → State → Prop) :
  wp m st (λ r st1, match r with
                    | inl e => wp (h e) st1 Q
                    | inr a => Q (inr a) st1
                    end) →
  wp (try_catch m h) st Q.
Proof.
  unfold wp, try_catch. by destruct (m st) as [[e|a] st1].
Qed.

Lemma wp_try_finally (m : Run A) (f : Run unit) st (Q : Exn + A → State → Prop) :
  wp m st (λ r st1, wp f st1 (λ r2 st2, match r2 with
                                         | inl e => Q (inl e) st2
                                         | inr _ => Q r st2
                                         end)) →
  wp (try_finally m f) st Q.
Proof.
  unfold wp, try_finally. destruct (m st) as [r st1]. simpl.
  by destruct (f st1) as [[e|[]] st2].
Qed.

Lemma wp_mono (m : Run A) st (Q Q' : Exn + A → State → Prop) :
  (∀ r st', Q r st' → Q' r st') → wp m st Q → wp m st Q'.
Proof. unfold wp. auto. Qed.

End wp.

Lemma wp_modify (f : State → State) st (Q : Exn + unit → State → Prop) :
  Q (inr tt) (f st) → wp (modify f) st Q.
Proof. done. Qed.

Lemma wp_record (c : Call) st (Q : Exn + unit → State → Prop) :
  Q (inr tt) (set_calls (λ cs, cs ++ [c]) st) → wp (record c) st Q.
Proof. done. Qed.

Lemma wp_sendSignal me to sig st (Q : Exn + unit → State → Prop) :
  Q (inr tt) (if hasSocket st then set_calls (λ cs, cs ++ [EmitSignal to me sig]) st else st) →
  wp (sendSignal me to sig) st Q.
Proof. unfold wp, sendSignal. run_unfold. by destruct (hasSocket st). Qed.

Lemma wp_the_connection u st (Q : Exn + RTCPeerConnection → State → Prop) :
  (peerConnections st !! u = None → Q (inl EngineError) st) →
  (∀ p, peerConnections st !! u = Some p → Q (inr (connection p)) st) →
  wp (the_connection u) st Q.
Proof.
  intros Hnone Hsome. unfold wp.
  destruct (peerConnections st !! u) as [p|] eqn:Hu.
  - rewrite (the_connection_eq u p st Hu). by apply Hsome.
  - rewrite (the_connection_absent u st Hu). by apply Hnone.
Qed.

Lemma wp_doCreateOffer E u r st (Q : Exn + SessionDescription → State → Prop) :
  (peerConnections st !! u = None → Q (inl EngineError) st) →
  (∀ p, peerConnections st !! u = Some p →
     createOffer E (connection p) r = None →
     Q (inl EngineError) (set_calls (λ cs, cs ++ [CallCreateOffer u r]) st)) →
  (∀ p o pc, peerConnections st !! u = Some p →
     createOffer E (connection p) r = Some (o, pc) →
     Q (inr o) (settled u p pc (CallCreateOffer u r) st)) →
  wp (doCreateOffer E u r) st Q.
Proof.
  intros Hnone Hfail Hok. unfold wp.
  destruct (peerConnections st !! u) as [p|] eqn:Hu.
  - destruct (createOffer E (connection p) r) as [[o pc]|] eqn:Ho.
    + rewrite (doCreateOffer_eq E u r p o pc st Hu Ho). by apply Hok.
    + rewrite (doCreateOffer_fail E u r p st Hu Ho). by apply (Hfail p).
  - unfold doCreateOffer, mbind, Run_bind.
    rewrite (the_connection_absent u st Hu). by apply Hnone.
Qed.

Lemma wp_doCreateAnswer E u st (Q : Exn + SessionDescription → State → Prop) :
  (peerConnections st !! u = None → Q (inl EngineError) st) →
  (∀ p, peerConnections st !! u = Some p →
     createAnswer E (connection p) = None →
     Q (inl EngineError) (set_calls (λ cs, cs ++ [CallCreateAnswer u]) st)) →
  (∀ p a pc, peerConnections st !! u = Some p →
     createAnswer E (connection p) = Some (a, pc) →
     Q (inr a) (settled u p pc (CallCreateAnswer u) st)) →
  wp (doCreateAnswer E u) st Q.
Proof.
  intros Hnone Hfail Hok. unfold wp.
  destruct (peerConnections st !! u) as [p|] eqn:Hu.
  - destruct (createAnswer E (connection p)) as [[a pc]|] eqn:Ho.
    + rewrite (doCreateAnswer_eq E u p a pc st Hu Ho). by apply Hok.
    + rewrite (doCreateAnswer_fail E u p st Hu Ho). by apply (Hfail p).
  - unfold doCreateAnswer, mbind, Run_bind.
    rewrite (the_connection_absent u st Hu). by apply Hnone.
Qed.

Lemma wp_doSetLocalDescription E u d st (Q : Exn + unit → State → Prop) :
  (peerConnections st !! u = None → Q (inl EngineError) st) →
  (∀ p, peerConnections st !! u = Some p →
     setLocalDescription E (connection p) d = None →
     Q (inl EngineError)
       (set_calls (λ cs, cs ++
          [CallSetLocalDescription u (sd_type d) (signalingState (connection p))]) st)) →
  (∀ p pc, peerConnections st !! u = Some p →
     setLocalDescription E (connection p) d = Some pc →
     Q (inr tt)
       (settled u p pc
          (CallSetLocalDescription u (sd_type d) (signalingState (connection p))) st)) →
  wp (doSetLocalDescription E u d) st Q.
Proof.
  intros Hnone Hfail Hok. unfold wp.
  destruct (peerConnections st !! u) as [p|] eqn:Hu.
  - destruct (setLocalDescription E (connection p) d) as [pc|] eqn:Ho.
    + rewrite (doSetLocalDescription_eq E u d p pc st Hu Ho). by apply Hok.
    + rewrite (doSetLocalDescription_fail E u d p st Hu Ho). by apply (Hfail p).
  - unfold doSetLocalDescription, mbind, Run_bind.
    rewrite (the_connection_absent u st Hu). by apply Hnone.
Qed.

Lemma wp_doSetRemoteDescription E u d st (Q : Exn + unit → State → Prop) :
  (peerConnections st !! u = None → Q (inl EngineError) st) →
  (∀ p, peerConnections st !! u = Some p →
     setRemoteDescription E (connection p) d = None →
     Q (inl EngineError) (set_calls (λ cs, cs ++ [CallSetRemoteDescription u d]) st)) →
  (∀ p pc, peerConnections st !! u = Some p →
     setRemoteDescription E (connection p) d = Some pc →
     Q (inr tt) (settled u p pc (CallSetRemoteDescription u d) st)) →
  wp (doSetRemoteDescription E u d) st Q.
Proof.
  intros Hnone Hfail Hok. unfold wp.
  destruct (peerConnections st !! u) as [p|] eqn:Hu.
  - destruct (setRemoteDescription E (connection p) d) as [pc|] eqn:Ho.
    + rewrite (doSetRemoteDescription_eq E u d p pc st Hu Ho). by apply Hok.
    + rewrite (doSetRemoteDescription_fail E u d p st Hu Ho). by apply (Hfail p).
  - unfold doSetRemoteDescription, mbind, Run_bind.
    rewrite (the_connection_absent u st Hu). by apply Hnone.
Qed.

Lemma wp_doAddIceCandidate E u c st (Q : Exn + unit → State → Prop) :
  (peerConnections st !! u = None → Q (inl EngineError) st) →
  (∀ p, peerConnections st !! u = Some p →
     addIceCandidate E (connection p) c = None →
     Q (inl EngineError) (set_calls (λ cs, cs ++ [CallAddIceCandidate u c]) st)) →
  (∀ p pc, peerConnections st !! u = Some p →
     addIceCandidate E (connection p) c = Some pc →
     Q (inr tt) (settled u p pc (CallAddIceCandidate u c) st)) →
  wp (doAddIceCandidate E u c) st Q.
Proof.
  intros Hnone Hfail Hok. unfold wp.
  destruct (peerConnections st !! u) as [p|] eqn:Hu.
  - destruct (addIceCandidate E (connection p) c) as [pc|] eqn:Ho.
    + rewrite (doAddIceCandidate_eq E u c p pc st Hu Ho). by apply Hok.
    + rewrite (doAddIceCandidate_fail E u c p st Hu Ho). by apply (Hfail p).
  - unfold doAddIceCandidate, mbind, Run_bind.
    rewrite (the_connection_absent u st Hu). by apply Hnone.
Qed.

(** *** C6: offers and the signalling state *)



Ltac wp_step :=
  lazymatch goal with
  | |- wp (mbind _ _) _ _ => apply wp_bind
  | |- wp (mret _) _ _ => apply wp_ret
  | |- wp (throw _) _ _ => apply wp_throw
  | |- wp (gets _) _ _ => apply wp_gets
  | |- wp (modify _) _ _ => apply wp_modify
  | |- wp (record _) _ _ => apply wp_record
  | |- wp (try_catch _ _) _ _ => apply wp_try_catch
  | |- wp (try_finally _ _) _ _ => apply wp_try_finally
  | |- wp (sendSignal _ _ _) _ _ => apply wp_sendSignal
  | |- wp (the_connection _) _ _ =>
      apply wp_the_connection; [intros ? | intros ? ?]
  | |- wp (doCreateOffer _ _ _) _ _ =>
      apply wp_doCreateOffer; [intros ? | intros ? ? ? | intros ? ? ? ? ?]
  | |- wp (doCreateAnswer _ _) _ _ =>
      apply wp_doCreateAnswer; [intros ? | intros ? ? ? | intros ? ? ? ? ?]
  | |- wp (doSetLocalDescription _ _ _) _ _ =>
      apply wp_doSetLocalDescription; [intros ? | intros ? ? ? | intros ? ? ? ?]
  | |- wp (doSetRemoteDescription _ _ _) _ _ =>
      apply wp_doSetRemoteDescription; [intros ? | intros ? ? ? | intros ? ? ? ?]
  | |- wp (doAddIceCandidate _ _ _) _ _ =>
      apply wp_doAddIceCandidate; [intros ? | intros ? ? ? | intros ? ? ? ?]
  | |- wp cleanupOldestConnection _ _ => unfold cleanupOldestConnection
  | |- wp (removePeerConnection _) _ _ => unfold removePeerConnection
  | |- wp (if ?b then _ else _) _ _ => destruct b eqn:?
  | |- wp (match ?x with _ => _ end) _ _ => destruct x eqn:?
  end; cbv beta iota.

Ltac wp_run := repeat wp_step.

(** The calls made so far, as the calls of the start state and the rest. *)
Ltac calls_extend :=
  simpl; rewrite <- ?app_assoc; simpl;
  first [ exists []; split; [by rewrite app_nil_r|]
        | eexists; split; [reflexivity|] ].

(** Membership in an explicit list of calls, case by case. *)
Ltac elem_cases H :=
  repeat (apply elem_of_cons in H as [H|H]; [try discriminate H|]);
  try (by apply elem_of_nil in H).

Ltac split_socket :=
  repeat match goal with
         | |- context [if hasSocket ?st then _ else _] => destruct (hasSocket st)
         end.

Lemma guardedOffer_calls E me u v st :
  wp (guardedOffer E me u v) st
    (λ _ st', ∃ new, calls st' = calls st ++ new ∧
                     ∀ u' s, CallSetLocalDescription u' Offer s ∈ new → s = Stable).
Proof.
  unfold guardedOffer. wp_run.
  all: split_socket; calls_extend; intros u' s' Hin; simpl in *; simplify_map_eq.
  all: elem_cases Hin.
  all: simplify_eq; congruence.
Qed.

Lemma createPeerConnection_calls now u st :
  wp (createPeerConnection now u) st
    (λ r st',
       (∃ new, calls st' = calls st ++ new ∧ ∀ c, c ∈ new → ∃ v id, c = CallClose v id) ∧
       (peerConnections st !! u = None → pendingIce st' !! u = pendingIce st !! u) ∧
       (∀ p, r = inr p → peerConnections st' !! u = Some p) ∧
       hasSocket st' = hasSocket st ∧ localStream st' = localStream st).
Proof.
  unfold createPeerConnection. wp_run.
  all: simpl; repeat split; try done.
  all: try (calls_extend; intros c Hin; elem_cases Hin; by eauto).
  all: try (intros p' [= <-]; by rewrite ?lookup_insert_eq).
  all: intros _; apply lookup_delete_ne; intros Heq; rewrite Heq in *; congruence.
Qed.

Lemma offers_only_when_stable_app cs1 cs2 :
  offers_only_when_stable cs1 → offers_only_when_stable cs2 →
  offers_only_when_stable (cs1 ++ cs2).
Proof.
  intros H1 H2 u s [Hin|Hin]%elem_of_app; [by apply (H1 u) | by apply (H2 u)].
Qed.

Lemma closes_offers new :
  (∀ c, c ∈ new → ∃ v id, c = CallClose v id) → offers_only_when_stable new.
Proof. intros Hnew u s Hin. by destruct (Hnew _ Hin) as (v & id & ?). Qed.

(** [initiateCall] gives an offer to [setLocalDescription] only in the
    stable state. *)
Lemma initiateCall_calls E me now u st :
  wp (initiateCall E me now u) st
    (λ _ st', ∃ new, calls st' = calls st ++ new ∧ offers_only_when_stable new).
Proof.
  unfold initiateCall. apply wp_bind.
  eapply wp_mono; [|apply createPeerConnection_calls].
  intros r st1 ((new1 & Hcalls & Hclose%closes_offers) & _).
  destruct r as [e|p]; [by exists new1|].
  apply wp_bind.
  destruct (String.ltb me u).
  - apply wp_bind, wp_gets. cbv beta iota.
    destruct (isMakingOffer u st1).
    + wp_run. simpl. by exists new1.
    + eapply wp_mono; [|apply guardedOffer_calls].
      intros r st2 (new2 & Hcalls2 & Hoffers2).
      assert (Hall : ∃ new, calls st2 = calls st ++ new ∧ offers_only_when_stable new).
      { exists (new1 ++ new2). rewrite Hcalls2, Hcalls, app_assoc.
        split; [done | by apply offers_only_when_stable_app]. }
      destruct r as [e|[]]; [done | |]; wp_run; done.
  - wp_run. by exists new1.
Qed.

(** So does the negotiation timer. *)
Lemma onNegotiationTimer_calls E me u st :
  wp (onNegotiationTimer E me u) st
    (λ _ st', ∃ new, calls st' = calls st ++ new ∧ offers_only_when_stable new).
Proof.
  unfold onNegotiationTimer. apply wp_bind, wp_gets. cbv beta iota.
  destruct (isMakingOffer u st).
  - wp_run. exists []. split; [by rewrite app_nil_r|]. intros ? ? Hin.
    by apply elem_of_nil in Hin.
  - apply wp_bind.
    eapply wp_mono; [|apply guardedOffer_calls].
    intros r st2 Hnew. destruct r as [e|b]; [done|]. by wp_run.
Qed.

(** In the glare branch of the impolite side the offer is given to
    [setLocalDescription] in whatever state the connection is in. *)
Lemma impolite_collision_offer E me now u d p o pc st ls :
  localStream st = Some ls → peerConnections st !! u = Some p → sd_type d = Offer →
  signalingState (connection p) ≠ Stable → isMakingOffer u st = false →
  String.ltb me u = false →
  createOffer E (connection p) false = Some (o, pc) →
  CallSetLocalDescription u (sd_type o) (signalingState pc)
    ∈ calls (onSignal E me now u (Description d) st).2.
Proof.
  intros Hls Hu Hty Hstate Hmaking Hlt Ho.
  change (wp (onSignal E me now u (Description d)) st
            (λ _ st', CallSetLocalDescription u (sd_type o) (signalingState pc) ∈ calls st')).
  unfold onSignal, signalBody.
  apply wp_try_catch, wp_bind, wp_gets. rewrite Hls. cbv beta iota.
  apply wp_bind, wp_gets. rewrite Hu, Hty, Hlt. cbv beta iota.
  unfold onOffer. apply wp_bind, wp_gets. rewrite Hmaking. cbv beta iota zeta.
  rewrite bool_decide_eq_true_2 by done. simpl.
  wp_run.
  all: simpl in *; simplify_map_eq.
  all: split_socket; simpl; rewrite ?elem_of_app, ?elem_of_cons; naive_solver.
Qed.

(** C6: on the impolite side, an offer that arrives while the own offer is
    pending makes the handler create a fresh offer and give it to
    [setLocalDescription] in the state [have-local-offer]. *)
Theorem glare_offer_outside_stable :
  ¬ offers_only_when_stable
      (calls
         (onSignal jsep "b" 0 "a" (Description (mkDescription Offer "remote"))
            (onNegotiationTimer jsep "b" "a" (initiateCall jsep "b" 0 "a" fresh).2).2).2).
Proof.
  intros Hclaim. specialize (Hclaim "a" HaveLocalOffer).
  assert (Hneq : HaveLocalOffer = Stable → False) by discriminate.
  apply Hneq, Hclaim.
  apply (impolite_collision_offer jsep "b" 0 "a" (mkDescription Offer "remote")
           (mkPeer (mkPC 0 HaveLocalOffer (Some (mkDescription Offer "v=0 offer"))
                      None None None [] []) [])
           (mkDescription Offer "v=0 offer")
           (mkPC 0 HaveLocalOffer (Some (mkDescription Offer "v=0 offer"))
              None None None [] [])
           _ []); by vm_compute.
Qed.

(** *** C7: ICE candidates that arrive before the remote description *)


















End ClientFacts.

(** ** Facts about the track router *)

Module TrackRouterFacts.
Import JS Media TrackRouter.

Implicit Types (t x : Track) (s : list Track).

Lemma elem_fold_removeTrack x ex s :
  x ∈ fold_left (λ acc t, removeTrack t acc) ex s ↔
  x ∈ s ∧ ∀ e, e ∈ ex → track_id x ≠ track_id e.
Proof.
  revert s. induction ex as [|e ex IH]; intros s; simpl.
  - split; [intros Hin; split; [done|]; by intros e ?%elem_of_nil | by intros [? _]].
  - rewrite IH. unfold removeTrack. rewrite list_elem_of_filter. split.
    + intros [[Hne Hin] Hall]. split; [done|].
      intros e' [->|Hin']%elem_of_cons; [done | by apply Hall].
    + intros [Hin Hall]. split; [split; [|done]|].
      * apply Hall, list_elem_of_here.
      * intros e' Hin'. by apply Hall, list_elem_of_further.
Qed.

Lemma elem_addTrack x t s : x ∈ s → x ∈ addTrack t s.
Proof.
  intros Hin. unfold addTrack. case_decide; [done|].
  apply elem_of_app. by left.
Qed.

Lemma elem_enable_in t s x :
  x ∈ s → track_id x ≠ track_id t → x ∈ enable_in t s.
Proof.
  intros Hin Hne. unfold enable_in. apply list_elem_of_fmap.
  exists x. by rewrite decide_False.
Qed.

Lemma elem_enable_in_inv t s y :
  y ∈ enable_in t s →
  ∃ x, x ∈ s ∧ track_id y = track_id x ∧ kind y = kind x ∧ label y = label x.
Proof.
  unfold enable_in. intros (x & -> & Hin)%list_elem_of_fmap.
  exists x. by case_decide.
Qed.

Lemma same_id_same_track s x y :
  NoDup (track_id <$> s) → x ∈ s → y ∈ s → track_id x = track_id y → x = y.
Proof.
  induction s as [|a s IH]; intros Hnd Hx Hy Hid; [by apply elem_of_nil in Hx|].
  apply NoDup_cons in Hnd as [Hfresh Hnd].
  apply elem_of_cons in Hx as [->|Hx]; apply elem_of_cons in Hy as [->|Hy].
  - done.
  - destruct Hfresh. rewrite Hid. apply list_elem_of_fmap. by exists y.
  - destruct Hfresh. rewrite <- Hid. apply list_elem_of_fmap. by exists x.
  - by apply IH.
Qed.

Lemma isScreen_enable t : isScreen (enable t) = isScreen t.
Proof. done. Qed.

(** When a screen-share video track comes in, the audio tracks and the
    video tracks whose label does not say screen stay on the stream. *)
Lemma screen_share_keeps_others track s x :
  NoDup (track_id <$> s) → kind track = Video → isScreen track = true →
  x ∈ s → kind x = Audio ∨ labelSaysScreen (label x) = false →
  track_id x ≠ track_id track →
  x ∈ ontrack track s.
Proof.
  intros Hnd Hkind Hscreen Hin Hother Hne. unfold ontrack. cbv zeta.
  rewrite isScreen_enable, Hscreen. simpl.
  rewrite bool_decide_eq_true_2 by done. simpl.
  apply elem_addTrack, elem_fold_removeTrack. split; [by apply elem_enable_in|].
  intros e [Hlabel Hvideo]%list_elem_of_filter Hid.
  unfold getVideoTracks in Hvideo. apply list_elem_of_filter in Hvideo as [Hk He].
  apply elem_enable_in_inv in He as (y & Hy & Hidy & Hky & Hly).
  assert (x = y) as -> by (apply (same_id_same_track s); congruence).
  destruct Hother as [Haudio|Hnot]; congruence.
Qed.

(** The video tracks whose label says screen are taken off the stream. *)
Lemma screen_share_drops_labelled track s x :
  kind track = Video → isScreen track = true →
  x ∈ s → kind x = Video → labelSaysScreen (label x) = true →
  track_id x ≠ track_id track →
  x ∉ ontrack track s.
Proof.
  intros Hkind Hscreen Hin Hvideo Hlabel Hne. unfold ontrack. cbv zeta.
  rewrite isScreen_enable, Hscreen. simpl.
  rewrite bool_decide_eq_true_2 by done. simpl.
  unfold addTrack. case_decide as Hex.
  - rewrite elem_fold_removeTrack. intros [_ Hall]. apply (Hall x); [|done].
    apply list_elem_of_filter. split; [done|].
    apply list_elem_of_filter. split; [done|]. by apply elem_enable_in.
  - rewrite elem_of_app, elem_fold_removeTrack. intros [[_ Hall]|Hx].
    + apply (Hall x); [|done].
      apply list_elem_of_filter. split; [done|].
      apply list_elem_of_filter. split; [done|]. by apply elem_enable_in.
    + apply list_elem_of_singleton in Hx. subst x. by destruct Hne.
Qed.

(** C9: a screen-share track that was recognised by its display surface or
    its size, not by its label, is still on the stream after the next
    screen-share track has come in. *)
Theorem screen_share_not_replaced :
  isScreen monitor_share = true ∧
  ontrack window_share [monitor_share] = [monitor_share; enable window_share] ∧
  ¬ screen_share_replaces window_share [monitor_share].
Proof.
  split; [done|]. split; [by vm_compute|].
  intros Hclaim. destruct (Hclaim eq_refl eq_refl) as (Hgone & _).
  apply (Hgone monitor_share); [apply list_elem_of_here | done | done | done |].
  vm_compute. apply list_elem_of_here.
Qed.

End TrackRouterFacts.

(** ** More about the registry: joins, leaves, sweeps and listings *)

Module RegistryFacts.
Import JS Server Emissions Api JMapFacts ServerFacts.

Implicit Types (rs : list (RoomId * list (UserId * Participant))).
Implicit Types (ps : list (UserId * Participant)) (st : Registry).

Lemma room_after_join s r u n st :
  room_or_empty r (rooms (join_room s r u n st).1) =
  JMap.delete u (room_or_empty r (rooms st)) ++ [(u, mkParticipant s n)].
Proof. rewrite join_room_rooms. unfold room_or_empty at 1. by rewrite get_set_eq. Qed.

Lemma members_of_app ps1 ps2 : members_of (ps1 ++ ps2) = members_of ps1 ++ members_of ps2.
Proof. unfold members_of. apply map_app. Qed.

(** X1: a join by a user who has no entry in the room puts the user behind
    the members the room has (the room is made if it is not there), tells
    the others [userJoined], and counts one more than before. *)
Theorem join_new_member (s : SocketId) (r : RoomId) (u : UserId) (n : string)
    (st : Registry) :
  member (rooms st) r u = None →
  JMap.get r (rooms (join_room s r u n st).1) =
    Some (room_or_empty r (rooms st) ++ [(u, mkParticipant s n)]) ∧
  (join_room s r u n st).2 =
    [ (SocketEmit s,
       ExistingParticipants (members_of (room_or_empty r (rooms st)) ++ [mkMember u s n]));
      (SocketTo s r, UserJoined u s n);
      (IoTo r, ParticipantCount (S (length (room_or_empty r (rooms st))))) ].
Proof.
  intros Hm. rewrite <- member_room_or_empty in Hm.
  rewrite join_room_events, room_after_join, join_room_rooms, get_set_eq.
  rewrite (delete_absent u _ Hm). split; [done|].
  unfold JMap.has. rewrite Hm, members_of_app. unfold JMap.size.
  rewrite length_app. simpl. by rewrite Nat.add_1_r.
Qed.

Lemma join_new_member_witness :
  JMap.get "R" (rooms (join_room "s2" "R" "u2" "B" (run [Join "s1" "R" "u1" "A"] initial)).1) =
  Some (room_or_empty "R" (rooms (run [Join "s1" "R" "u1" "A"] initial))
          ++ [("u2", mkParticipant "s2" "B")]).
Proof.
  apply (join_new_member "s2" "R" "u2" "B" (run [Join "s1" "R" "u1" "A"] initial)).
  reflexivity.
Defined.

(** X2: whatever the room held, the list a join sends to the joiner names
    the joiner once, last and under the joining socket, the event for the
    others is [userJoined] or [userRejoined], and the count sent to the room
    is the length of that list. *)
Theorem join_lists_joiner_last (s : SocketId) (r : RoomId) (u : UserId) (n : string)
    (st : Registry) :
  ∃ others announce,
    (join_room s r u n st).2 =
      [ (SocketEmit s, ExistingParticipants (others ++ [mkMember u s n]));
        (SocketTo s r, announce);
        (IoTo r, ParticipantCount (length (others ++ [mkMember u s n]))) ] ∧
    (∀ m, m ∈ others → m_userId m ≠ u) ∧
    (announce = UserJoined u s n ∨ announce = UserRejoined u s n).
Proof.
  exists (members_of (JMap.delete u (room_or_empty r (rooms st)))).
  exists (if JMap.has u (room_or_empty r (rooms st))
          then UserRejoined u s n else UserJoined u s n).
  rewrite join_room_events, room_after_join, members_of_app. split; [|split].
  - unfold JMap.size, members_of. by rewrite !length_app, !length_map.
  - intros m (e & -> & He)%list_elem_of_fmap. simpl.
    apply list_elem_of_filter in He. by destruct He.
  - destruct (JMap.has u _); auto.
Qed.

(** X3: a join touches one room, one delivery group and one index entry:
    the other rooms, the groups of the other rooms (the joining socket stays
    in the rooms it joined before) and the index entries of the other users
    are as they were. *)
Theorem join_keeps_the_rest (s : SocketId) (r : RoomId) (u : UserId) (n : string)
    (st : Registry) :
  (∀ r', r' ≠ r →
     JMap.get r' (rooms (join_room s r u n st).1) = JMap.get r' (rooms st) ∧
     group_of (groups (join_room s r u n st).1) r' = group_of (groups st) r') ∧
  (∀ u', u' ≠ u →
     userSocketMap (join_room s r u n st).1 !! u' = userSocketMap st !! u' ∧
     member (rooms (join_room s r u n st).1) r u' = member (rooms st) r u') ∧
  group_of (groups (join_room s r u n st).1) r = {[s]} ∪ group_of (groups st) r.
Proof.
  split; [|split].
  - intros r' Hne. split.
    + by rewrite join_room_rooms, get_set_ne.
    + unfold join_room.
      destruct (JMap.get r (rooms st)) as [ex|]; [destruct (JMap.get u ex)|];
        simpl; unfold group_of, socket_join; by rewrite lookup_insert_ne.
  - intros u' Hne. split.
    + by rewrite join_room_index, lookup_insert_ne.
    + rewrite member_join. by rewrite decide_False by naive_solver.
  - unfold join_room.
    destruct (JMap.get r (rooms st)) as [ex|]; [destruct (JMap.get u ex)|];
      simpl; unfold group_of at 1, socket_join; by rewrite lookup_insert_eq.
Qed.

Lemma join_keeps_the_rest_witness :
  JMap.get "R1" (rooms (join_room "s1" "R2" "u1" "A" (run [Join "s1" "R1" "u1" "A"] initial)).1) =
    JMap.get "R1" (rooms (run [Join "s1" "R1" "u1" "A"] initial)) ∧
  group_of (groups (join_room "s1" "R2" "u1" "A" (run [Join "s1" "R1" "u1" "A"] initial)).1) "R1" =
    group_of (groups (run [Join "s1" "R1" "u1" "A"] initial)) "R1".
Proof.
  apply (join_keeps_the_rest "s1" "R2" "u1" "A" (run [Join "s1" "R1" "u1" "A"] initial)).
  discriminate.
Defined.

(** X4: once a user has joined over a socket, a signal addressed to that
    user goes to that socket and to nothing else, whoever sends it; a
    rejoin redirects it to the new socket. *)
Theorem join_then_signal (s : SocketId) (r : RoomId) (u : UserId) (n : string)
    (st : Registry) (from : UserId) (sig : Wire.Signal) :
  s ≠ EmptyString →
  (signal u from sig (join_room s r u n st).1).1 =
    ((join_room s r u n st).1, [(IoTo s, SignalMsg from sig)]).
Proof.
  intros Hs. unfold signal. rewrite join_room_index, lookup_insert_eq.
  unfold truthy. by destruct (String.eqb_spec s EmptyString).
Qed.

Lemma join_then_signal_witness :
  (signal "u1" "u2" (Wire.Candidate (Wire.mkCandidate "c" None None))
     (join_room "s9" "R" "u1" "A" (run [Join "s1" "R" "u1" "A"] initial)).1).1 =
  ((join_room "s9" "R" "u1" "A" (run [Join "s1" "R" "u1" "A"] initial)).1,
   [(IoTo "s9", SignalMsg "u2" (Wire.Candidate (Wire.mkCandidate "c" None None)))]).
Proof.
  apply (join_then_signal "s9" "R" "u1" "A" (run [Join "s1" "R" "u1" "A"] initial)).
  discriminate.
Defined.

Lemma length_delete_present {V} (u : UserId) (v : V) (m : list (UserId * V)) :
  NoDup m.*1 → JMap.get u m = Some v → S (length (JMap.delete u m)) = length m.
Proof.
  induction m as [|[k w] m IH]; simpl; [done|].
  intros [Hfresh Hnd]%NoDup_cons. unfold JMap.delete. rewrite filter_cons. simpl.
  destruct (decide (k = u)) as [->|Hne].
  - intros _. rewrite decide_False by (by intros []).
    fold (JMap.delete u m). rewrite delete_absent; [done|]. by apply get_None.
  - intros Hg. rewrite decide_True by done. simpl. f_equal. by apply IH.
Qed.

Lemma leave_room_events s r u st :
  (leave_room s r u st).2 = (leave_rooms r u (rooms st)).2 ++ [(SocketTo s r, UserLeft u)].
Proof. unfold leave_room. by destruct (leave_rooms r u (rooms st)). Qed.

(** X5: a leave of a member takes the entry out and keeps the other
    entries in order; when the member was the only one the room is gone and
    no count is sent, else the remaining members get the new count; the
    other rooms stay, and [userLeft] goes to the room without the leaver. *)
Theorem leave_removes_member (s : SocketId) (r : RoomId) (u : UserId) (st : Registry)
    (ps : list (UserId * Participant)) (p : Participant) :
  JMap.get r (rooms st) = Some ps → JMap.get u ps = Some p → NoDup ps.*1 →
  JMap.get r (rooms (leave_room s r u st).1) =
    (if decide (length ps = 1) then None else Some (filter (λ e, e.1 ≠ u) ps)) ∧
  (leave_room s r u st).2 =
    (if decide (length ps = 1) then []
     else [(IoTo r, ParticipantCount (length ps - 1))]) ++ [(SocketTo s r, UserLeft u)] ∧
  (∀ r', r' ≠ r → JMap.get r' (rooms (leave_room s r u st).1) = JMap.get r' (rooms st)).
Proof.
  intros Hr Hu Hnd. pose proof (length_delete_present u p ps Hnd Hu) as Hlen.
  destruct (leave_room_state s r u st) as [Hrooms _].
  rewrite Hrooms, leave_room_events, leave_rooms_fst. unfold leave_rooms.
  rewrite Hr. cbv zeta. unfold JMap.size.
  destruct (decide (length ps = 1)) as [H1|H1].
  - assert (Hnil : JMap.delete u ps = []).
    { apply length_zero_iff_nil. lia. }
    rewrite Hnil. simpl. rewrite ?decide_True by done.
    split; [apply get_delete_eq|]. split; [done|].
    intros r' Hne. by apply get_delete_ne.
  - assert (Hne : JMap.delete u ps ≠ []).
    { intros Hnil. rewrite Hnil in Hlen. simpl in Hlen. lia. }
    assert (Hlen0 : length (JMap.delete u ps) ≠ 0) by (by intros ?%length_zero_iff_nil).
    rewrite (decide_False (P := JMap.delete u ps = [])) by done.
    rewrite (decide_False (P := length (JMap.delete u ps) = 0)) by done.
    simpl. split; [apply get_set_eq|]. split.
    + do 3 f_equal. lia.
    + intros r' Hne'. by apply get_set_ne.
Qed.

Lemma leave_removes_member_witness :
  JMap.get "R" (rooms (leave_room "s1" "R" "u1"
                         (run [Join "s1" "R" "u1" "A"; Join "s2" "R" "u2" "B"] initial)).1) =
  Some [("u2", mkParticipant "s2" "B")].
Proof.
  apply (leave_removes_member "s1" "R" "u1"
           (run [Join "s1" "R" "u1" "A"; Join "s2" "R" "u2" "B"] initial)
           [("u1", mkParticipant "s1" "A"); ("u2", mkParticipant "s2" "B")]
           (mkParticipant "s1" "A")); [reflexivity | reflexivity |].
  simpl. apply NoDup_cons. split; [|apply NoDup_singleton].
  intros Hin%list_elem_of_singleton. discriminate.
Defined.

(** X6: asking for the participants right after a join gives the list the
    joiner was sent; asking for a room whose only member has just left, or
    for any room that is not there, gives the empty list; the registry is
    not touched. *)
Theorem request_after_join_and_leave (s s' : SocketId) (r : RoomId) (u : UserId)
    (n : string) (st : Registry) :
  (∃ l, head (join_room s r u n st).2 = Some (SocketEmit s, ExistingParticipants l) ∧
        request_participants s' r (join_room s r u n st).1 =
          ((join_room s r u n st).1, [(SocketEmit s', ExistingParticipants l)])) ∧
  (∀ p, JMap.get r (rooms st) = Some [(u, p)] →
        request_participants s' r (leave_room s r u st).1 =
          ((leave_room s r u st).1, [(SocketEmit s', ExistingParticipants [])])) ∧
  (JMap.get r (rooms st) = None →
   request_participants s' r st = (st, [(SocketEmit s', ExistingParticipants [])])).
Proof.
  split; [|split].
  - eexists. rewrite join_room_events. split; [reflexivity|].
    unfold request_participants, room_or_empty.
    by rewrite join_room_rooms, get_set_eq.
  - intros p Hr. unfold request_participants.
    destruct (leave_room_state s r u st) as [Hrooms _].
    rewrite Hrooms, leave_rooms_fst, Hr.
    assert (Hnil : JMap.delete u [(u, p)] = []).
    { unfold JMap.delete. rewrite filter_cons. simpl.
      by rewrite decide_False by (by intros []). }
    rewrite Hnil. simpl. rewrite ?decide_True by done. by rewrite get_delete_eq.
  - intros Hr. unfold request_participants. by rewrite Hr.
Qed.

Lemma request_after_join_and_leave_witness :
  request_participants "s2" "R" (leave_room "s1" "R" "u1" (run [Join "s1" "R" "u1" "A"] initial)).1 =
  ((leave_room "s1" "R" "u1" (run [Join "s1" "R" "u1" "A"] initial)).1,
   [(SocketEmit "s2", ExistingParticipants [])]).
Proof.
  apply (proj1 (proj2 (request_after_join_and_leave "s1" "s2" "R" "u1" "A"
                         (run [Join "s1" "R" "u1" "A"] initial)))
           (mkParticipant "s1" "A")).
  reflexivity.
Defined.

Lemma disconnect_groups s st :
  groups (disconnect s st).1 = drop_socket s (groups st).
Proof. unfold disconnect. by destruct (disconnect_sweep s (rooms st)). Qed.

(** X7: after a disconnect of [s], in a registry with unique keys, the
    member entries are exactly the former ones held over another socket,
    the index entries are exactly the former ones with another socket, and
    [s] is in no delivery group. *)
Theorem disconnect_forgets_socket (s : SocketId) (st : Registry) :
  rooms_ok (rooms st) →
  (∀ r u p, member (rooms (disconnect s st).1) r u = Some p ↔
            member (rooms st) r u = Some p ∧ socketId p ≠ s) ∧
  (∀ u t, userSocketMap (disconnect s st).1 !! u = Some t ↔
          userSocketMap st !! u = Some t ∧ t ≠ s) ∧
  (∀ room, s ∉ group_of (groups (disconnect s st).1) room).
Proof.
  intros Hok. destruct (disconnect_state s st) as [Hr Hu]. split; [|split].
  - intros r u p. rewrite Hr, member_leave_fold. case_decide as Hp.
    + apply elem_pinned in Hp as (ps & p' & Hin & Hin' & Hs).
      pose proof (elem_member _ _ _ _ _ Hok Hin Hin') as Hm.
      split; [done|]. intros [Hm' Hne]. rewrite Hm in Hm'. by simplify_eq.
    + split; [|by intros []]. intros Hm. split; [done|]. intros Hs. apply Hp.
      apply elem_pinned. apply member_elem in Hm as (ps & ? & ?). by exists ps, p.
  - intros u t. rewrite Hu. apply forget_socket_lookup.
  - intros room. rewrite disconnect_groups. unfold group_of, drop_socket.
    rewrite lookup_fmap. destruct (groups st !! room); simpl; set_solver.
Qed.

Lemma disconnect_forgets_socket_witness :
  ("s1" ∉ group_of (groups (disconnect "s1"
     (run [Join "s1" "R" "u1" "A"; Join "s2" "R" "u2" "B"] initial)).1) "R") ∧
  userSocketMap (disconnect "s1"
     (run [Join "s1" "R" "u1" "A"; Join "s2" "R" "u2" "B"] initial)).1 !! "u1" = None.
Proof.
  destruct (disconnect_forgets_socket "s1"
              (run [Join "s1" "R" "u1" "A"; Join "s2" "R" "u2" "B"] initial))
    as (_ & Hindex & Hgroups); [apply run_ok, initial_ok|].
  split; [apply Hgroups|].
  apply eq_None_not_Some. intros [t Ht]. apply Hindex in Ht as [Ht Hne].
  vm_compute in Ht. injection Ht as <-. by apply Hne.
Defined.

Lemma disconnect_visit_events s r acc e :
  ∃ evs, (disconnect_visit s r acc e).2 = acc.2 ++ evs ∧
    List.filter is_left evs =
      map (λ p, (SocketTo s p.1, UserLeft p.2))
        (map (λ e, (r, e.1)) (filter (λ e, socketId e.2 = s) [e])) ∧
    Forall (λ e, is_left e = true ∨ ∃ r k, e = (IoTo r, ParticipantCount k) ∧ (0 < k)%nat) evs ∧
    (length evs ≤ 2 * length (filter (λ e, socketId e.2 = s) [e]))%nat.
Proof.
  unfold disconnect_visit. rewrite filter_cons, filter_nil.
  destruct (decide (socketId e.2 = s)) as [Hs|Hs].
  - destruct (JMap.get r acc.1) as [ps|]; simpl.
    + destruct (decide (JMap.size (JMap.delete e.1 ps) = 0)) as [Hz|Hz]; simpl.
      * eexists. split; [done|]. split; [done|]. split; [|simpl; lia].
        apply Forall_singleton. by left.
      * eexists. split; [done|]. split; [done|]. split; [|simpl; lia].
        apply Forall_cons. split; [by left|]. apply Forall_singleton. right.
        eexists _, _. split; [done|]. lia.
    + eexists. split; [done|]. split; [done|]. split; [|simpl; lia].
      apply Forall_singleton. by left.
  - exists []. rewrite app_nil_r. by repeat split.
Qed.

Lemma disconnect_room_events s r es acc :
  ∃ evs, (fold_left (disconnect_visit s r) es acc).2 = acc.2 ++ evs ∧
    List.filter is_left evs =
      map (λ p, (SocketTo s p.1, UserLeft p.2))
        (map (λ e, (r, e.1)) (filter (λ e, socketId e.2 = s) es)) ∧
    Forall (λ e, is_left e = true ∨ ∃ r k, e = (IoTo r, ParticipantCount k) ∧ (0 < k)%nat) evs ∧
    (length evs ≤ 2 * length (filter (λ e, socketId e.2 = s) es))%nat.
Proof.
  revert acc. induction es as [|e es IH]; intros acc; simpl.
  { exists []. rewrite app_nil_r. by repeat split. }
  destruct (disconnect_visit_events s r acc e) as (ev1 & E1 & F1 & G1 & L1).
  destruct (IH (disconnect_visit s r acc e)) as (ev2 & E2 & F2 & G2 & L2).
  exists (ev1 ++ ev2). rewrite E2, E1, <-(assoc_L (++)). split; [done|].
  change (e :: es) with ([e] ++ es).
  rewrite List.filter_app, F1, F2, filter_app, !map_app, !length_app.
  split; [done|]. split; [by apply Forall_app|]. lia.
Qed.

Lemma disconnect_sweep_events s rs acc :
  ∃ evs,
    (fold_left (λ acc room, fold_left (disconnect_visit s room.1) room.2 acc) rs acc).2 =
      acc.2 ++ evs ∧
    List.filter is_left evs = map (λ p, (SocketTo s p.1, UserLeft p.2)) (pinned s rs) ∧
    Forall (λ e, is_left e = true ∨ ∃ r k, e = (IoTo r, ParticipantCount k) ∧ (0 < k)%nat) evs ∧
    (length evs ≤ 2 * length (pinned s rs))%nat.
Proof.
  revert acc. induction rs as [|[r es] rs IH]; intros acc; simpl.
  { exists []. rewrite app_nil_r. by repeat split. }
  destruct (disconnect_room_events s r es acc) as (ev1 & E1 & F1 & G1 & L1).
  destruct (IH (fold_left (disconnect_visit s r) es acc)) as (ev2 & E2 & F2 & G2 & L2).
  exists (ev1 ++ ev2). rewrite E2, E1, <-(assoc_L (++)). split; [done|].
  unfold pinned in *. simpl.
  rewrite List.filter_app, F1, F2, !map_app, !length_app, !length_map.
  split; [done|]. split; [by apply Forall_app|]. lia.
Qed.

(** X8: the [userLeft] events of a disconnect of [s] are those of the
    entries pinned to [s], one each, in the order of the maps, addressed to
    the entry's room without [s]; every other event is a positive
    participant count; there are at most two events per entry, so none
    when no entry is pinned to [s]. *)
Theorem disconnect_events (s : SocketId) (st : Registry) :
  List.filter is_left (disconnect s st).2 =
    map (λ p, (SocketTo s p.1, UserLeft p.2)) (pinned s (rooms st)) ∧
  Forall (λ e, is_left e = true ∨ ∃ r k, e = (IoTo r, ParticipantCount k) ∧ (0 < k)%nat)
    (disconnect s st).2 ∧
  (length (disconnect s st).2 ≤ 2 * length (pinned s (rooms st)))%nat.
Proof.
  destruct (disconnect_sweep_events s (rooms st) (rooms st, [])) as (evs & E & F & G & L).
  assert (Hev : (disconnect s st).2 = evs).
  { unfold disconnect. fold (disconnect_sweep s (rooms st)) in E.
    by destruct (disconnect_sweep s (rooms st)). }
  by rewrite Hev.
Qed.

(** X9: a leave that comes over a socket other than the one the index
    holds for the user leaves the index entry in place while the member
    entry is gone: signals for that user are still forwarded to the old
    socket. *)
Theorem stale_leave_keeps_index (s t : SocketId) (r : RoomId) (u : UserId) (st : Registry) :
  userSocketMap st !! u = Some t → t ≠ s →
  userSocketMap (leave_room s r u st).1 !! u = Some t ∧
  member (rooms (leave_room s r u st).1) r u = None ∧
  (t ≠ EmptyString → ∀ from sig,
     (signal u from sig (leave_room s r u st).1).1.2 = [(IoTo t, SignalMsg from sig)]).
Proof.
  intros Hu Hne. destruct (leave_room_state s r u st) as [Hrooms Husm].
  assert (Hlk : userSocketMap (leave_room s r u st).1 !! u = Some t).
  { rewrite Husm. by apply forget_socket_lookup. }
  split; [done|]. split.
  - rewrite Hrooms, member_leave_rooms. by rewrite decide_True.
  - intros Ht from sig. unfold signal. rewrite Hlk. unfold truthy.
    destruct (String.eqb_spec t EmptyString) as [->|_]; [done|]. reflexivity.
Qed.

Lemma stale_leave_keeps_index_witness :
  userSocketMap (leave_room "s2" "R" "u1" (run [Join "s1" "R" "u1" "A"] initial)).1 !! "u1" =
    Some "s1" ∧
  member (rooms (leave_room "s2" "R" "u1" (run [Join "s1" "R" "u1" "A"] initial)).1) "R" "u1" =
    None.
Proof.
  destruct (stale_leave_keeps_index "s2" "s1" "R" "u1" (run [Join "s1" "R" "u1" "A"] initial))
    as (H1 & H2 & _); [by vm_compute | discriminate |].
  exact (conj H1 H2).
Defined.

(** X10: in every state the handlers can reach, the room list of
    [GET /api/rooms] has one entry per room with distinct room ids, each
    with at least one participant, a count equal to the number of listed
    participants, and distinct user ids; [GET /api/rooms/:roomId] answers
    404 exactly for the ids that are not listed, and otherwise with the
    listed entry. *)
Theorem listings_agree (ops : list Op) (r : RoomId) :
  NoDup (ri_roomId <$> (get_rooms (run ops initial)).1) ∧
  Forall (λ info, (0 < ri_participantCount info)%nat ∧
                  ri_participantCount info = length (ri_participants info) ∧
                  NoDup (pi_userId <$> ri_participants info))
    (get_rooms (run ops initial)).1 ∧
  match get_room r (run ops initial) with
  | Some info => info ∈ (get_rooms (run ops initial)).1 ∧ ri_roomId info = r
  | None => r ∉ ri_roomId <$> (get_rooms (run ops initial)).1
  end.
Proof.
  destruct (run_ok ops initial initial_ok) as (Hnd & Hu & Hne).
  set (st := run ops initial) in *.
  assert (Hids : ri_roomId <$> (get_rooms st).1 = (rooms st).*1).
  { unfold get_rooms. simpl. rewrite <-list_fmap_compose. by apply list_fmap_ext. }
  rewrite Hids. split; [done|]. split.
  - unfold get_rooms. simpl. apply Forall_fmap, Forall_forall. intros [r' ps] Hin. simpl.
    rewrite Forall_forall in Hu, Hne. specialize (Hu _ Hin). specialize (Hne _ Hin).
    simpl in Hu, Hne. unfold JMap.size, listed. rewrite length_map. split; [|split].
    + destruct ps; [done|simpl; lia].
    + done.
    + change (map ?f ps) with (f <$> ps). rewrite <-list_fmap_compose.
      by erewrite list_fmap_ext; [exact Hu|].
  - unfold get_room. destruct (JMap.get r (rooms st)) as [ps|] eqn:Hr.
    + split; [|done]. apply get_Some_elem in Hr. unfold get_rooms. simpl.
      apply list_elem_of_fmap. exists (r, ps). split; [|done]. simpl.
      unfold JMap.size, listed. by rewrite length_map.
    + by apply get_None.
Qed.

End RegistryFacts.

(** ** The client's calls and room events *)

Module EventsFacts.
Import Wire Media Client Events ClientFacts.

Implicit Types (u : UserId) (st : State) (E : Engine).

(** The offer block always comes to its end with the flag cleared; it
    touches neither the local stream nor the pending set. *)
Lemma guardedOffer_returns E me u v st :
  wp (guardedOffer E me u v) st
    (λ r st', (∃ b, r = inr b) ∧ makingOffer st' !! u = Some false ∧
              localStream st' = localStream st ∧
              pendingConnections st' = pendingConnections st ∧
              nicknameMap st' = nicknameMap st ∧
              ∀ u', is_Some (peerConnections st' !! u') ↔ is_Some (peerConnections st !! u')).
Proof.
  unfold guardedOffer. wp_run.
  all: split_socket; simpl in *; rewrite ?lookup_insert_eq.
  all: repeat split; eauto.
  all: try (intros [x Hx]; destruct (decide (u' = u)) as [->|];
            simplify_map_eq; eauto).
Qed.

(** What [createPeerConnection] gives back, and what it leaves alone. *)
Lemma createPeerConnection_returns now u st :
  wp (createPeerConnection now u) st
    (λ r st',
       match r with
       | inl e => e = LocalStreamNotInitialized u ∧ st' = st ∧
                  localStream st = None ∧ peerConnections st !! u = None
       | inr p => (is_Some (localStream st) ∨ is_Some (peerConnections st !! u)) ∧
                  peerConnections st' !! u = Some p
       end ∧
       localStream st' = localStream st ∧ makingOffer st' !! u = makingOffer st !! u ∧
       nicknameMap st' = nicknameMap st).
Proof.
  unfold createPeerConnection. wp_run.
  all: simpl in *; rewrite ?lookup_insert_eq; repeat split; eauto.
  all: match goal with
       | H : peerConnections _ !! oldest ?e ?l = Some _ |- _ =>
           destruct (decide (oldest e l = u)) as [Heq|Hne];
           [rewrite Heq in *; congruence | by rewrite lookup_delete_ne]
       end.
Qed.

(** X11: [initiateCall] throws in one case only, when there is neither a
    local stream nor a connection for the user, and then it has changed
    nothing; a rejection by the browser while the offer is made never comes
    out of it. *)
Theorem initiateCall_throws_only_without_stream (E : Engine) (me : UserId) (now : Z)
    (u : UserId) (st : State) :
  match (initiateCall E me now u st).1 with
  | inl e => e = LocalStreamNotInitialized u ∧ localStream st = None ∧
             peerConnections st !! u = None ∧ (initiateCall E me now u st).2 = st
  | inr _ => is_Some (localStream st) ∨ is_Some (peerConnections st !! u)
  end.
Proof.
  change (wp (initiateCall E me now u) st
            (λ r st',
               match r with
               | inl e => e = LocalStreamNotInitialized u ∧ localStream st = None ∧
                          peerConnections st !! u = None ∧ st' = st
               | inr _ => is_Some (localStream st) ∨ is_Some (peerConnections st !! u)
               end)).
  unfold initiateCall. apply wp_bind.
  eapply wp_mono; [|apply createPeerConnection_returns].
  intros r st1 (Hr & _). destruct r as [e|p]; [naive_solver|].
  destruct Hr as [Hsome _]. apply wp_bind.
  destruct (String.ltb me u).
  - apply wp_bind, wp_gets. cbv beta iota.
    destruct (isMakingOffer u st1).
    + by wp_run.
    + eapply wp_mono; [|apply guardedOffer_returns].
      intros r st2 ([b ->] & _). destruct b; by wp_run.
  - by wp_run.
Qed.

(** X12: after [initiateCall] on the polite side has returned, and after
    the negotiation timer has run, the [makingOffer] flag of the peer is
    off, whatever it was before and whether or not the browser rejected a
    step; a timer that finds the flag on does nothing. *)
Theorem offer_flag_cleared (E : Engine) (me : UserId) (now : Z) (u : UserId) (st : State) :
  (String.ltb me u = true → ∀ r, (initiateCall E me now u st).1 = inr r →
     isMakingOffer u (initiateCall E me now u st).2 = false) ∧
  (isMakingOffer u st = false →
     (onNegotiationTimer E me u st).1 = inr tt ∧
     isMakingOffer u (onNegotiationTimer E me u st).2 = false) ∧
  (isMakingOffer u st = true → onNegotiationTimer E me u st = (inr tt, st)).
Proof.
  split; [|split].
  - intros Hlt.
    change (wp (initiateCall E me now u) st
              (λ r st', ∀ x, r = inr x → isMakingOffer u st' = false)).
    unfold initiateCall. apply wp_bind.
    eapply wp_mono; [|apply createPeerConnection_returns].
    intros r st1 _. destruct r as [e|p]; [done|].
    apply wp_bind. rewrite Hlt.
    apply wp_bind, wp_gets. cbv beta iota.
    destruct (isMakingOffer u st1).
    + wp_run. intros _ _. unfold isMakingOffer. simpl. by rewrite lookup_insert_eq.
    + eapply wp_mono; [|apply guardedOffer_returns].
      intros r st2 ([b ->] & Hflag & _).
      destruct b; wp_run; intros _ _; unfold isMakingOffer; by rewrite Hflag.
  - intros Hoff.
    change (wp (onNegotiationTimer E me u) st
              (λ r st', r = inr tt ∧ isMakingOffer u st' = false)).
    unfold onNegotiationTimer. apply wp_bind, wp_gets. rewrite Hoff. cbv beta iota.
    apply wp_bind. eapply wp_mono; [|apply guardedOffer_returns].
    intros r st2 ([b ->] & Hflag & _). wp_run. split; [done|].
    unfold isMakingOffer. by rewrite Hflag.
  - intros Hon. unfold onNegotiationTimer. run_unfold. by rewrite Hon.
Qed.

Lemma offer_flag_cleared_witness :
  isMakingOffer "b" (initiateCall jsep "a" 0 "b" (set_makingOffer (<["b" := true]>) fresh)).2
  = false.
Proof.
  apply (proj1 (offer_flag_cleared jsep "a" 0 "b" (set_makingOffer (<["b" := true]>) fresh))
           eq_refl None).
  reflexivity.
Defined.

Lemma ltb_opposite (a b : string) : a ≠ b → String.ltb a b = false → String.ltb b a = true.
Proof.
  unfold String.ltb. intros Hne. rewrite (String.compare_antisym b a).
  destruct (String.compare a b) eqn:Hc; simpl; try done.
  by apply String.compare_eq_iff in Hc.
Qed.

(** X13: of two users with different ids exactly one is polite towards
    the other, and [initiateCall] on the side that is not creates no offer
    and sends nothing: the only calls it can make close the connection it
    evicts. *)
Theorem only_polite_side_offers (E : Engine) (me : UserId) (now : Z) (u : UserId) (st : State) :
  (String.ltb me u = true → String.ltb u me = false) ∧
  (me ≠ u → String.ltb me u = false → String.ltb u me = true) ∧
  (String.ltb me u = false →
   ∃ new, calls (initiateCall E me now u st).2 = calls st ++ new ∧
          ∀ c, c ∈ new → ∃ v id, c = CallClose v id).
Proof.
  split; [|split; [apply ltb_opposite|]].
  - unfold String.ltb. rewrite (String.compare_antisym me u).
    by destruct (String.compare u me).
  - intros Hlt.
    change (wp (initiateCall E me now u) st
              (λ _ st', ∃ new, calls st' = calls st ++ new ∧
                               ∀ c, c ∈ new → ∃ v id, c = CallClose v id)).
    unfold initiateCall. apply wp_bind.
    eapply wp_mono; [|apply createPeerConnection_calls].
    intros r st1 (Hnew & _). destruct r as [e|p]; [done|].
    rewrite Hlt. by wp_run.
Qed.

Lemma only_polite_side_offers_witness :
  ∃ new, calls (initiateCall jsep "b" 0 "a" fresh).2 = calls fresh ++ new ∧
         ∀ c, c ∈ new → ∃ v id, c = CallClose v id.
Proof.
  apply (proj2 (proj2 (only_polite_side_offers jsep "b" 0 "a" fresh))). reflexivity.
Defined.

(** The user [oldest] picks has the least creation time, and is the first
    of the entries with that time. *)
Lemma oldest_spec (best : UserId * Z) (l : list (UserId * Z)) :
  ∃ t l1 l2, best :: l = l1 ++ (oldest best l, t) :: l2 ∧
    (∀ x, x ∈ l1 → (t < x.2)%Z) ∧ (∀ x, x ∈ l2 → (t ≤ x.2)%Z).
Proof.
  revert best. induction l as [|e l IH]; intros best; simpl.
  { exists best.2, [], []. destruct best. simpl. split; [done|].
    split; intros x Hx; by apply elem_of_nil in Hx. }
  destruct (Z.ltb_spec e.2 best.2) as [Hlt|Hge].
  - destruct (IH e) as (t & l1 & l2 & Heq & H1 & H2).
    exists t, (best :: l1), l2. simpl. rewrite Heq. split; [done|]. split; [|done].
    intros x [->|Hx]%elem_of_cons; [|by apply H1].
    destruct l1 as [|e' l1]; simpl in Heq; injection Heq as He Hl.
    + apply (f_equal snd) in He. simpl in He. lia.
    + subst e'. specialize (H1 e (list_elem_of_here _ _)). lia.
  - destruct (IH best) as (t & l1 & l2 & Heq & H1 & H2).
    destruct l1 as [|b l1]; simpl in Heq; injection Heq as Hb Hl.
    + exists t, [], (e :: l). simpl. rewrite <-Hb. split; [done|]. split.
      * intros x Hx. by apply elem_of_nil in Hx.
      * intros x [->|Hx]%elem_of_cons; [|apply H2; by rewrite <-Hl].
        apply (f_equal snd) in Hb. simpl in Hb. lia.
    + subst b. exists t, (best :: e :: l1), l2. simpl.
      split; [do 2 f_equal; exact Hl|]. split; [|done].
      intros x [->|[->|Hx]%elem_of_cons]%elem_of_cons.
      * apply H1, list_elem_of_here.
      * specialize (H1 best (list_elem_of_here _ _)). lia.
      * by apply H1, list_elem_of_further.
Qed.

Lemma oldest_elem (best : UserId * Z) (l : list (UserId * Z)) :
  oldest best l ∈ (best :: l).*1.
Proof.
  destruct (oldest_spec best l) as (t & l1 & l2 & -> & _).
  rewrite fmap_app, elem_of_app. right. simpl. apply list_elem_of_here.
Qed.

(** X14: when the peer table is not empty, [cleanupOldestConnection]
    takes out the user whose creation time is the least, the first such in
    the order the times were stored, and adds that user to the pending
    set. *)
Theorem cleanup_evicts_oldest (st : State) (e : UserId * Z) (l : list (UserId * Z)) :
  connectionCreationTime st = e :: l → peerConnections st ≠ ∅ →
  ∃ v t l1 l2, e :: l = l1 ++ (v, t) :: l2 ∧
    (∀ x, x ∈ l1 → (t < x.2)%Z) ∧ (∀ x, x ∈ l2 → (t ≤ x.2)%Z) ∧
    peerConnections (cleanupOldestConnection st).2 = delete v (peerConnections st) ∧
    v ∈ pendingConnections (cleanupOldestConnection st).2.
Proof.
  intros Htimes Hne. destruct (oldest_spec e l) as (t & l1 & l2 & Heq & H1 & H2).
  exists (oldest e l), t, l1, l2. do 3 (split; [done|]).
  apply map_size_non_empty_iff in Hne.
  unfold cleanupOldestConnection, removePeerConnection. run_unfold.
  rewrite decide_False by done. rewrite Htimes.
  destruct (peerConnections st !! oldest e l) as [p|] eqn:Hp; simpl.
  - split; [done|]. set_solver.
  - split; [by rewrite delete_id|]. set_solver.
Qed.

Lemma cleanup_evicts_oldest_witness :
  ∃ v t l1 l2, [("a", 5%Z); ("b", 3%Z); ("c", 3%Z)] = l1 ++ (v, t) :: l2 ∧
    (∀ x, x ∈ l1 → (t < x.2)%Z) ∧ (∀ x, x ∈ l2 → (t ≤ x.2)%Z) ∧
    peerConnections (cleanupOldestConnection
       (set_connectionCreationTime (λ _, [("a", 5%Z); ("b", 3%Z); ("c", 3%Z)])
          (set_peerConnections (<["b" := mkPeer (new_connection 0) []]>) fresh))).2 =
      delete v (peerConnections
        (set_connectionCreationTime (λ _, [("a", 5%Z); ("b", 3%Z); ("c", 3%Z)])
           (set_peerConnections (<["b" := mkPeer (new_connection 0) []]>) fresh))) ∧
    v ∈ pendingConnections (cleanupOldestConnection
       (set_connectionCreationTime (λ _, [("a", 5%Z); ("b", 3%Z); ("c", 3%Z)])
          (set_peerConnections (<["b" := mkPeer (new_connection 0) []]>) fresh))).2.
Proof.
  apply (cleanup_evicts_oldest
           (set_connectionCreationTime (λ _, [("a", 5%Z); ("b", 3%Z); ("c", 3%Z)])
              (set_peerConnections (<["b" := mkPeer (new_connection 0) []]>) fresh))
           ("a", 5%Z) [("b", 3%Z); ("c", 3%Z)]); [reflexivity|].
  simpl. apply insert_non_empty.
Defined.

(** X15: as long as the creation times are kept for exactly the users in
    the peer table, [createPeerConnection] keeps it so and never lets the
    table grow beyond [MAX_PEER_CONNECTIONS]. *)
Theorem createPeerConnection_capacity (now : Z) (u : UserId) (st : State) :
  times_track_peers st → (size (peerConnections st) ≤ MAX_PEER_CONNECTIONS)%nat →
  times_track_peers (createPeerConnection now u st).2 ∧
  (size (peerConnections (createPeerConnection now u st).2) ≤ MAX_PEER_CONNECTIONS)%nat.
Proof.
  intros Htr Hsz. unfold createPeerConnection. run_unfold.
  destruct (peerConnections st !! u) as [p|] eqn:Hu; [done|].
  destruct (localStream st) as [tracks|]; [|done].
  assert (Hfin : ∀ st1 : State,
    times_track_peers st1 → peerConnections st1 !! u = None →
    (S (size (peerConnections st1)) ≤ MAX_PEER_CONNECTIONS)%nat →
    ∀ obj1 obj2 : PeerConnection,
    times_track_peers
      (set_peerConnections (<[u := obj2]>)
         (set_peerConnections (<[u := obj1]>)
            (set_connectionCreationTime (JMap.set u now) st1))) ∧
    (size (<[u := obj2]> (<[u := obj1]> (peerConnections st1))) ≤ MAX_PEER_CONNECTIONS)%nat).
  { intros st1 Htr1 Hu1 Hsz1 obj1 obj2. split.
    - intros u'. simpl. rewrite JMapFacts.keys_set, <-(Htr1 u').
      destruct (decide (u' = u)) as [->|Hne]; simplify_map_eq; naive_solver.
    - rewrite insert_insert_eq, map_size_insert_None by done. lia. }
  destruct (decide (MAX_PEER_CONNECTIONS ≤ size (peerConnections st))%nat) as [Hfull|Hroom].
  - unfold cleanupOldestConnection, removePeerConnection. run_unfold.
    assert (Hne : size (peerConnections st) ≠ 0) by (unfold MAX_PEER_CONNECTIONS in Hfull; lia).
    rewrite decide_False by done.
    destruct (connectionCreationTime st) as [|e l] eqn:Htimes.
    { apply map_size_non_empty_iff, map_choose in Hne as (v & p & Hv).
      assert (Hin : v ∈ (connectionCreationTime st).*1) by (apply Htr; eauto).
      rewrite Htimes in Hin. by apply elem_of_nil in Hin. }
    pose proof (oldest_elem e l) as Hold. rewrite <-Htimes in Hold.
    apply Htr in Hold as [p Hp]. rewrite Hp. simpl.
    set (st1 := set_pendingConnections _ _).
    assert (Htr1 : times_track_peers st1).
    { intros u'. subst st1. simpl. rewrite JMapFacts.keys_delete, <-(Htr u').
      destruct (decide (u' = oldest e l)) as [->|Hne']; simplify_map_eq; naive_solver. }
    assert (Hu1 : peerConnections st1 !! u = None).
    { subst st1. simpl. apply lookup_delete_None. by right. }
    assert (Hsz1 : (S (size (peerConnections st1)) ≤ MAX_PEER_CONNECTIONS)%nat).
    { subst st1. simpl. pose proof (map_size_delete_Some (oldest e l) (peerConnections st)
        (ex_intro _ p Hp)) as Hd. lia. }
    destruct tracks; simpl; apply (Hfin st1 Htr1 Hu1 Hsz1).
  - simpl. assert (Hsz1 : (S (size (peerConnections st)) ≤ MAX_PEER_CONNECTIONS)%nat) by lia.
    destruct tracks; simpl; apply (Hfin st Htr Hu Hsz1).
Qed.

Lemma createPeerConnection_capacity_witness :
  size (peerConnections at_capacity) = MAX_PEER_CONNECTIONS ∧
  peerConnections (createPeerConnection 10 "p10" at_capacity).2 !! "p0" = None ∧
  is_Some (peerConnections (createPeerConnection 10 "p10" at_capacity).2 !! "p10") ∧
  times_track_peers (createPeerConnection 10 "p10" at_capacity).2 ∧
  (size (peerConnections (createPeerConnection 10 "p10" at_capacity).2)
   ≤ MAX_PEER_CONNECTIONS)%nat.
Proof.
  split; [by vm_compute|]. split; [by vm_compute|].
  split; [vm_compute; by eexists|].
  apply (createPeerConnection_capacity 10 "p10" at_capacity); [|vm_compute; lia].
  unfold at_capacity. cbn [fold_left fst snd].
  do 10 (apply createPeerConnection_capacity; [|vm_compute; lia]).
  intros u. simpl. rewrite lookup_empty. split.
  - by intros [? ?].
  - intros Hin. by apply elem_of_nil in Hin.
Defined.

(** X16: a description that is neither an offer nor an answer, and an
    answer for a user that has no connection or whose connection is not in
    [have-local-offer], are dropped: the handler changes nothing and calls
    nothing. *)
Theorem stray_description_ignored (E : Engine) (me : UserId) (now : Z) (u : UserId)
    (d : SessionDescription) (st : State) (ls : MediaStream) :
  localStream st = Some ls →
  (sd_type d ≠ Offer ∧ sd_type d ≠ Answer) ∨
  (sd_type d = Answer ∧
   ∀ p, peerConnections st !! u = Some p → signalingState (connection p) ≠ HaveLocalOffer) →
  onSignal E me now u (Description d) st = (inr tt, st).
Proof.
  intros Hls Hcase. unfold onSignal, signalBody, try_catch. run_unfold.
  rewrite Hls. destruct Hcase as [[Ho Ha]|[Ha Hst]].
  - by destruct (sd_type d).
  - rewrite Ha. unfold onAnswer.
    destruct (peerConnections st !! u) as [p|]; [|done].
    by rewrite decide_False by (by apply Hst).
Qed.

Lemma stray_description_ignored_witness :
  onSignal jsep "a" 0 "b" (Description (mkDescription Answer "late"))
    (createPeerConnection 0 "b" fresh).2 =
  (inr tt, (createPeerConnection 0 "b" fresh).2).
Proof.
  apply (stray_description_ignored jsep "a" 0 "b" _ _ []); [reflexivity|].
  right. split; [reflexivity|]. intros p Hp. vm_compute in Hp.
  injection Hp as <-. discriminate.
Defined.

Ltac extend_calls :=
  simpl in *; rewrite <- ?app_assoc; simpl; split_socket; simpl;
  rewrite <- ?app_assoc; simpl;
  first [ by eexists | exists []; by rewrite app_nil_r ].

Lemma addAll_extends E u cs st :
  wp (addAll E u cs) st (λ _ st', ∃ more, calls st' = calls st ++ more).
Proof.
  revert st. induction cs as [|c cs IH]; intros st; simpl.
  - wp_run. extend_calls.
  - wp_run; try extend_calls.
    eapply wp_mono; [|apply IH]. intros r st' [more ->]. extend_calls.
Qed.

Lemma drainPendingIce_extends E u st :
  wp (drainPendingIce E u) st (λ _ st', ∃ more, calls st' = calls st ++ more).
Proof.
  unfold drainPendingIce. apply wp_bind, wp_gets. cbv beta iota.
  destruct (pendingIce st !! u) as [[|c cs]|]; try (wp_run; extend_calls).
  apply wp_bind. eapply wp_mono; [|apply addAll_extends].
  intros r st1 [more Hmore]. destruct r as [e|[]]; [by eexists|].
  wp_run. simpl. by eexists.
Qed.

(** Once the connection is there, the first call of [applyOffer] gives the
    offer to [setRemoteDescription]. *)
Lemma applyOffer_first E me u d st :
  is_Some (peerConnections st !! u) →
  wp (applyOffer E me u d) st
    (λ _ st', ∃ more, calls st' = calls st ++ CallSetRemoteDescription u d :: more).
Proof.
  intros [p Hp]. unfold applyOffer. apply wp_bind. wp_step.
  - congruence.
  - extend_calls.
  - apply wp_bind. eapply wp_mono; [|apply drainPendingIce_extends].
    intros r st2 [more Hmore]. simpl in Hmore. rewrite <-app_assoc in Hmore. simpl in Hmore.
    destruct r as [e|[]]; [by eexists|].
    wp_run; split_socket; simpl; rewrite ?Hmore; extend_calls.
Qed.

(** X17: on the polite side, an offer that finds the connection outside
    [stable] is met with a rollback first, whatever else is going on; when
    the browser rejects the rollback nothing more is called, and when it
    accepts it the remote offer is applied next. *)
Theorem polite_glare_rolls_back (E : Engine) (me : UserId) (now : Z) (u : UserId)
    (d : SessionDescription) (p : PeerConnection) (st : State) (ls : MediaStream) :
  localStream st = Some ls → peerConnections st !! u = Some p → sd_type d = Offer →
  signalingState (connection p) ≠ Stable → String.ltb me u = true →
  ∃ rest,
    calls (onSignal E me now u (Description d) st).2 =
      calls st ++ CallSetLocalDescription u Rollback (signalingState (connection p)) :: rest ∧
    (setLocalDescription E (connection p) rollback = None → rest = []) ∧
    (is_Some (setLocalDescription E (connection p) rollback) →
     ∃ rest', rest = CallSetRemoteDescription u d :: rest').
Proof.
  intros Hls Hu Hty Hstate Hlt.
  change (wp (onSignal E me now u (Description d)) st
            (λ _ st', ∃ rest,
               calls st' = calls st ++
                 CallSetLocalDescription u Rollback (signalingState (connection p)) :: rest ∧
               (setLocalDescription E (connection p) rollback = None → rest = []) ∧
               (is_Some (setLocalDescription E (connection p) rollback) →
                ∃ rest', rest = CallSetRemoteDescription u d :: rest'))).
  unfold onSignal, signalBody.
  apply wp_try_catch, wp_bind, wp_gets. rewrite Hls. cbv beta iota.
  apply wp_bind, wp_gets. rewrite Hu, Hty, Hlt. cbv beta iota.
  unfold onOffer. apply wp_bind, wp_gets. cbv beta iota zeta.
  rewrite andb_false_r, bool_decide_eq_true_2 by done.
  apply wp_bind. apply wp_doSetLocalDescription.
  - congruence.
  - intros q Hq Hrej. rewrite Hu in Hq. injection Hq as <-. wp_run. exists []. simpl.
    split; [done|]. split; [done|]. rewrite Hrej. by intros [? ?].
  - intros q pc Hq Hacc. rewrite Hu in Hq. injection Hq as <-. rewrite Hacc.
    eapply wp_mono; [|apply applyOffer_first].
    + intros r st2 [more Hmore]. simpl in Hmore.
      rewrite <-app_assoc in Hmore. simpl in Hmore.
      assert (Hgoal : ∃ rest,
        calls st2 = calls st ++
          CallSetLocalDescription u Rollback (signalingState (connection p)) :: rest ∧
        (Some pc = None → rest = []) ∧
        (is_Some (Some pc) → ∃ rest', rest = CallSetRemoteDescription u d :: rest')).
      { eexists. split; [exact Hmore|]. split; [done|]. intros _. by eexists. }
      destruct r as [[]|[]]; wp_run; exact Hgoal.
    + simpl. rewrite lookup_insert_eq. by eexists.
Qed.

Lemma polite_glare_rolls_back_witness :
  ∃ rest,
    calls (onSignal jsep "a" 0 "b" (Description (mkDescription Offer "remote"))
             (initiateCall jsep "a" 0 "b" fresh).2).2 =
      calls (initiateCall jsep "a" 0 "b" fresh).2 ++
        CallSetLocalDescription "b" Rollback HaveLocalOffer :: rest ∧
    (∃ rest', rest = CallSetRemoteDescription "b" (mkDescription Offer "remote") :: rest').
Proof.
  destruct (polite_glare_rolls_back jsep "a" 0 "b" (mkDescription Offer "remote")
              (mkPeer (mkPC 0 HaveLocalOffer (Some (mkDescription Offer "v=0 offer"))
                         None None None [] []) [])
              (initiateCall jsep "a" 0 "b" fresh).2 [])
    as (rest & Hcalls & _ & Hnext); [reflexivity | reflexivity | reflexivity | discriminate
                                     | reflexivity |].
  exists rest. split; [exact Hcalls|]. apply Hnext. by eexists.
Defined.

(** X18: on the impolite side, an offer that collides with the own one is
    never applied and never answered; when the own offer is still being
    made the handler does nothing at all. *)
Theorem impolite_glare_ignores_offer (E : Engine) (me : UserId) (now : Z) (u : UserId)
    (d : SessionDescription) (p : PeerConnection) (st : State) (ls : MediaStream) :
  localStream st = Some ls → peerConnections st !! u = Some p → sd_type d = Offer →
  String.ltb me u = false →
  isMakingOffer u st = true ∨ signalingState (connection p) ≠ Stable →
  (isMakingOffer u st = true → onSignal E me now u (Description d) st = (inr tt, st)) ∧
  ∃ new, calls (onSignal E me now u (Description d) st).2 = calls st ++ new ∧
         ∀ c, c ∈ new → (∀ d', c ≠ CallSetRemoteDescription u d') ∧ c ≠ CallCreateAnswer u.
Proof.
  intros Hls Hu Hty Hlt Hcoll.
  assert (Hc : (isMakingOffer u st || bool_decide (signalingState (connection p) ≠ Stable))
               = true).
  { destruct Hcoll as [->|Hst]; [done|]. rewrite (bool_decide_eq_true_2 _ Hst).
    apply orb_true_r. }
  split.
  - intros Hon. unfold onSignal, signalBody, onOffer, try_catch. run_unfold.
    rewrite Hls, Hu, Hty, Hlt. unfold isMakingOffer in *. rewrite Hon. reflexivity.
  - change (wp (onSignal E me now u (Description d)) st
              (λ _ st', ∃ new, calls st' = calls st ++ new ∧
                 ∀ c, c ∈ new → (∀ d', c ≠ CallSetRemoteDescription u d') ∧
                                c ≠ CallCreateAnswer u)).
    unfold onSignal, signalBody.
    apply wp_try_catch, wp_bind, wp_gets. rewrite Hls. cbv beta iota.
    apply wp_bind, wp_gets. rewrite Hu, Hty, Hlt. cbv beta iota.
    unfold onOffer. apply wp_bind, wp_gets. cbv beta iota zeta.
    rewrite Hc. simpl.
    wp_run.
    all: split_socket; calls_extend; intros c Hin; elem_cases Hin.
    all: by subst c.
Qed.

Lemma impolite_glare_ignores_offer_witness :
  ∃ new,
    calls (onSignal jsep "b" 0 "a" (Description (mkDescription Offer "remote"))
             (onNegotiationTimer jsep "b" "a" (initiateCall jsep "b" 0 "a" fresh).2).2).2 =
      calls (onNegotiationTimer jsep "b" "a" (initiateCall jsep "b" 0 "a" fresh).2).2 ++ new ∧
    ∀ c, c ∈ new → (∀ d', c ≠ CallSetRemoteDescription "a" d') ∧ c ≠ CallCreateAnswer "a".
Proof.
  apply (impolite_glare_ignores_offer jsep "b" 0 "a" (mkDescription Offer "remote")
           (mkPeer (mkPC 0 HaveLocalOffer (Some (mkDescription Offer "v=0 offer"))
                      None None None [] []) [])
           (onNegotiationTimer jsep "b" "a" (initiateCall jsep "b" 0 "a" fresh).2).2 []);
    [reflexivity | reflexivity | reflexivity | reflexivity | right; discriminate].
Defined.

(** What [initiateCall] leaves alone, and what it has built when it
    returns. *)
Lemma initiateCall_frame E me now u st :
  wp (initiateCall E me now u) st
    (λ r st', localStream st' = localStream st ∧ nicknameMap st' = nicknameMap st ∧
              (∀ x, r = inr x → is_Some (peerConnections st' !! u)) ∧
              (∀ e, r = inl e → localStream st = None)).
Proof.
  unfold initiateCall. apply wp_bind.
  eapply wp_mono; [|apply createPeerConnection_returns].
  intros r st1 (Hr & Hls & _ & Hnick). destruct r as [e|p]; [naive_solver|].
  destruct Hr as [_ Hp]. apply wp_bind.
  destruct (String.ltb me u).
  - apply wp_bind, wp_gets. cbv beta iota.
    destruct (isMakingOffer u st1).
    + wp_run. simpl. by repeat split.
    + eapply wp_mono; [|apply guardedOffer_returns].
      intros r st2 ([b ->] & _ & Hls2 & _ & Hnick2 & Hdom).
      assert (Hp2 : is_Some (peerConnections st2 !! u)) by (apply Hdom; eauto).
      destruct b; wp_run; (split; [congruence|]); (split; [congruence|]); done.
  - wp_run. split; [done|]. split; [done|]. split; [|done]. intros _ _. eauto.
Qed.

(** X19: when a user joins while this client has no local stream, the
    handler still builds a connection for that user, over an empty
    stand-in stream, and then puts the stream back to none; so every
    signal that user sends afterwards, the answer to an offer just sent
    included, is dropped: it only puts the user on the pending set. *)
Theorem joined_without_stream (E : Engine) (me : UserId) (sock : string) (now : Z)
    (u : UserId) (s n : string) (st : State) :
  localStream st = None → s ≠ sock →
  (onUserJoined E me sock now u s n st).1 = inr tt ∧
  localStream (onUserJoined E me sock now u s n st).2 = None ∧
  is_Some (peerConnections (onUserJoined E me sock now u s n st).2 !! u) ∧
  nicknameMap (onUserJoined E me sock now u s n st).2 !! u = Some n ∧
  ∀ sig, onSignal E me now u sig (onUserJoined E me sock now u s n st).2 =
         (inr tt, set_pendingConnections (λ p, p ∪ {[u]})
                    (onUserJoined E me sock now u s n st).2).
Proof.
  intros Hls Hs.
  assert (Hmain : wp (onUserJoined E me sock now u s n) st
            (λ r st', r = inr tt ∧ localStream st' = None ∧
                      is_Some (peerConnections st' !! u) ∧ nicknameMap st' !! u = Some n)).
  { unfold onUserJoined. rewrite decide_True by done.
    apply wp_bind, wp_modify. cbv beta iota.
    apply wp_try_catch, wp_bind, wp_gets. simpl. rewrite Hls.
    apply wp_bind, wp_modify. cbv beta iota. apply wp_bind.
    eapply wp_mono; [|apply initiateCall_frame].
    intros r st2 (Hls2 & Hnick2 & Hp2 & Hthrow). simpl in Hls2, Hnick2.
    destruct r as [e|x].
    - by specialize (Hthrow e eq_refl).
    - apply wp_modify. simpl. split; [done|]. split; [done|].
      split; [by eapply Hp2|]. by rewrite Hnick2, lookup_insert_eq. }
  unfold wp in Hmain. destruct Hmain as (Hr & Hls' & Hp & Hn).
  do 4 (split; [done|]). intros sig.
  unfold onSignal, signalBody, try_catch. run_unfold. by rewrite Hls'.
Qed.

Lemma joined_without_stream_witness :
  localStream (onUserJoined jsep "a" "s1" 0 "b" "s2" "B" fresh_no_stream).2 = None ∧
  is_Some (peerConnections (onUserJoined jsep "a" "s1" 0 "b" "s2" "B" fresh_no_stream).2 !! "b").
Proof.
  destruct (joined_without_stream jsep "a" "s1" 0 "b" "s2" "B" fresh_no_stream)
    as (_ & Hls & Hp & _); [reflexivity | discriminate |].
  exact (conj Hls Hp).
Defined.

(** X20: [userLeft] closes and forgets the connection of the user who
    left and takes the user off the pending set, and touches no other
    user; candidates queued for a user who had no connection stay
    queued. *)
Theorem userLeft_forgets_peer (u : UserId) (st : State) :
  (onUserLeft u st).1 = inr tt ∧
  peerConnections (onUserLeft u st).2 = delete u (peerConnections st) ∧
  pendingConnections (onUserLeft u st).2 = pendingConnections st ∖ {[u]} ∧
  calls (onUserLeft u st).2 =
    calls st ++ match peerConnections st !! u with
                | Some p => [CallClose u (pc_id (connection p))]
                | None => []
                end ∧
  (∀ v, v ≠ u →
     makingOffer (onUserLeft u st).2 !! v = makingOffer st !! v ∧
     pendingIce (onUserLeft u st).2 !! v = pendingIce st !! v ∧
     JMap.get v (connectionCreationTime (onUserLeft u st).2) =
       JMap.get v (connectionCreationTime st)) ∧
  pendingIce (onUserLeft u st).2 !! u =
    match peerConnections st !! u with Some _ => None | None => pendingIce st !! u end.
Proof.
  unfold onUserLeft, removePeerConnection. run_unfold.
  destruct (peerConnections st !! u) as [p|] eqn:Hu; simpl.
  - do 4 (split; [done|]). split; [|apply lookup_delete_eq].
    intros v Hne. by rewrite !lookup_delete_ne, JMapFacts.get_delete_ne.
  - rewrite app_nil_r. split; [done|]. split; [by rewrite delete_id|]. done.
Qed.

(** X21: [restartIce] does nothing when the user has no connection any
    more or has another connection than the one it was called for;
    otherwise it gives a fresh offer to [setLocalDescription] without
    looking at the signalling state and sends it; and when the browser
    refuses the offer, the connection is closed and forgotten and the user
    is put on the pending set. *)
Theorem restartIce_outcomes (E : Engine) (me : UserId) (u : UserId) (id : nat) (st : State) :
  (restartIce E me u id st).1 = inr tt ∧
  match peerConnections st !! u with
  | None => (restartIce E me u id st).2 = st
  | Some p =>
      if decide (pc_id (connection p) ≠ id) then (restartIce E me u id st).2 = st
      else
        match createOffer E (connection p) true with
        | None =>
            calls (restartIce E me u id st).2 =
              calls st ++ [CallCreateOffer u true; CallClose u id] ∧
            peerConnections (restartIce E me u id st).2 !! u = None ∧
            u ∈ pendingConnections (restartIce E me u id st).2
        | Some (o, pc) =>
            match setLocalDescription E pc o with
            | None =>
                calls (restartIce E me u id st).2 =
                  calls st ++ [CallCreateOffer u true;
                               CallSetLocalDescription u (sd_type o) (signalingState pc);
                               CallClose u (pc_id pc)] ∧
                peerConnections (restartIce E me u id st).2 !! u = None ∧
                u ∈ pendingConnections (restartIce E me u id st).2
            | Some pc' =>
                calls (restartIce E me u id st).2 =
                  calls st ++ [CallCreateOffer u true;
                               CallSetLocalDescription u (sd_type o) (signalingState pc)] ++
                              (if hasSocket st then [EmitSignal u me (Description o)] else []) ∧
                peerConnections (restartIce E me u id st).2 !! u = Some (mkPeer pc' (stream p)) ∧
                pendingConnections (restartIce E me u id st).2 = pendingConnections st
            end
        end
  end.
Proof.
  change (wp (restartIce E me u id) st (λ r st',
    r = inr tt ∧
    match peerConnections st !! u with
    | None => st' = st
    | Some p =>
        if decide (pc_id (connection p) ≠ id) then st' = st
        else
          match createOffer E (connection p) true with
          | None =>
              calls st' = calls st ++ [CallCreateOffer u true; CallClose u id] ∧
              peerConnections st' !! u = None ∧ u ∈ pendingConnections st'
          | Some (o, pc) =>
              match setLocalDescription E pc o with
              | None =>
                  calls st' =
                    calls st ++ [CallCreateOffer u true;
                                 CallSetLocalDescription u (sd_type o) (signalingState pc);
                                 CallClose u (pc_id pc)] ∧
                  peerConnections st' !! u = None ∧ u ∈ pendingConnections st'
              | Some pc' =>
                  calls st' =
                    calls st ++ [CallCreateOffer u true;
                                 CallSetLocalDescription u (sd_type o) (signalingState pc)] ++
                                (if hasSocket st then [EmitSignal u me (Description o)] else []) ∧
                  peerConnections st' !! u = Some (mkPeer pc' (stream p)) ∧
                  pendingConnections st' = pendingConnections st
              end
          end
    end)).
  unfold restartIce. apply wp_try_catch, wp_bind, wp_gets. cbv beta iota.
  destruct (peerConnections st !! u) as [p|] eqn:Hu; [|by wp_run].
  destruct (decide (pc_id (connection p) ≠ id)) as [Hid|Hid]; [by wp_run|].
  apply dec_stable in Hid.
  apply wp_bind. unfold wp at 1.
  destruct (createOffer E (connection p) true) as [[o pc]|] eqn:Ho.
  - rewrite (doCreateOffer_eq E u true p o pc st Hu Ho). cbn [fst snd].
    set (st1 := set_peerConnections _ _).
    assert (Hu1 : peerConnections st1 !! u = Some (mkPeer pc (stream p))).
    { subst st1. simpl. apply lookup_insert_eq. }
    apply wp_bind. unfold wp at 1.
    destruct (setLocalDescription E pc o) as [pc'|] eqn:Hl.
    + rewrite (doSetLocalDescription_eq E u o _ pc' st1 Hu1 Hl). cbn [fst snd].
      apply wp_sendSignal. subst st1. simpl.
      destruct (hasSocket st); simpl; rewrite <-?app_assoc, ?lookup_insert_eq; simpl; done.
    + rewrite (doSetLocalDescription_fail E u o _ st1 Hu1 Hl). cbn [fst snd].
      unfold removePeerConnection. apply wp_bind, wp_bind, wp_gets. simpl.
      rewrite lookup_insert_eq. wp_run. simpl. rewrite <-!app_assoc. simpl.
      rewrite lookup_delete_eq. split; [done|]. split; [done|]. split; [done|]. set_solver.
  - rewrite (doCreateOffer_fail E u true p st Hu Ho). cbn [fst snd].
    unfold removePeerConnection. apply wp_bind, wp_bind, wp_gets. simpl.
    rewrite Hu. wp_run. simpl. rewrite <-!app_assoc. simpl.
    rewrite lookup_delete_eq, Hid. split; [done|]. split; [done|]. split; [done|]. set_solver.
Qed.

Lemma wp_conj {A} (m : Run A) st (Q1 Q2 : Exn + A → State → Prop) :
  wp m st Q1 → wp m st Q2 → wp m st (λ r st', Q1 r st' ∧ Q2 r st').
Proof. unfold wp. auto. Qed.

Lemma removePeerConnection_effect u st :
  wp (removePeerConnection u) st
    (λ r st', r = inr tt ∧ localStream st' = localStream st ∧
              nicknameMap st' = nicknameMap st ∧
              pendingConnections st' = pendingConnections st ∧
              peerConnections st' !! u = None ∧
              calls st' = calls st ++ match peerConnections st !! u with
                                      | Some p => [CallClose u (pc_id (connection p))]
                                      | None => []
                                      end).
Proof.
  unfold wp, removePeerConnection. run_unfold.
  destruct (peerConnections st !! u) as [p|] eqn:Hu; simpl.
  - by rewrite lookup_delete_eq.
  - by rewrite app_nil_r.
Qed.

(** X22: [userRejoined] from another socket first closes and forgets the
    connection the user had; with a local stream it then has a connection
    for the user again, and without one it has none and the user is on the
    pending set. *)
Theorem rejoin_replaces_connection (E : Engine) (me : UserId) (sock : string) (now : Z)
    (u : UserId) (s n : string) (st : State) :
  s ≠ sock →
  (onUserRejoined E me sock now u s n st).1 = inr tt ∧
  nicknameMap (onUserRejoined E me sock now u s n st).2 !! u = Some n ∧
  (∃ rest, calls (onUserRejoined E me sock now u s n st).2 =
             calls st ++ match peerConnections st !! u with
                         | Some p => [CallClose u (pc_id (connection p))]
                         | None => []
                         end ++ rest) ∧
  match localStream st with
  | Some _ => is_Some (peerConnections (onUserRejoined E me sock now u s n st).2 !! u)
  | None => peerConnections (onUserRejoined E me sock now u s n st).2 !! u = None ∧
            u ∈ pendingConnections (onUserRejoined E me sock now u s n st).2
  end.
Proof.
  intros Hs.
  change (wp (onUserRejoined E me sock now u s n) st (λ r st',
    r = inr tt ∧ nicknameMap st' !! u = Some n ∧
    (∃ rest, calls st' = calls st ++ match peerConnections st !! u with
                                     | Some p => [CallClose u (pc_id (connection p))]
                                     | None => []
                                     end ++ rest) ∧
    match localStream st with
    | Some _ => is_Some (peerConnections st' !! u)
    | None => peerConnections st' !! u = None ∧ u ∈ pendingConnections st'
    end)).
  unfold onUserRejoined. rewrite decide_True by done. apply wp_bind.
  eapply wp_mono; [|apply removePeerConnection_effect].
  intros r st1 (-> & Hls & Hnick & Hpend & Hgone & Hcalls).
  apply wp_bind, wp_modify. cbv beta iota. apply wp_bind, wp_gets. simpl. rewrite Hls.
  destruct (localStream st) as [ls|] eqn:Hst.
  - apply wp_try_catch, wp_bind.
    eapply wp_mono;
      [|apply (wp_conj _ _ _ _ (initiateCall_frame E me now u _)
                               (initiateCall_calls E me now u _))].
    intros r st2 ((Hls2 & Hnick2 & Hp2 & Hthrow) & (new & Hcalls2 & _)).
    simpl in Hls2, Hnick2, Hcalls2, Hthrow.
    destruct r as [e|x].
    + specialize (Hthrow e eq_refl). congruence.
    + wp_run. split; [done|]. split; [by rewrite Hnick2, lookup_insert_eq|].
      split; [|by eapply Hp2]. exists new. by rewrite Hcalls2, Hcalls, <-app_assoc.
  - wp_run. simpl. split; [done|]. split; [by rewrite lookup_insert_eq|].
    split; [exists []; by rewrite app_nil_r|]. split; [done|]. set_solver.
Qed.

Lemma rejoin_replaces_connection_witness :
  is_Some (peerConnections
             (onUserRejoined jsep "b" "s1" 1 "a" "s2" "A"
                (createPeerConnection 0 "a" fresh).2).2 !! "a") ∧
  ∃ rest, calls (onUserRejoined jsep "b" "s1" 1 "a" "s2" "A"
                   (createPeerConnection 0 "a" fresh).2).2 =
            calls (createPeerConnection 0 "a" fresh).2 ++ [CallClose "a" 0] ++ rest.
Proof.
  destruct (rejoin_replaces_connection jsep "b" "s1" 1 "a" "s2" "A"
              (createPeerConnection 0 "a" fresh).2) as (_ & _ & Hcalls & Hp); [discriminate|].
  exact (conj Hp Hcalls).
Defined.

Lemma initiateCall_throws_or_returns E me now u st :
  wp (initiateCall E me now u) st
    (λ r st', match r with
              | inl e => localStream st = None ∧ peerConnections st !! u = None
              | inr _ => True
              end).
Proof.
  unfold initiateCall. apply wp_bind.
  eapply wp_mono; [|apply createPeerConnection_returns].
  intros r st1 (Hr & _). destruct r as [e|p]; [naive_solver|].
  apply wp_bind.
  destruct (String.ltb me u).
  - apply wp_bind, wp_gets. cbv beta iota.
    destruct (isMakingOffer u st1).
    + by wp_run.
    + eapply wp_mono; [|apply guardedOffer_returns].
      intros r st2 ([b ->] & _). destruct b; by wp_run.
  - by wp_run.
Qed.

Lemma initiateCall_no_stream E me now u st :
  localStream st = None → peerConnections st !! u = None →
  initiateCall E me now u st = (inl (LocalStreamNotInitialized u), st).
Proof.
  intros Hls Hu. unfold initiateCall, createPeerConnection. run_unfold.
  by rewrite Hu, Hls.
Qed.

(** X25: the timer set after a failed ICE restart does nothing for a user
    who is no longer pending and never throws; for a pending user it calls
    [initiateCall], after which the user has a connection, unless there is
    neither a local stream nor a connection: then nothing is called and
    the user is pending again. *)
Theorem restart_timer_outcomes (E : Engine) (me : UserId) (now : Z) (u : UserId) (st : State) :
  (onRestartTimer E me now u st).1 = inr tt ∧
  (u ∉ pendingConnections st → (onRestartTimer E me now u st).2 = st) ∧
  (u ∈ pendingConnections st →
   if decide (localStream st = None ∧ peerConnections st !! u = None)
   then u ∈ pendingConnections (onRestartTimer E me now u st).2 ∧
        calls (onRestartTimer E me now u st).2 = calls st ∧
        peerConnections (onRestartTimer E me now u st).2 = peerConnections st
   else is_Some (peerConnections (onRestartTimer E me now u st).2 !! u)).
Proof.
  change (wp (onRestartTimer E me now u) st (λ r st',
    r = inr tt ∧ (u ∉ pendingConnections st → st' = st) ∧
    (u ∈ pendingConnections st →
     if decide (localStream st = None ∧ peerConnections st !! u = None)
     then u ∈ pendingConnections st' ∧ calls st' = calls st ∧
          peerConnections st' = peerConnections st
     else is_Some (peerConnections st' !! u)))).
  unfold onRestartTimer. apply wp_bind, wp_gets. cbv beta iota.
  destruct (bool_decide (u ∈ pendingConnections st)) eqn:Hpend.
  - apply bool_decide_eq_true in Hpend.
    apply wp_bind, wp_modify. cbv beta iota. apply wp_try_catch, wp_bind.
    set (st1 := set_pendingConnections _ st).
    destruct (decide (localStream st = None ∧ peerConnections st !! u = None))
      as [[Hls Hu]|Hsome].
    + unfold wp at 1. rewrite (initiateCall_no_stream E me now u st1) by done.
      cbn [fst snd]. wp_run. subst st1. simpl.
      split; [done|]. split; [done|]. intros _. split; [set_solver|done].
    + eapply wp_mono;
        [|apply (wp_conj _ _ _ _ (initiateCall_frame E me now u st1)
                                 (initiateCall_throws_or_returns E me now u st1))].
      intros r st2 ((_ & _ & Hp & _) & Hr). subst st1. simpl in Hr.
      destruct r as [e|x].
      * exfalso. apply Hsome. by destruct Hr.
      * wp_run. split; [done|]. split; [done|]. intros _. by eapply Hp.
  - apply bool_decide_eq_false in Hpend. wp_run. split; [done|]. split; [done|]. done.
Qed.

End EventsFacts.

(** ** The remote stream after a track has come in *)

Module OntrackFacts.
Import JS Media TrackRouter TrackRouterFacts.

Implicit Types (t x : Track) (s : list Track).

Lemma enable_in_enabled t s y :
  y ∈ enable_in t s → track_id y = track_id t → enabled y = true.
Proof.
  unfold enable_in. intros (x & -> & Hin)%list_elem_of_fmap.
  case_decide; [done|]. intros Hid. by destruct H.
Qed.

Lemma enable_in_fresh t s :
  track_id t ∉ track_id <$> s → enable_in t s = s.
Proof.
  unfold enable_in. induction s as [|a s IH]; intros Hfresh; simpl; [done|].
  rewrite fmap_cons, not_elem_of_cons in Hfresh. destruct Hfresh as [Hne Hfresh].
  rewrite decide_False by done. f_equal. by apply IH.
Qed.

Lemma addTrack_fresh t s :
  track_id t ∉ track_id <$> s → addTrack t s = s ++ [t].
Proof.
  intros Hfresh. unfold addTrack. rewrite decide_False; [done|].
  intros (x & Hin & Hid)%Exists_exists. apply Hfresh. rewrite <-Hid.
  apply list_elem_of_fmap. by exists x.
Qed.

(** X23: when a screen-share video track comes in, the stream afterwards
    holds an enabled track with its id, no other video track whose label
    says screen, and every audio track and every video track whose label
    does not say screen that it held before. *)
Theorem screen_share_takes_over (track : Track) (s : list Track) :
  NoDup (track_id <$> s) → kind track = Video → isScreen track = true →
  (∃ y, y ∈ ontrack track s ∧ track_id y = track_id track ∧ enabled y = true) ∧
  (∀ x, x ∈ s → kind x = Video → labelSaysScreen (label x) = true →
        track_id x ≠ track_id track → x ∉ ontrack track s) ∧
  (∀ x, x ∈ s → kind x = Audio ∨ labelSaysScreen (label x) = false →
        track_id x ≠ track_id track → x ∈ ontrack track s).
Proof.
  intros Hnd Hkind Hscreen. split; [|split].
  - unfold ontrack. cbv zeta. rewrite isScreen_enable, Hscreen. simpl.
    rewrite bool_decide_eq_true_2 by done. simpl.
    unfold addTrack. case_decide as Hex.
    + apply Exists_exists in Hex as (y & Hin & Hid). exists y.
      split; [done|]. split; [done|].
      apply elem_fold_removeTrack in Hin as [Hin _].
      by apply (enable_in_enabled track s).
    + exists (enable track). split; [|done].
      apply elem_of_app. right. apply list_elem_of_here.
  - intros x Hin Hv Hl Hne. by apply screen_share_drops_labelled.
  - intros x Hin Hother Hne. by apply screen_share_keeps_others.
Qed.

Lemma screen_share_takes_over_witness :
  ∃ y, y ∈ ontrack window_share [monitor_share] ∧ track_id y = track_id window_share ∧
       enabled y = true.
Proof.
  apply (screen_share_takes_over window_share [monitor_share]);
    [apply NoDup_singleton | reflexivity | reflexivity].
Defined.

(** X24: when a track that is not a screen-share video track comes in
    with a new id, it is put last on the stream, enabled; the tracks of
    the other kind and the tracks whose label says screen all stay; and if
    the stream held at most one track of its kind whose label does not say
    screen, that one is gone, also when the incoming track is the audio of
    a screen share. *)
Theorem plain_track_takes_over (track : Track) (s : list Track) :
  NoDup (track_id <$> s) → track_id track ∉ track_id <$> s →
  isScreen track && bool_decide (kind track = Video) = false →
  last (ontrack track s) = Some (enable track) ∧
  (∀ x, x ∈ s → kind x ≠ kind track ∨ labelSaysScreen (label x) = true →
        x ∈ ontrack track s) ∧
  ((length (filter (λ x, kind x = kind track ∧ labelSaysScreen (label x) = false) s) ≤ 1)%nat →
   ∀ x, x ∈ ontrack track s → kind x = kind track → labelSaysScreen (label x) = false →
        x = enable track).
Proof.
  intros Hnd Hfresh Hplain. unfold ontrack. cbv zeta.
  assert (Hplain' : isScreen (enable track) && bool_decide (kind (enable track) = Video)
                    = false) by exact Hplain.
  rewrite Hplain', (enable_in_fresh track s Hfresh).
  change (kind (enable track)) with (kind track).
  set (P := λ t, bool_decide (kind t = kind track) && negb (labelSaysScreen (label t))).
  set (s2 := match find P s with Some t => removeTrack t s | None => s end).
  assert (Hsub : ∀ x, x ∈ s2 → x ∈ s).
  { intros x. subst s2. destruct (find P s); [|done].
    unfold removeTrack. by intros [_ ?]%list_elem_of_filter. }
  assert (Hfresh2 : track_id (enable track) ∉ track_id <$> s2).
  { intros (x & Hid & Hin)%list_elem_of_fmap. apply Hfresh.
    apply list_elem_of_fmap. exists x. split; [done|]. by apply Hsub. }
  rewrite (addTrack_fresh _ _ Hfresh2). split; [apply last_snoc|]. split.
  - intros x Hin Hother. apply elem_of_app. left. subst s2.
    destruct (find P s) as [t|] eqn:Hfind; [|done].
    apply find_some in Hfind as [Ht HP]. subst P. simpl in HP.
    apply andb_prop in HP as [Hk Hl]. apply bool_decide_eq_true in Hk.
    apply negb_true_iff in Hl.
    unfold removeTrack. apply list_elem_of_filter. split; [|done].
    intros Hid. apply list_elem_of_In in Ht.
    assert (x = t) as -> by (by apply (same_id_same_track s)).
    destruct Hother; congruence.
  - intros Hone x [Hin|Hin]%elem_of_app Hk Hl;
      [|by apply list_elem_of_singleton in Hin].
    exfalso. subst s2.
    assert (HQ : x ∈ filter (λ x, kind x = kind track ∧ labelSaysScreen (label x) = false) s).
    { apply list_elem_of_filter. split; [done|]. by apply Hsub. }
    destruct (find P s) as [t|] eqn:Hfind.
    + pose proof Hfind as Hfind'. apply find_some in Hfind' as [Ht HP]. subst P. simpl in HP.
      apply andb_prop in HP as [Hkt Hlt]. apply bool_decide_eq_true in Hkt.
      apply negb_true_iff in Hlt. apply list_elem_of_In in Ht.
      assert (HQt : t ∈ filter (λ x, kind x = kind track ∧ labelSaysScreen (label x) = false) s).
      { apply list_elem_of_filter. by split. }
      unfold removeTrack in Hin. apply list_elem_of_filter in Hin as [Hid Hin].
      destruct (filter _ s) as [|a [|b l]]; simpl in Hone; [|(* one *)|lia].
      * by apply elem_of_nil in HQ.
      * apply list_elem_of_singleton in HQ, HQt. congruence.
    + assert (HP : P x = false).
      { apply (find_none _ _ Hfind x). by apply list_elem_of_In, Hsub. }
      subst P. simpl in HP. rewrite Hl, bool_decide_eq_true_2 in HP by done.
      discriminate.
Qed.

Lemma plain_track_takes_over_witness :
  last (ontrack (mkTrack "a2" Audio "screen audio" false (mkSettings None None None))
          [mkTrack "a1" Audio "microphone" true (mkSettings None None None)]) =
  Some (enable (mkTrack "a2" Audio "screen audio" false (mkSettings None None None))).
Proof.
  apply (plain_track_takes_over
           (mkTrack "a2" Audio "screen audio" false (mkSettings None None None))
           [mkTrack "a1" Audio "microphone" true (mkSettings None None None)]);
    [apply NoDup_singleton | | reflexivity].
  intros Hin%list_elem_of_singleton. discriminate.
Defined.

End OntrackFacts.

(** ** The server's participant list in the hands of the joining client *)

Module JoinFacts.
Import Wire Media Client Events ClientFacts EventsFacts.

Implicit Types (u v w : UserId) (st : State) (E : Engine).

(** [initiateCall] for [v] gives no connection to a user other than [v]. *)
Lemma initiateCall_others E me now v st :
  wp (initiateCall E me now v) st
    (λ _ st', ∀ w, w ≠ v → peerConnections st !! w = None →
                   peerConnections st' !! w = None).
Proof.
  unfold initiateCall. apply wp_bind.
  assert (Hcreate : wp (createPeerConnection now v) st
            (λ _ st', ∀ w, w ≠ v → peerConnections st !! w = None →
                           peerConnections st' !! w = None)).
  { unfold createPeerConnection. wp_run.
    all: simpl; intros w Hne Hw; rewrite ?lookup_insert_ne by done; try done.
    all: apply lookup_delete_None; by right. }
  eapply wp_mono; [|apply Hcreate].
  intros r st1 Hothers. destruct r as [e|p]; [done|].
  apply wp_bind. destruct (String.ltb me v).
  - apply wp_bind, wp_gets. cbv beta iota.
    destruct (isMakingOffer v st1).
    + wp_run. simpl. done.
    + eapply wp_mono; [|apply guardedOffer_returns].
      intros r st2 ([b ->] & _ & _ & _ & _ & Hdom).
      assert (Hkeep : ∀ w, w ≠ v → peerConnections st !! w = None →
                           peerConnections st2 !! w = None).
      { intros w Hne Hw. apply eq_None_not_Some. rewrite Hdom.
        apply eq_None_not_Some. by apply Hothers. }
      destruct b; by wp_run.
  - by wp_run.
Qed.

Lemma onExistingParticipant_others E me sock now (m : Server.Member) u st :
  Server.m_socketId m = sock ∨ Server.m_userId m ≠ u →
  peerConnections st !! u = None →
  wp (onExistingParticipant E me sock now m) st
    (λ r st', r = inr tt ∧ peerConnections st' !! u = None).
Proof.
  intros Hm Hu. unfold onExistingParticipant. cbv zeta.
  destruct (decide (Server.m_socketId m ≠ sock)) as [Hsock|Hsock]; [|by wp_run].
  destruct Hm as [Hm|Hm]; [done|].
  apply wp_bind, wp_modify. cbv beta iota.
  apply wp_try_catch, wp_bind, wp_gets. simpl.
  destruct (localStream st).
  - apply wp_bind. eapply wp_mono; [|apply initiateCall_others].
    intros r st2 Hothers. simpl in Hothers.
    destruct r as [e|x]; wp_run; simpl; (split; [done|]); by apply Hothers.
  - apply wp_bind, wp_modify. cbv beta iota. apply wp_bind.
    eapply wp_mono; [|apply initiateCall_others].
    intros r st2 Hothers. simpl in Hothers.
    destruct r as [e|x]; wp_run; simpl; (split; [done|]); by apply Hothers.
Qed.

Lemma onExistingParticipants_others E me sock now (l : list Server.Member) u st :
  (∀ m, m ∈ l → Server.m_socketId m = sock ∨ Server.m_userId m ≠ u) →
  peerConnections st !! u = None →
  wp (onExistingParticipants E me sock now l) st
    (λ r st', r = inr tt ∧ peerConnections st' !! u = None).
Proof.
  revert st. induction l as [|m l IH]; intros st Hl Hu; simpl; [by wp_run|].
  apply wp_bind. eapply wp_mono; [|apply (onExistingParticipant_others E me sock now m u)].
  - intros r st1 [-> Hu1]. apply IH; [|done].
    intros m' Hin. by apply Hl, list_elem_of_further.
  - apply Hl, list_elem_of_here.
  - done.
Qed.

(** X26: a client that works through the participant list the server sent
    it on joining never opens a connection to itself: the only entry with
    its own user id is the one that carries its own socket, which the loop
    skips; and the loop always comes to its end. *)
Theorem joiner_never_calls_itself (E : Engine) (now : Z) (s : Server.SocketId)
    (r : Server.RoomId) (u : UserId) (n : string) (reg : Server.Registry)
    (l : list Server.Member) (st : State) :
  head (Server.join_room s r u n reg).2 = Some (Server.SocketEmit s, Server.ExistingParticipants l) →
  peerConnections st !! u = None →
  (onExistingParticipants E u s now l st).1 = inr tt ∧
  peerConnections (onExistingParticipants E u s now l st).2 !! u = None.
Proof.
  intros Hl Hu. apply (onExistingParticipants_others E u s now l u st); [|done].
  rewrite ServerFacts.join_room_events in Hl. simpl in Hl. injection Hl as <-.
  rewrite RegistryFacts.room_after_join, RegistryFacts.members_of_app.
  intros m [Hin|Hin]%elem_of_app.
  - right. unfold Server.members_of in Hin.
    apply list_elem_of_In, in_map_iff in Hin as ([v p] & <- & Hin). simpl.
    apply list_elem_of_In in Hin. unfold JMap.delete in Hin.
    by apply list_elem_of_filter in Hin as [Hne _].
  - left. simpl in Hin. apply list_elem_of_singleton in Hin. by subst m.
Qed.

Lemma joiner_never_calls_itself_witness :
  peerConnections
    (onExistingParticipants jsep "u2" "s2" 0
       [Server.mkMember "u1" "s1" "A"; Server.mkMember "u2" "s2" "B"] fresh).2 !! "u2" = None.
Proof.
  apply (joiner_never_calls_itself jsep 0 "s2" "R" "u2" "B"
           (Server.run [Server.Join "s1" "R" "u1" "A"] Server.initial)
           [Server.mkMember "u1" "s1" "A"; Server.mkMember "u2" "s2" "B"] fresh);
    reflexivity.
Defined.

End JoinFacts.
